(** * Time-sliced execution scheduler of [scripts/binance_buyer.go]

    A shallow embedding of the duration parser ([parseDuration]), of the
    scheduling part of [main] (plan construction and the two execution
    loops), of what [main] does before it (flags, price and balances, the
    amount to use), of the balance lookups of the client and of the texts
    of its signed requests, followed by the properties of the specification
    that hold of them, the inputs at which the others fail, and further
    properties of the code.

    Amounts are Go [float64] values, modelled by Rocq's primitive binary64
    floats; [time.Duration] and [int] are 64-bit signed integers, modelled by
    [Z] with the wrap-around written out.  The venue is an oracle that tells,
    call by call, whether [PlaceOrder] returns an order or an error; a run
    is the list of what the loop does (orders, sleeps, the early stop)
    together with the amount left.  The exchange is what its requests
    answer once decoded; [strconv.ParseFloat], HMAC-SHA256 and the upper
    case of non-ASCII texts are parameters of the development, and the HTTP
    exchange itself is not modelled. *)

From Stdlib Require Import ZArith Lia Bool List Ascii String DecimalString.
From Stdlib Require Import Floats Uint63.
Import ListNotations.

Open Scope Z_scope.

(** ** 64-bit signed integers *)

Module Int64.

Definition min_int64 : Z := - 2 ^ 63.
Definition max_int64 : Z := 2 ^ 63 - 1.

Definition in_range (z : Z) : bool := (min_int64 <=? z) && (z <=? max_int64).

(** Two's complement wrap-around of an integer result. *)
Definition wrap (z : Z) : Z := (z + 2 ^ 63) mod 2 ^ 64 - 2 ^ 63.

Definition mul (a b : Z) : Z := wrap (a * b).

End Int64.

(** ** Go's float64 operations used by the scheduler *)

Module Float64.

(** [float64(z)] for a 64-bit signed [z]: the nearest binary64 value. *)
Definition of_int (z : Z) : float :=
  if z <? 0 then
    if z =? Int64.min_int64 then (-0x1p63)%float
    else (- of_uint63 (Uint63.of_Z (- z)))%float
  else of_uint63 (Uint63.of_Z z).

(** The integer part of a finite value, rounding toward zero. *)
Definition trunc_SF (x : spec_float) : option Z :=
  match x with
  | S754_zero _ => Some 0
  | S754_finite s m e => Some (cond_Zopp s (Z.shiftl (Zpos m) e))
  | _ => None
  end.

(** [int(x)] and [int64(x)]: truncation toward zero.  Go leaves the result
    unspecified when the value does not fit; amd64 yields the minimum
    integer, which is what the model returns there. *)
Definition to_int (x : float) : Z :=
  match trunc_SF (Prim2SF x) with
  | Some z => if Int64.in_range z then z else Int64.min_int64
  | None => Int64.min_int64
  end.

(** The value fits a 64-bit integer, so that [to_int] is a defined
    conversion. *)
Definition int_convertible (x : float) : bool :=
  match trunc_SF (Prim2SF x) with
  | Some z => Int64.in_range z
  | None => false
  end.

(** The mathematical floor of a finite value (used in statements only). *)
Definition floor (x : float) : option Z :=
  match Prim2SF x with
  | S754_zero _ => Some 0
  | S754_finite s m e => Some (Z.shiftl (cond_Zopp s (Zpos m)) e)
  | _ => None
  end.

Definition is_finite (x : float) : bool :=
  match Prim2SF x with
  | S754_zero _ | S754_finite _ _ _ => true
  | _ => false
  end.

(** [math.Round]: nearest integer, halves away from zero; infinities, NaN
    and values without a fractional part are returned unchanged, and the
    sign is kept (so that [Round(-0.3) = -0]). *)
Definition Round (x : float) : float :=
  match Prim2SF x with
  | S754_finite s m e =>
      if 0 <=? e then x
      else
        let n := Z.shiftl (Zpos m + 2 ^ (- e - 1)) e in
        if s then (- of_int n)%float else of_int n
  | _ => x
  end.

End Float64.

(** ** Notions on binary64 values used in the statements and proofs *)

Module FloatNotions.

(** A float that is not negative when it is a finite non-zero number. *)
Definition nonneg_if_finite (x : float) : Prop :=
  forall s m e, Prim2SF x = S754_finite s m e -> s = false.

(** Zero or a positive finite number. *)
Definition SF_finite_nonneg (x : spec_float) : Prop :=
  match x with
  | S754_zero _ | S754_finite false _ _ => True
  | _ => False
  end.

Definition finite_nonneg (x : float) : Prop := SF_finite_nonneg (Prim2SF x).

(** A number (not NaN) without the sign bit. *)
Definition SF_nonneg (x : spec_float) : Prop :=
  match x with
  | S754_nan => False
  | S754_zero s | S754_infinity s | S754_finite s _ _ => s = false
  end.

(** Some bit has been shifted out of a mantissa. *)
Definition inexact (R : shr_record) : bool := shr_r R || shr_s R.

(** The exact value of a finite float in units of [2 ^ c], for [c] not above
    its exponent. *)
Definition exact_units (c : Z) (x : float) : Z :=
  match Prim2SF x with
  | S754_finite s m e => cond_Zopp s (Zpos m) * 2 ^ (e - c)
  | _ => 0
  end.

End FloatNotions.

(** ** [time.Duration] *)

Module Duration.

(** A duration is an [int64] count of nanoseconds. *)
Definition t := Z.

Definition Nanosecond : t := 1.
Definition Second : t := 1000000000.
Definition Minute : t := 60 * Second.
Definition Hour : t := 60 * Minute.

(** [d.Seconds()]: whole seconds plus the fractional rest. *)
Definition Seconds (d : t) : float :=
  (Float64.of_int (Z.quot d Second)
   + Float64.of_int (Z.rem d Second) / 1e9)%float.

End Duration.

(** ** The duration parser *)

Inductive result (A E : Type) : Type :=
| Ok (a : A)
| Err (e : E).
Arguments Ok {A E} a.
Arguments Err {A E} e.

Module Parser.

Open Scope string_scope.

Definition is_digit (c : ascii) : bool :=
  let n := N_of_ascii c in ((48 <=? n) && (n <=? 57))%N.

Definition digit_value (c : ascii) : Z := Z.of_N (N_of_ascii c) - 48.

Definition mem_ascii (c : ascii) (cs : string) : bool :=
  existsb (Ascii.eqb c) (list_ascii_of_string cs).

(** The character class [[smhHdDwWM]] of the pattern. *)
Definition unit_class (c : ascii) : bool := mem_ascii c "smhHdDwWM".

(** The longest prefix of digits and what follows it. *)
Fixpoint span_digits (s : string) : string * string :=
  match s with
  | String c s' =>
      if is_digit c then
        let (ds, rest) := span_digits s' in (String c ds, rest)
      else (EmptyString, s)
  | EmptyString => (EmptyString, EmptyString)
  end.

(** [regexp.MustCompile(`^(\d+)([smhHdDwWM])$`).FindStringSubmatch]: the
    whole match and its two groups, or no element when the text does not
    match.  The pattern is anchored at both ends, so the digits are the
    longest digit prefix and exactly one character of the class follows. *)
Definition FindStringSubmatch (s : string) : list string :=
  match span_digits s with
  | (String d ds, String u EmptyString) =>
      if unit_class u then [s; String d ds; String u EmptyString] else []
  | _ => []
  end.

Inductive NumError := ErrSyntax | ErrRange.

Fixpoint decimal (acc : Z) (s : string) : option Z :=
  match s with
  | EmptyString => Some acc
  | String c s' =>
      if is_digit c then decimal (10 * acc + digit_value c) s' else None
  end.

(** [strconv.Atoi] on a 64-bit platform. *)
Definition Atoi (s : string) : result Z NumError :=
  let '(neg, body) :=
    match s with
    | String c s' =>
        if Ascii.eqb c "-" then (true, s')
        else if Ascii.eqb c "+" then (false, s')
        else (false, s)
    | EmptyString => (false, s)
    end in
  match body with
  | EmptyString => Err ErrSyntax
  | _ =>
      match decimal 0 body with
      | None => Err ErrSyntax
      | Some n =>
          let v := if neg then - n else n in
          if Int64.in_range v then Ok v else Err ErrRange
      end
  end.

(** The three failures of [parseDuration], one per [fmt.Errorf]. *)
Inductive ParseError :=
| InvalidFormat
| InvalidNumber (e : NumError)
| InvalidUnit.

Definition parseDuration (durationStr : string) : result Duration.t ParseError :=
  match FindStringSubmatch durationStr with
  | [_; digits; unit] =>
      match Atoi digits with
      | Err e => Err (InvalidNumber e)
      | Ok value =>
          if unit =? "s" then Ok (Int64.mul value Duration.Second)
          else if unit =? "m" then Ok (Int64.mul value Duration.Minute)
          else if unit =? "H" then Ok (Int64.mul value Duration.Hour)
          else if unit =? "D" then
            Ok (Int64.mul (Int64.mul value 24) Duration.Hour)
          else if unit =? "W" then
            Ok (Int64.mul (Int64.mul (Int64.mul value 7) 24) Duration.Hour)
          else if unit =? "M" then
            Ok (Int64.mul (Int64.mul (Int64.mul value 30) 24) Duration.Hour)
          else Err InvalidUnit
      end
  | _ => Err InvalidFormat
  end.

(** The grammar of the specification: one or more digits followed by
    exactly one unit symbol of [{s, m, H, D, W, M}]. *)
Definition unit_symbol (c : ascii) : bool := mem_ascii c "smHDWM".

Definition all_digits (s : string) : bool :=
  forallb is_digit (list_ascii_of_string s).

Definition matches_grammar (s : string) : Prop :=
  exists ds u,
    s = ds ++ String u EmptyString
    /\ ds <> EmptyString /\ all_digits ds = true /\ unit_symbol u = true.

(** The number a run of digits denotes. *)
Definition magnitude (ds : string) : Z :=
  fold_left (fun acc c => 10 * acc + digit_value c) (list_ascii_of_string ds) 0.

(** The texts [parseDuration] turns into a span: those of the grammar whose
    magnitude fits Go's 64-bit [int]. *)
Definition accepted (s : string) : Prop :=
  exists ds u,
    s = ds ++ String u EmptyString
    /\ ds <> EmptyString /\ all_digits ds = true /\ unit_symbol u = true
    /\ (magnitude ds <= Int64.max_int64)%Z.

(** Nanoseconds per unit symbol. *)
Definition unit_nanos (u : ascii) : Z :=
  if Ascii.eqb u "s" then Duration.Second
  else if Ascii.eqb u "m" then 60 * Duration.Second
  else if Ascii.eqb u "H" then 3600 * Duration.Second
  else if Ascii.eqb u "D" then 86400 * Duration.Second
  else if Ascii.eqb u "W" then 604800 * Duration.Second
  else if Ascii.eqb u "M" then 2592000 * Duration.Second
  else 0.

End Parser.

(** ** The scheduler: lines 373-439 of [main] *)

Module Scheduler.

(** The venue as the scheduler sees it: whether the [i]-th call of
    [PlaceOrder] (counted from 0) for [quoteQuantity] returns an order
    ([true]) or an error ([false]). *)
Definition Venue := Z -> float -> bool.

(** What a run does, in order. *)
Inductive Event :=
| Dispatch (i : Z) (quoteQuantity : float) (available : float) (ok : bool)
    (remaining : float)
  (** a call of [PlaceOrder] in iteration [i], with [amountToUse] before
      the call, its outcome and [amountToUse] after the iteration's
      bookkeeping *)
| Sleep (d : Duration.t)
  (** [time.Sleep(d)] *)
| Insufficient (amountToUse needed : float).
  (** the log line of the early stop, followed by [break] *)

(** How the function ends: the early [return] of an empty plan, or the
    final log line after a loop.  Both end the process normally. *)
Inductive Exit := NothingToDo | TradingCompleted.

Record Run := mkRun {
  events : list Event;
  exit : Exit;
  finalAmount : float
}.

Inductive Mode := QUANTIZED | LINEAR.

(** The shape of the schedule that [main] computes before it loops. *)
Inductive Plan :=
| Empty (mode : Mode)
| Slices (mode : Mode) (sliceCount : Z) (sliceSize : float)
    (interval : Duration.t).

Definition usdtPerSecond (duration : Duration.t) (amountToUse : float) : float :=
  let totalSeconds := Duration.Seconds duration in
  (Float64.Round ((amountToUse / totalSeconds) * 100) / 100)%float.

Definition buildPlan (duration : Duration.t) (amountToUse : float) : Plan :=
  let totalSeconds := Duration.Seconds duration in
  if (usdtPerSecond duration amountToUse <? 1)%float then
    let nIntervals := Float64.to_int amountToUse in
    if nIntervals =? 0 then Empty QUANTIZED
    else
      let intervalDuration :=
        Int64.mul
          (Float64.to_int
             (Duration.Seconds duration / Float64.of_int nIntervals)%float)
          Duration.Second in
      Slices QUANTIZED nIntervals 1%float intervalDuration
  else
    let numberOfTrades := Float64.to_int totalSeconds in
    if numberOfTrades =? 0 then Empty LINEAR
    else
      let usdtPerTrade := (amountToUse / Float64.of_int numberOfTrades)%float in
      Slices LINEAR numberOfTrades usdtPerTrade Duration.Second.

Section Loops.

Variable PlaceOrder : Venue.

(** [for i := 0; i < nIntervals; i++] of the first branch; [todo] is the
    number of iterations left, [nIntervals - i]. *)
Fixpoint quantized_loop (todo : nat) (i nIntervals : Z)
    (intervalDuration : Duration.t) (amountToUse : float)
    : list Event * float :=
  match todo with
  | O => ([], amountToUse)
  | S todo' =>
      if (amountToUse <? 1)%float then
        ([Insufficient amountToUse 1%float], amountToUse)
      else
        let ok := PlaceOrder i 1%float in
        let amountToUse' :=
          if ok then (amountToUse - 1)%float else amountToUse in
        let nap :=
          if i <? nIntervals - 1 then [Sleep intervalDuration] else [] in
        let '(rest, final) :=
          quantized_loop todo' (i + 1) nIntervals intervalDuration
            amountToUse' in
        (Dispatch i 1%float amountToUse ok amountToUse' :: nap ++ rest,
         final)
  end.

(** [for i := 0; i < numberOfTrades; i++] of the second branch. *)
Fixpoint linear_loop (todo : nat) (i : Z) (usdtPerTrade : float)
    (amountToUse : float) : list Event * float :=
  match todo with
  | O => ([], amountToUse)
  | S todo' =>
      if (amountToUse <? usdtPerTrade)%float then
        ([Insufficient amountToUse usdtPerTrade], amountToUse)
      else
        let ok := PlaceOrder i usdtPerTrade in
        let amountToUse' :=
          if ok then (amountToUse - usdtPerTrade)%float else amountToUse in
        let '(rest, final) :=
          linear_loop todo' (i + 1) usdtPerTrade amountToUse' in
        (Dispatch i usdtPerTrade amountToUse ok amountToUse'
           :: Sleep Duration.Second :: rest,
         final)
  end.

Definition execute (plan : Plan) (amountToUse : float) : Run :=
  match plan with
  | Empty _ => mkRun [] NothingToDo amountToUse
  | Slices QUANTIZED nIntervals _ intervalDuration =>
      let '(evs, final) :=
        quantized_loop (Z.to_nat nIntervals) 0 nIntervals intervalDuration
          amountToUse in
      mkRun evs TradingCompleted final
  | Slices LINEAR numberOfTrades usdtPerTrade _ =>
      let '(evs, final) :=
        linear_loop (Z.to_nat numberOfTrades) 0 usdtPerTrade amountToUse in
      mkRun evs TradingCompleted final
  end.

(** The scheduling part of [main], from the parsed duration and the
    amount to use. *)
Definition schedule (duration : Duration.t) (amountToUse : float) : Run :=
  execute (buildPlan duration amountToUse) amountToUse.

(** [main] from the run-time text on: a text that does not parse is
    fatal. *)
Definition main (totalRunTime : string) (amountToUse : float)
    : result Run Parser.ParseError :=
  match Parser.parseDuration totalRunTime with
  | Err e => Err e
  | Ok duration => Ok (schedule duration amountToUse)
  end.

End Loops.

(** *** Observations on a run *)

Definition is_dispatch (e : Event) : bool :=
  match e with Dispatch _ _ _ _ _ => true | _ => false end.

Definition is_success (e : Event) : bool :=
  match e with Dispatch _ _ _ ok _ => ok | _ => false end.

Definition attempts (evs : list Event) : list Event := filter is_dispatch evs.

Definition successes (evs : list Event) : list Event := filter is_success evs.

Definition dispatched_amount (e : Event) : float :=
  match e with Dispatch _ q _ _ _ => q | _ => 0%float end.

Definition sliceCount (p : Plan) : Z :=
  match p with Empty _ => 0 | Slices _ n _ _ => n end.

Definition sliceSize (p : Plan) : float :=
  match p with Empty _ => 0%float | Slices _ _ q _ => q end.

Definition planMode (p : Plan) : Mode :=
  match p with Empty m => m | Slices m _ _ _ => m end.

(** The running budget threads through the events: every attempt starts
    from the budget the previous one left, a success subtracts the
    dispatched amount and a failure subtracts nothing. *)
Fixpoint chained (a : float) (evs : list Event) (final : float) : Prop :=
  match evs with
  | [] => final = a
  | Dispatch _ q b ok b' :: rest =>
      b = a /\ b' = (if ok then (a - q)%float else a) /\ chained b' rest final
  | Sleep _ :: rest => chained a rest final
  | Insufficient b _ :: rest => b = a /\ chained a rest final
  end.

(** *** The common shape of the two loops

    Both loops are the same iteration up to the amount of an order and to
    what follows an attempt; the properties of the loops are proved once,
    on this shape. *)

Section Shape.

Variable PlaceOrder : Venue.

Fixpoint slice_loop (size : float) (nap : Z -> list Event) (todo : nat)
    (i : Z) (amountToUse : float) : list Event * float :=
  match todo with
  | O => ([], amountToUse)
  | S todo' =>
      if (amountToUse <? size)%float then
        ([Insufficient amountToUse size], amountToUse)
      else
        let ok := PlaceOrder i size in
        let amountToUse' :=
          if ok then (amountToUse - size)%float else amountToUse in
        let '(rest, final) := slice_loop size nap todo' (i + 1) amountToUse' in
        (Dispatch i size amountToUse ok amountToUse' :: nap i ++ rest, final)
  end.

End Shape.

(** What follows the attempt of iteration [i] in the first loop ... *)
Definition quantized_nap (nIntervals : Z) (intervalDuration : Duration.t)
    (i : Z) : list Event :=
  if i <? nIntervals - 1 then [Sleep intervalDuration] else [].

(** ... and in the second. *)
Definition linear_nap (i : Z) : list Event := [Sleep Duration.Second].

(** Venues used in the examples. *)
Definition always_fills : Venue := fun _ _ => true.
Definition fails_every_third : Venue := fun i _ => negb ((i + 1) mod 3 =? 0).

End Scheduler.

(** ** Observations on the sleeps of a run *)

Module Naps.
Import Scheduler.

Definition is_sleep (e : Event) : bool :=
  match e with Sleep _ => true | _ => false end.

Definition sleeps (evs : list Event) : list Event := filter is_sleep evs.

Definition interval (p : Plan) : Duration.t :=
  match p with Empty _ => 0 | Slices _ _ _ iv => iv end.

(** The time a run spends in [time.Sleep], which returns at once for a
    duration that is not positive. *)
Definition slept (evs : list Event) : Z :=
  fold_right (fun e acc => match e with Sleep d => Z.max 0 d + acc | _ => acc end)
    0 evs.

End Naps.

(** ** The functions of [strings] that [main] calls *)

Module Strings.

Local Open Scope string_scope.

(** [strings.HasSuffix]. *)
Definition HasSuffix (s suffix : string) : bool :=
  (String.length suffix <=? String.length s)%nat
  && (substring (String.length s - String.length suffix)
        (String.length suffix) s =? suffix).

(** [strings.TrimSuffix]. *)
Definition TrimSuffix (s suffix : string) : string :=
  if HasSuffix s suffix
  then substring 0 (String.length s - String.length suffix) s
  else s.

Definition is_ascii (c : ascii) : bool := (N_of_ascii c <? 128)%N.

Definition is_lower (c : ascii) : bool :=
  let n := N_of_ascii c in ((97 <=? n) && (n <=? 122))%N.

Definition upper (c : ascii) : ascii :=
  if is_lower c then ascii_of_N (N_of_ascii c - 32) else c.

Fixpoint map_bytes (f : ascii -> ascii) (s : string) : string :=
  match s with
  | EmptyString => EmptyString
  | String c s' => String (f c) (map_bytes f s')
  end.

Definition all_bytes (p : ascii -> bool) (s : string) : bool :=
  forallb p (list_ascii_of_string s).

(** [strings.ToUpper]: a text of ASCII bytes is mapped byte by byte; any
    other text goes through the Unicode case mapping, which is a parameter
    of the model. *)
Definition ToUpper (unicodeUpper : string -> string) (s : string) : string :=
  if all_bytes is_ascii s then map_bytes upper s else unicodeUpper s.

End Strings.

(** ** Balances and prices: [GetUSDTBalance], [GetAssetBalance],
    [GetCurrentPrice] *)

Module Client.

Local Open Scope string_scope.

(** An [error] is represented by its text. *)
Definition error := string.

Record Balance := mkBalance {
  Asset : string;
  Free : string;
  Locked : string
}.

Record AccountInfo := mkAccountInfo { Balances : list Balance }.

Record TickerPrice := mkTickerPrice { Symbol : string; Price : string }.

Section Queries.

(** [strconv.ParseFloat(s, 64)]: the value, or the text of the error. *)
Variable ParseFloat : string -> result float error.

(** The [for ... range accountInfo.Balances] of [GetUSDTBalance]. *)
Fixpoint usdt_free (balances : list Balance) : result float error :=
  match balances with
  | [] => Err "USDT balance not found"
  | balance :: rest =>
      if Asset balance =? "USDT" then
        match ParseFloat (Free balance) with
        | Err err => Err ("error parsing USDT balance: " ++ err)
        | Ok free => Ok free
        end
      else usdt_free rest
  end.

(** [GetUSDTBalance], from what [GetAccountInfo] returned. *)
Definition GetUSDTBalance (GetAccountInfo : result AccountInfo error)
    : result float error :=
  match GetAccountInfo with
  | Err err => Err err
  | Ok accountInfo => usdt_free (Balances accountInfo)
  end.

(** The [for ... range accountInfo.Balances] of [GetAssetBalance]. *)
Fixpoint asset_free (asset : string) (balances : list Balance)
    : result float error :=
  match balances with
  | [] => Err (asset ++ " balance not found")
  | balance :: rest =>
      if Asset balance =? asset then
        match ParseFloat (Free balance) with
        | Err err => Err ("error parsing " ++ asset ++ " balance: " ++ err)
        | Ok free => Ok free
        end
      else asset_free asset rest
  end.

(** [GetAssetBalance], from what [GetAccountInfo] returned. *)
Definition GetAssetBalance (GetAccountInfo : result AccountInfo error)
    (asset : string) : result float error :=
  match GetAccountInfo with
  | Err err => Err err
  | Ok accountInfo => asset_free asset (Balances accountInfo)
  end.

(** [GetCurrentPrice], from the decoded answer of the ticker request (or
    the error of the request). *)
Definition GetCurrentPrice (response : result TickerPrice error)
    : result float error :=
  match response with
  | Err err => Err err
  | Ok tickerPrice =>
      match ParseFloat (Price tickerPrice) with
      | Err err => Err ("error parsing price: " ++ err)
      | Ok price => Ok price
      end
  end.

End Queries.

End Client.

(** ** [main] from the flags to the schedule: lines 301-371 *)

Module Buyer.

Import Client Strings Scheduler.
Local Open Scope string_scope.

Record Flags := mkFlags {
  apiKey : string;
  secretKey : string;
  symbol : string;
  totalRunTime : string;
  totalAmount : float;
  side : string
}.

(** What the exchange answers: the decoded answer of the ticker request for
    a symbol, that of the account request, and, for a symbol and a side,
    the outcome of each order. *)
Record Exchange := mkExchange {
  ticker : string -> result TickerPrice error;
  account : result AccountInfo error;
  orders : string -> string -> Venue
}.

(** The requests [main] makes before it trades. *)
Inductive Query :=
| TickerQuery (symbol : string)
| AccountQuery.

(** The calls of [log.Fatal] and [log.Fatalf], with what they print. *)
Inductive Fatal :=
| KeysRequired
| RunTimeError (e : Parser.ParseError)
| InvalidSide (side : string)
| UnsupportedQuote (quoteAsset symbol : string)
| PriceError (symbol : string) (err : error)
| BalanceError (asset : string) (err : error)
| AmountAboveAvailable (totalAmount : float) (quoteAsset : string)
    (availableQuote : float).

(** How the process ends: [log.Fatal] exits with status 1 after the given
    requests; otherwise [main] returns after the run. *)
Inductive Outcome :=
| Exit1 (queries : list Query) (why : Fatal)
| Returned (queries : list Query) (symbol sideUpper : string)
    (availableQuote amountToUse : float) (run : Run).

Section Main.

Variable unicodeUpper : string -> string.
Variable ParseFloat : string -> result float error.

Definition main (flags : Flags) (exchange : Exchange) : Outcome :=
  if (apiKey flags =? "") || (secretKey flags =? "") then Exit1 [] KeysRequired
  else
    match Parser.parseDuration (totalRunTime flags) with
    | Err err => Exit1 [] (RunTimeError err)
    | Ok duration =>
        let sideUpper := ToUpper unicodeUpper (side flags) in
        if negb (sideUpper =? "BUY") && negb (sideUpper =? "SELL") then
          Exit1 [] (InvalidSide (side flags))
        else
          let quoteAsset := "USDT" in
          if negb (HasSuffix (symbol flags) quoteAsset) then
            Exit1 [] (UnsupportedQuote quoteAsset (symbol flags))
          else
            match GetCurrentPrice ParseFloat (ticker exchange (symbol flags)) with
            | Err err =>
                Exit1 [TickerQuery (symbol flags)]
                  (PriceError (symbol flags) err)
            | Ok currentPrice =>
                let queries := [TickerQuery (symbol flags); AccountQuery] in
                let available :=
                  if sideUpper =? "BUY" then
                    match GetUSDTBalance ParseFloat (account exchange) with
                    | Err err => Err (BalanceError quoteAsset err)
                    | Ok usdtBalance => Ok usdtBalance
                    end
                  else
                    let baseAsset := TrimSuffix (symbol flags) quoteAsset in
                    match GetAssetBalance ParseFloat (account exchange)
                            baseAsset with
                    | Err err => Err (BalanceError baseAsset err)
                    | Ok baseBalance => Ok (baseBalance * currentPrice)%float
                    end in
                match available with
                | Err why => Exit1 queries why
                | Ok availableQuote =>
                    if (0 <? totalAmount flags)%float
                       && (availableQuote <? totalAmount flags)%float
                    then
                      Exit1 queries
                        (AmountAboveAvailable (totalAmount flags) quoteAsset
                           availableQuote)
                    else
                      let amountToUse :=
                        if (0 <? totalAmount flags)%float
                        then totalAmount flags else availableQuote in
                      Returned queries (symbol flags) sideUpper
                        availableQuote amountToUse
                        (schedule (orders exchange (symbol flags) sideUpper)
                           duration amountToUse)
                end
            end
    end.

(** The flags that [main] turns down before it contacts the exchange. *)
Definition turned_down (flags : Flags) : Prop :=
  apiKey flags = "" \/ secretKey flags = ""
  \/ (exists e, Parser.parseDuration (totalRunTime flags) = Err e)
  \/ (ToUpper unicodeUpper (side flags) <> "BUY"
      /\ ToUpper unicodeUpper (side flags) <> "SELL")
  \/ HasSuffix (symbol flags) "USDT" = false.

(** What [main] does once the flags have passed. *)
Definition after_flags (flags : Flags) (exchange : Exchange)
    (duration : Duration.t) : Outcome :=
  let sideUpper := ToUpper unicodeUpper (side flags) in
  match GetCurrentPrice ParseFloat (ticker exchange (symbol flags)) with
  | Err err => Exit1 [TickerQuery (symbol flags)] (PriceError (symbol flags) err)
  | Ok currentPrice =>
      let queries := [TickerQuery (symbol flags); AccountQuery] in
      let available :=
        if sideUpper =? "BUY" then
          match GetUSDTBalance ParseFloat (account exchange) with
          | Err err => Err (BalanceError "USDT" err)
          | Ok usdtBalance => Ok usdtBalance
          end
        else
          match GetAssetBalance ParseFloat (account exchange)
                  (TrimSuffix (symbol flags) "USDT") with
          | Err err => Err (BalanceError (TrimSuffix (symbol flags) "USDT") err)
          | Ok baseBalance => Ok (baseBalance * currentPrice)%float
          end in
      match available with
      | Err why => Exit1 queries why
      | Ok availableQuote =>
          if (0 <? totalAmount flags)%float
             && (availableQuote <? totalAmount flags)%float
          then
            Exit1 queries
              (AmountAboveAvailable (totalAmount flags) "USDT" availableQuote)
          else
            let amountToUse :=
              if (0 <? totalAmount flags)%float
              then totalAmount flags else availableQuote in
            Returned queries (symbol flags) sideUpper availableQuote amountToUse
              (Scheduler.schedule (orders exchange (symbol flags) sideUpper)
                 duration amountToUse)
      end
  end.

End Main.

(** An exchange and flags used in the examples; the numbers are those of
    [strconv.ParseFloat] on the three texts that the exchange sends. *)
Definition example_ParseFloat (s : string) : result float error :=
  if s =? "50000" then Ok 50000%float
  else if s =? "250" then Ok 250%float
  else if s =? "0.5" then Ok 0.5%float
  else Err "invalid syntax".

Definition example_exchange : Exchange :=
  mkExchange
    (fun symbol => Ok (mkTickerPrice symbol "50000"))
    (Ok (mkAccountInfo
           [mkBalance "BTC" "0.5" "0"; mkBalance "USDT" "250" "0"]))
    (fun _ _ => always_fills).

Definition example_flags (totalAmount : float) (side : string) : Flags :=
  mkFlags "key" "secret" "BTCUSDT" "50s" totalAmount side.

End Buyer.

(** ** Seconds per unit of the run-time text *)

Module Units.

(** Seconds per unit symbol. *)
Definition unit_seconds (u : ascii) : Z :=
  if Ascii.eqb u "s" then 1
  else if Ascii.eqb u "m" then 60
  else if Ascii.eqb u "H" then 3600
  else if Ascii.eqb u "D" then 86400
  else if Ascii.eqb u "W" then 604800
  else if Ascii.eqb u "M" then 2592000
  else 0.

End Units.

(** ** Request parameters: [net/url], [encoding/hex], [strconv], [fmt] *)

Module Url.

Local Open Scope string_scope.

Definition is_alnum (c : ascii) : bool :=
  let n := N_of_ascii c in
  (((48 <=? n) && (n <=? 57)) || ((65 <=? n) && (n <=? 90))
   || ((97 <=? n) && (n <=? 122)))%N.

(** [shouldEscape(c, encodeQueryComponent)]: everything but the unreserved
    characters. *)
Definition shouldEscape (c : ascii) : bool :=
  negb (is_alnum c || Parser.mem_ascii c "-_.~").

Definition nibble (digits : string) (n : N) : ascii :=
  match String.get (N.to_nat n) digits with
  | Some c => c
  | None => "0"%char
  end.

Definition upperhex : string := "0123456789ABCDEF".

Definition escape_byte (c : ascii) : string :=
  if Ascii.eqb c " " then "+"
  else if shouldEscape c then
    String "%"
      (String (nibble upperhex (N_of_ascii c / 16))
         (String (nibble upperhex (N_of_ascii c mod 16)) EmptyString))
  else String c EmptyString.

(** [url.QueryEscape]. *)
Fixpoint QueryEscape (s : string) : string :=
  match s with
  | EmptyString => EmptyString
  | String c s' => escape_byte c ++ QueryEscape s'
  end.

(** [url.Values], a map from keys to lists of values, as the list of its
    bindings; the keys of the list are pairwise distinct. *)
Definition Values := list (string * list string).

(** [v.Set(key, value)]: the key is bound to the single value. *)
Fixpoint Values_Set (v : Values) (key value : string) : Values :=
  match v with
  | [] => [(key, [value])]
  | (k, vs) :: rest =>
      if k =? key then (key, [value]) :: rest
      else (k, vs) :: Values_Set rest key value
  end.

Fixpoint insert (b : string * list string) (v : Values) : Values :=
  match v with
  | [] => [b]
  | b' :: rest =>
      if String.leb (fst b) (fst b') then b :: v else b' :: insert b rest
  end.

(** The bindings in the order of [slices.Sort(keys)]. *)
Definition sorted (v : Values) : Values := fold_right insert [] v.

Definition pairs (b : string * list string) : list string :=
  map (fun value => QueryEscape (fst b) ++ "=" ++ QueryEscape value) (snd b).

(** [v.Encode()]: [key=value] pairs, escaped, sorted by key, joined by
    [&]. *)
Definition Encode (v : Values) : string :=
  String.concat "&" (flat_map pairs (sorted v)).

End Url.

Module Hex.

Definition hextable : string := "0123456789abcdef".

(** [hex.EncodeToString]: two lower-case digits per byte. *)
Fixpoint EncodeToString (src : string) : string :=
  match src with
  | EmptyString => EmptyString
  | String c rest =>
      String (Url.nibble hextable (N_of_ascii c / 16))
        (String (Url.nibble hextable (N_of_ascii c mod 16))
           (EncodeToString rest))
  end.

End Hex.

Module Strconv.

(** [strconv.FormatInt(i, 10)]. *)
Definition FormatInt (i : Z) : string := NilZero.string_of_int (Z.to_int i).

End Strconv.

Module Fmt.

(** The integer nearest to [num / den], halves to the even one. *)
Definition round_half_even (num den : Z) : Z :=
  let q := num / den in
  let r := num mod den in
  if (den <? 2 * r) || ((den =? 2 * r) && Z.odd q) then q + 1 else q.

(** The last [k] decimal digits of [n]. *)
Fixpoint fixed_digits (k : nat) (n : Z) : string :=
  match k with
  | O => EmptyString
  | S k' =>
      (fixed_digits k' (n / 10)
       ++ String (ascii_of_N (48 + Z.to_N (n mod 10))) EmptyString)%string
  end.

Local Open Scope string_scope.

(** [fmt.Sprintf("%.8f", x)]: the exact value rounded to eight decimals,
    halves to even; the sign is kept when the digits are all zero. *)
Definition Sprintf_8f (x : float) : string :=
  match Prim2SF x with
  | S754_nan => "NaN"
  | S754_infinity s => if s then "-Inf" else "+Inf"
  | S754_zero s => (if s then "-" else "") ++ "0.00000000"
  | S754_finite s m e =>
      let n :=
        (if 0 <=? e then Zpos m * 2 ^ e * 10 ^ 8
         else round_half_even (Zpos m * 10 ^ 8) (2 ^ (- e)))%Z in
      (if s then "-" else "")
      ++ Strconv.FormatInt (n / 10 ^ 8)%Z ++ "."
      ++ fixed_digits 8 (n mod 10 ^ 8)%Z
  end.

End Fmt.

(** ** The signed requests of [GetAccountInfo] and [PlaceOrder] *)

Module Requests.

Import Url.
Local Open Scope string_scope.

Section Signing.

(** HMAC-SHA256 of a message under a key, as bytes. *)
Variable hmac_sha256 : string -> string -> string.
Variable unicodeUpper : string -> string.

(** [generateSignature]. *)
Definition generateSignature (secretKey query : string) : string :=
  Hex.EncodeToString (hmac_sha256 secretKey query).

(** [strconv.FormatInt(time.Now().UnixNano()/int64(time.Millisecond), 10)]
    for the clock reading [now], in nanoseconds. *)
Definition timestamp (now : Z) : string :=
  Strconv.FormatInt (Z.quot now 1000000).

(** The parameters of [GetAccountInfo] before the signature ... *)
Definition account_params (now : Z) : Values :=
  Values_Set (Values_Set [] "timestamp" (timestamp now)) "recvWindow" "5000".

(** ... and [req.URL.RawQuery] of its request. *)
Definition account_query (secretKey : string) (now : Z) : string :=
  let params := account_params now in
  let signature := generateSignature secretKey (Encode params) in
  Encode (Values_Set params "signature" signature).

(** The parameters of [PlaceOrder] before the signature ... *)
Definition order_params (symbol side : string) (quoteQuantity : float)
    (now : Z) : Values :=
  Values_Set (Values_Set (Values_Set (Values_Set (Values_Set (Values_Set [] "symbol" symbol)
                        "side" (Strings.ToUpper unicodeUpper side))
                   "type" "MARKET")
              "quoteOrderQty" (Fmt.Sprintf_8f quoteQuantity))
         "timestamp" (timestamp now))
    "recvWindow" "5000".

(** ... and [req.URL.RawQuery] of its request. *)
Definition order_query (secretKey symbol side : string)
    (quoteQuantity : float) (now : Z) : string :=
  let params := order_params symbol side quoteQuantity now in
  let signature := generateSignature secretKey (Encode params) in
  Encode (Values_Set params "signature" signature).

End Signing.

End Requests.

(** ** Notions on request texts used in the statements *)

Module RequestNotions.

Import Url.
Local Open Scope string_scope.

(** The characters [QueryEscape] leaves as they are. *)
Definition unreserved (c : ascii) : bool :=
  negb (shouldEscape c) && negb (Ascii.eqb c " ").

(** The characters of an escaped text. *)
Definition escaped_char (c : ascii) : bool :=
  unreserved c || Ascii.eqb c "%" || Ascii.eqb c "+".

(** The number of occurrences of a character. *)
Fixpoint count (c : ascii) (s : string) : nat :=
  match s with
  | EmptyString => 0
  | String c' s' => (if Ascii.eqb c' c then 1 else 0) + count c s'
  end.

(** The value of a hexadecimal digit. *)
Definition hexval (c : ascii) : N :=
  let n := N_of_ascii c in
  (if n <? 58 then n - 48 else n - 87)%N.

(** The sign bit of a number. *)
Definition sign_bit (x : float) : bool :=
  match Prim2SF x with
  | S754_zero s | S754_infinity s | S754_finite s _ _ => s
  | S754_nan => false
  end.

End RequestNotions.

(** ** Lower bounds on binary64 values used in the statements and proofs *)

Module FloatBounds.

Local Open Scope Z_scope.

(** The exact value of [x] is at least the integer [J]. *)
Definition value_ge (J : Z) (x : spec_float) : Prop :=
  match x with
  | S754_finite false m e =>
      J * 2 ^ (- Z.min e 0) <= Zpos m * 2 ^ (e - Z.min e 0)
  | _ => False
  end.

End FloatBounds.

(** * Properties *)

(** ** Facts on binary64 values, from the specification of the primitives *)

Module FloatFacts.

Import FloatNotions Scheduler.

(** *** Comparisons, signs and the integer part *)

Lemma SFcompare_antisym x y :
  SFcompare y x = option_map CompOpp (SFcompare x y).
Proof.
  destruct x as [sx|sx| |sx mx ex], y as [sy|sy| |sy my ey]; simpl;
    try destruct sx; try destruct sy; try reflexivity;
    rewrite (Z.compare_antisym ex ey); destruct (ex ?= ey); simpl;
    try reflexivity;
    change (Pos.compare_cont Eq my mx)
      with (Pos.compare_cont (CompOpp Eq) my mx);
    rewrite <- (Pos.compare_cont_antisym mx my Eq);
    destruct (Pos.compare_cont Eq mx my); reflexivity.
Qed.

Lemma leb_not_ltb x y : (x <=? y)%float = true -> (y <? x)%float = false.
Proof.
  rewrite FloatAxioms.leb_spec, FloatAxioms.ltb_spec. unfold SFleb, SFltb.
  rewrite (SFcompare_antisym (Prim2SF x) (Prim2SF y)).
  destruct (SFcompare (Prim2SF x) (Prim2SF y)) as [[| |]|]; simpl;
    congruence.
Qed.

Lemma Prim2SF_zero : Prim2SF 0 = S754_zero false.
Proof. reflexivity. Qed.

Lemma Prim2SF_one : Prim2SF 1 = S754_finite false 4503599627370496 (-52).
Proof. reflexivity. Qed.

Lemma Prim2SF_hundred : Prim2SF 100 = S754_finite false 7036874417766400 (-46).
Proof. vm_compute. reflexivity. Qed.

Lemma nonneg_sign x s m e :
  (0 <=? x)%float = true -> Prim2SF x = S754_finite s m e -> s = false.
Proof.
  rewrite FloatAxioms.leb_spec, Prim2SF_zero. intros H E. rewrite E in H.
  destruct s; [discriminate H | reflexivity].
Qed.

Lemma floor_to_int x :
  (0 <=? x)%float = true -> Float64.int_convertible x = true ->
  Float64.floor x = Some (Float64.to_int x).
Proof.
  intros H0 Hc. unfold Float64.floor, Float64.to_int.
  unfold Float64.int_convertible in Hc.
  destruct (Prim2SF x) as [s|s| |s m e] eqn:E; simpl in *; try discriminate.
  - reflexivity.
  - rewrite (nonneg_sign x s m e H0 E) in *. simpl in *. now rewrite Hc.
Qed.

Lemma ltb_leb x y : (x <? y)%float = true -> (x <=? y)%float = true.
Proof.
  rewrite FloatAxioms.leb_spec, FloatAxioms.ltb_spec. unfold SFleb, SFltb.
  destruct (SFcompare (Prim2SF x) (Prim2SF y)) as [[| |]|]; congruence.
Qed.

Lemma binary_round_aux_sign sx mx ex lx s m e :
  binary_round_aux prec emax sx mx ex lx = S754_finite s m e -> s = sx.
Proof.
  unfold binary_round_aux.
  destruct (shr_fexp prec emax mx ex lx) as [mrs' e'].
  destruct (shr_fexp prec emax _ e' loc_Exact) as [mrs'' e''].
  destruct (shr_m mrs''); try discriminate.
  destruct (e'' <=? emax - prec); congruence.
Qed.

Lemma binary_round_sign sx mx ex s m e :
  binary_round prec emax sx mx ex = S754_finite s m e -> s = sx.
Proof.
  unfold binary_round.
  destruct (shl_align mx ex _) as [mz ez]. apply binary_round_aux_sign.
Qed.

(** [float64(n)] of a positive integer is not negative. *)
Lemma of_int_pos_sign n s m e :
  0 < n <= Int64.max_int64 ->
  Prim2SF (Float64.of_int n) = S754_finite s m e -> s = false.
Proof.
  intros Hn. unfold Float64.of_int.
  replace (n <? 0) with false by (symmetry; apply Z.ltb_ge; lia).
  rewrite of_uint63_spec, Uint63.of_Z_spec.
  rewrite Z.mod_small by (unfold Int64.max_int64 in Hn; change wB with (2 ^ 63); lia).
  destruct n as [|p|p]; try lia. simpl. apply binary_round_sign.
Qed.

Lemma nonneg_if_finite_leb x : (0 <=? x)%float = true -> nonneg_if_finite x.
Proof. intros H s m e. now apply nonneg_sign. Qed.

Lemma div_nonneg_if_finite x y :
  nonneg_if_finite x -> nonneg_if_finite y -> nonneg_if_finite (x / y).
Proof.
  intros Hx Hy s m e. rewrite FloatAxioms.div_spec. unfold SF64div, SFdiv.
  destruct (Prim2SF x) as [sx|sx| |sx mx ex] eqn:Ex,
           (Prim2SF y) as [sy|sy| |sy my ey] eqn:Ey; try discriminate.
  rewrite (Hx _ _ _ Ex), (Hy _ _ _ Ey).
  destruct (SFdiv_core_binary prec emax (Z.pos mx) ex (Z.pos my) ey)
    as [[mz ez] lz].
  apply binary_round_aux_sign.
Qed.

Lemma floor_to_int_gen x :
  nonneg_if_finite x -> Float64.int_convertible x = true ->
  Float64.floor x = Some (Float64.to_int x).
Proof.
  intros H0 Hc. unfold Float64.floor, Float64.to_int.
  unfold Float64.int_convertible in Hc.
  destruct (Prim2SF x) as [s|s| |s m e] eqn:E; simpl in *; try discriminate.
  - reflexivity.
  - rewrite (H0 s m e E) in *. simpl in *. now rewrite Hc.
Qed.

Lemma to_int_range x : Int64.in_range (Float64.to_int x) = true.
Proof.
  unfold Float64.to_int.
  destruct (Float64.trunc_SF (Prim2SF x)) as [z|]; [|reflexivity].
  destruct (Int64.in_range z) eqn:E; [exact E | reflexivity].
Qed.

Lemma floor_nonneg x n :
  nonneg_if_finite x -> Float64.floor x = Some n -> 0 <= n.
Proof.
  unfold Float64.floor. intros H.
  destruct (Prim2SF x) as [s|s| |s m e] eqn:E; try discriminate.
  - intros [= <-]. lia.
  - rewrite (H s m e E). simpl. intros [= <-].
    apply Z.shiftl_nonneg. lia.
Qed.

(** *** Division by zero seconds *)

Lemma Seconds_zero : Duration.Seconds 0 = 0%float.
Proof. vm_compute. reflexivity. Qed.

Lemma Round_not_finite x :
  match Prim2SF x with S754_finite _ _ _ => False | _ => True end ->
  Float64.Round x = x.
Proof. unfold Float64.Round. destruct (Prim2SF x); tauto. Qed.

Lemma div_zero_times_hundred b :
  Prim2SF (b / 0 * 100)
  = match Prim2SF b with
    | S754_zero _ | S754_nan => S754_nan
    | S754_infinity s | S754_finite s _ _ => S754_infinity s
    end.
Proof.
  rewrite FloatAxioms.mul_spec, FloatAxioms.div_spec, Prim2SF_hundred,
    Prim2SF_zero.
  destruct (Prim2SF b) as [s|s| |s m e]; unfold SF64mul, SF64div;
    cbn [SFdiv SFmul]; rewrite ?xorb_false_r; reflexivity.
Qed.

(** With a zero divisor the rate is an infinity or NaN; it is below 1 only
    when the budget itself is negative. *)
Lemma rate_by_zero_lt_one b :
  ((Float64.Round (b / 0 * 100) / 100) <? 1)%float = true ->
  (b <? 1)%float = true.
Proof.
  rewrite !FloatAxioms.ltb_spec, FloatAxioms.div_spec.
  pose proof (div_zero_times_hundred b) as H.
  rewrite Round_not_finite by (rewrite H; destruct (Prim2SF b); exact I).
  rewrite H, Prim2SF_hundred, Prim2SF_one.
  destruct (Prim2SF b) as [s|s| |s m e]; unfold SF64div, SFltb;
    cbn [SFdiv SFcompare]; try discriminate; rewrite ?xorb_false_r;
    destruct s; congruence.
Qed.

Lemma to_int_zero : Float64.to_int 0 = 0.
Proof. vm_compute. reflexivity. Qed.

(** *** Number of binary digits *)
Lemma digits2_pos_log2 p : Zpos (digits2_pos p) = Z.log2 (Zpos p) + 1.
Proof.
  assert (H : forall q, digits2_pos q = Pos.size q).
  { induction q; simpl; congruence. }
  rewrite H. destruct p; simpl; try reflexivity;
    now rewrite Pos.add_1_r.
Qed.

Lemma Zdigits2_log2 m : 0 < m -> Zdigits2 m = Z.log2 m + 1.
Proof. destruct m; try lia. intros _. apply digits2_pos_log2. Qed.

Lemma Zdigits2_nonneg m : 0 <= Zdigits2 m.
Proof. destruct m; simpl; lia. Qed.

Lemma Zdigits2_le a b : 0 < a -> a <= b -> Zdigits2 a <= Zdigits2 b.
Proof.
  intros Ha Hab. rewrite !Zdigits2_log2 by lia.
  pose proof (Z.log2_le_mono a b Hab). lia.
Qed.

Lemma Zdigits2_mul_pow2 a k :
  0 < a -> 0 <= k -> Zdigits2 (a * 2 ^ k) = Zdigits2 a + k.
Proof.
  intros Ha Hk. rewrite !Zdigits2_log2 by nia.
  rewrite Z.log2_mul_pow2 by lia. lia.
Qed.

Lemma Zdigits2_lt_pow2 a : 0 < a -> a < 2 ^ Zdigits2 a.
Proof.
  intros Ha. rewrite Zdigits2_log2 by lia.
  replace (Z.log2 a + 1) with (Z.succ (Z.log2 a)) by lia.
  apply Z.log2_spec. lia.
Qed.

Lemma Zdigits2_ge_pow2 a : 0 < a -> 2 ^ (Zdigits2 a - 1) <= a.
Proof.
  intros Ha. rewrite Zdigits2_log2 by lia.
  replace (Z.log2 a + 1 - 1) with (Z.log2 a) by lia.
  apply Z.log2_spec. lia.
Qed.

(** *** Shifting a mantissa to the right *)
Lemma iter_pos_nat {A} (f : A -> A) p : forall x,
  iter_pos f p x = Nat.iter (Pos.to_nat p) f x.
Proof.
  induction p as [p IH|p IH|]; intros x; cbn [iter_pos].
  - rewrite !IH, Pos2Nat.inj_xI.
    replace (S (2 * Pos.to_nat p)) with (Pos.to_nat p + Pos.to_nat p + 1)%nat by lia.
    rewrite !Nat.iter_add. reflexivity.
  - rewrite !IH, Pos2Nat.inj_xO.
    replace (2 * Pos.to_nat p)%nat with (Pos.to_nat p + Pos.to_nat p)%nat by lia.
    rewrite Nat.iter_add. reflexivity.
  - reflexivity.
Qed.

Lemma shr_1_spec R :
  0 <= shr_m R ->
  shr_m (shr_1 R) = shr_m R / 2
  /\ inexact (shr_1 R) = Z.odd (shr_m R) || inexact R.
Proof.
  destruct R as [m r s]. unfold inexact. simpl. intros Hm.
  destruct m as [|p|p]; try lia.
  - split; reflexivity.
  - destruct p; simpl; split; try reflexivity.
    + rewrite Pos2Z.inj_xI. apply Z.div_unique with 1; lia.
    + rewrite Pos2Z.inj_xO. apply Z.div_unique with 0; lia.
Qed.

Lemma odd_or_mod m k :
  0 <= m -> 0 <= k ->
  (Z.odd (m / 2 ^ k) = true \/ m mod 2 ^ k <> 0) <-> m mod 2 ^ (k + 1) <> 0.
Proof.
  intros Hm Hk.
  assert (Hp : 0 < 2 ^ k) by (apply Z.pow_pos_nonneg; lia).
  rewrite Z.pow_add_r, Z.rem_mul_r by lia.
  pose proof (Z.mod_pos_bound m (2 ^ k) Hp) as Hr.
  pose proof (Z.mod_pos_bound (m / 2 ^ k) 2 ltac:(lia)) as Hq.
  rewrite Zodd_mod. change (2 ^ 1) with 2.
  destruct (Z.eqb_spec ((m / 2 ^ k) mod 2) 1) as [E|E].
  - rewrite E. split; [nia | auto].
  - assert (E0 : (m / 2 ^ k) mod 2 = 0) by lia. rewrite E0.
    split; [intros [H|H]; [discriminate | lia] | intros H; right; lia].
Qed.

Lemma shr_iter_spec k : forall R,
  0 <= shr_m R ->
  let R' := Nat.iter k shr_1 R in
  shr_m R' = shr_m R / 2 ^ Z.of_nat k
  /\ (inexact R' = true <-> inexact R = true \/ shr_m R mod 2 ^ Z.of_nat k <> 0).
Proof.
  induction k as [|k IH]; intros R Hm; cbn zeta.
  - simpl. rewrite Z.div_1_r, Z.mod_1_r. tauto.
  - rewrite Nat.iter_succ. destruct (IH R Hm) as [Hm' Hi'].
    assert (Hp : 0 < 2 ^ Z.of_nat k) by (apply Z.pow_pos_nonneg; lia).
    assert (H0 : 0 <= shr_m (Nat.iter k shr_1 R)).
    { rewrite Hm'. apply Z.div_pos; lia. }
    destruct (shr_1_spec _ H0) as [H1 H2].
    rewrite Nat2Z.inj_succ, <- Z.add_1_r.
    split.
    + rewrite H1, Hm', Z.pow_add_r, Z.div_div by lia. reflexivity.
    + rewrite H2, orb_true_iff, Hi', Hm'.
      rewrite <- (odd_or_mod (shr_m R) (Z.of_nat k)) by lia. tauto.
Qed.

(** *** Rounding to nearest, ties to even *)

Abbreviation fexp := (SpecFloat.fexp prec emax).

Lemma fexp_eq e : fexp e = Z.max (e - 53) (-1074).
Proof. reflexivity. Qed.

Lemma fexp_le a b : a <= b -> fexp a <= fexp b.
Proof. rewrite !fexp_eq. lia. Qed.

Lemma loc_exact_inexact R :
  loc_of_shr_record R = loc_Exact <-> inexact R = false.
Proof.
  destruct R as [m [|] [|]]; unfold inexact; simpl; split; congruence.
Qed.

Lemma record_of_loc m l :
  shr_m (shr_record_of_loc m l) = m
  /\ (inexact (shr_record_of_loc m l) = true <-> l <> loc_Exact).
Proof.
  destruct l as [|[| |]]; unfold inexact; simpl; split; try reflexivity;
    split; congruence.
Qed.

Lemma shr_fexp_spec m e l :
  0 <= m ->
  let n := Z.max 0 (fexp (Zdigits2 m + e) - e) in
  exists R,
    shr_fexp prec emax m e l = (R, e + n)
    /\ shr_m R = m / 2 ^ n
    /\ (inexact R = true <-> l <> loc_Exact \/ m mod 2 ^ n <> 0).
Proof.
  intros Hm n. subst n. unfold shr_fexp, shr.
  destruct (record_of_loc m l) as [H1 H2].
  destruct (fexp (Zdigits2 m + e) - e) as [|p|p] eqn:E.
  - exists (shr_record_of_loc m l). rewrite Z.add_0_r.
    change (2 ^ Z.max 0 0) with 1. rewrite Z.div_1_r, Z.mod_1_r.
    repeat split; auto; tauto.
  - rewrite iter_pos_nat. eexists. split; [reflexivity|].
    replace (Z.max 0 (Z.pos p)) with (Z.of_nat (Pos.to_nat p))
      by (rewrite positive_nat_Z; lia).
    destruct (shr_iter_spec (Pos.to_nat p) (shr_record_of_loc m l))
      as [H3 H4]; [rewrite H1; exact Hm|].
    rewrite H1 in H3, H4. rewrite H2 in H4. auto.
  - exists (shr_record_of_loc m l).
    replace (Z.max 0 (Z.neg p)) with 0 by lia. rewrite Z.add_0_r.
    change (2 ^ 0) with 1. rewrite Z.div_1_r, Z.mod_1_r.
    repeat split; auto; tauto.
Qed.

Lemma round_nearest_even_spec m R :
  let m' := round_nearest_even m (loc_of_shr_record R) in
  m' = m \/ (m' = m + 1 /\ inexact R = true).
Proof.
  destruct R as [x [|] [|]]; unfold inexact; simpl; auto.
  destruct (Z.even m); auto.
Qed.

(** Rounding a value that does not exceed a representable number [X] gives
    a result that does not exceed [X]. *)
Lemma binary_round_aux_le mx ex m e l :
  canonical_mantissa prec emax mx ex = true ->
  ex <= emax - prec ->
  0 <= m ->
  e <= fexp (Zdigits2 m + e) ->
  e <= ex ->
  m <= Zpos mx * 2 ^ (ex - e) ->
  (l <> loc_Exact -> m < Zpos mx * 2 ^ (ex - e)) ->
  binary_round_aux prec emax false m e l = S754_zero false
  \/ exists m2 e2,
       binary_round_aux prec emax false m e l = S754_finite false m2 e2
       /\ (e2 < ex \/ (e2 = ex /\ (m2 <= mx)%positive)).
Proof.
  intros Hcan Hb Hm H1 Hex H2 H3.
  apply Z.eqb_eq in Hcan.
  change (Zpos (digits2_pos mx)) with (Zdigits2 (Zpos mx)) in Hcan.
  set (f := fexp (Zdigits2 m + e)) in *.
  assert (Hemin : -1074 <= f) by (unfold f; rewrite fexp_eq; lia).
  assert (Hemin' : -1074 <= ex) by (rewrite <- Hcan, fexp_eq; lia).
  assert (Hf : f <= ex).
  { destruct (Z.eq_dec m 0) as [->|Hm0].
    - unfold f in *. simpl (Zdigits2 0) in *. rewrite fexp_eq in *. lia.
    - rewrite <- Hcan. apply fexp_le.
      assert (H : Zdigits2 m <= Zdigits2 (Zpos mx * 2 ^ (ex - e)))
        by (apply Zdigits2_le; lia).
      rewrite Zdigits2_mul_pow2 in H by lia. lia. }
  set (n := f - e). assert (Hn : 0 <= n) by (unfold n; lia).
  set (K := Zpos mx * 2 ^ (ex - f)).
  assert (HK : Zpos mx * 2 ^ (ex - e) = 2 ^ n * K).
  { unfold K, n. rewrite (Z.mul_comm (2 ^ (f - e))), <- Z.mul_assoc.
    rewrite <- Z.pow_add_r by lia. do 2 f_equal. lia. }
  assert (Hpn : 0 < 2 ^ n) by (apply Z.pow_pos_nonneg; lia).
  assert (HK0 : 0 < K) by (unfold K; apply Z.mul_pos_pos; [lia|apply Z.pow_pos_nonneg; lia]).
  rewrite HK in H2, H3.
  unfold binary_round_aux.
  destruct (shr_fexp_spec m e l Hm) as (R1 & E1 & Hm1 & Hi1).
  fold f in E1, Hm1, Hi1.
  replace (Z.max 0 (f - e)) with n in * by (unfold n; lia).
  rewrite E1. replace (e + n) with f by (unfold n; lia).
  set (m' := round_nearest_even (shr_m R1) (loc_of_shr_record R1)).
  assert (Hm'K : 0 <= m' <= K).
  { assert (H0 : 0 <= shr_m R1) by (rewrite Hm1; apply Z.div_pos; lia).
    assert (Hle : shr_m R1 <= K)
      by (rewrite Hm1; apply Z.div_le_upper_bound; lia).
    destruct (round_nearest_even_spec (shr_m R1) R1) as [E | [E Hinx]];
      fold m' in E; rewrite E; [lia|].
    assert (Hlt : m < 2 ^ n * K).
    { apply Hi1 in Hinx as [Hl | Hmod]; [auto|].
      destruct (Z.eq_dec m (2 ^ n * K)) as [Em|]; [|lia].
      exfalso. apply Hmod. rewrite Em, Z.mul_comm. apply Z.mod_mul. lia. }
    assert (shr_m R1 < K) by (rewrite Hm1; apply Z.div_lt_upper_bound; lia).
    lia. }
  destruct (shr_fexp_spec m' f loc_Exact) as (R2 & E2 & Hm2 & _); [lia|].
  rewrite E2.
  set (n2 := Z.max 0 (fexp (Zdigits2 m' + f) - f)) in *.
  assert (Hn2 : 0 <= n2) by (unfold n2; lia).
  assert (Hpn2 : 0 < 2 ^ n2) by (apply Z.pow_pos_nonneg; lia).
  assert (He2 : f + n2 <= ex).
  { destruct (Z.eq_dec n2 0) as [->|Hnz]; [lia|].
    assert (Hf2 : f + n2 = fexp (Zdigits2 m' + f)) by (unfold n2 in *; lia).
    rewrite Hf2. destruct (Z.eq_dec m' 0) as [Em|Em].
    - exfalso. rewrite Em in Hf2. simpl (Zdigits2 0) in Hf2.
      rewrite fexp_eq in Hf2. lia.
    - rewrite <- Hcan. apply fexp_le.
      assert (H : Zdigits2 m' <= Zdigits2 K) by (apply Zdigits2_le; lia).
      unfold K in H. rewrite Zdigits2_mul_pow2 in H by lia. lia. }
  assert (Hm2le : f + n2 = ex -> shr_m R2 <= Zpos mx).
  { intros Ee. rewrite Hm2. apply Z.div_le_upper_bound; [lia|].
    replace n2 with (ex - f) by lia. fold K. rewrite Z.mul_comm.
    unfold K. rewrite Z.mul_comm. fold K. lia. }
  assert (H0 : 0 <= shr_m R2) by (rewrite Hm2; apply Z.div_pos; lia).
  cbv beta iota.
  destruct (shr_m R2) as [|p|p] eqn:Em2.
  - left. reflexivity.
  - right. replace (f + n2 <=? emax - prec) with true
      by (symmetry; apply Z.leb_le; lia).
    exists p, (f + n2). split; [reflexivity|].
    destruct (Z.eq_dec (f + n2) ex) as [Ee|]; [right|left; lia].
    split; [exact Ee|]. pose proof (Hm2le Ee). lia.
  - lia.
Qed.

(** *** Subtraction *)

Lemma iter_xO_pow2 m d : Zpos (Pos.iter xO m d) = Zpos m * 2 ^ Zpos d.
Proof.
  rewrite <- Z.shiftl_mul_pow2 by lia. unfold Z.shiftl.
  apply (Pos.iter_swap_gen _ _ Zpos xO (Z.mul 2)). reflexivity.
Qed.

Lemma shl_align_spec m e e' :
  let '(m2, e2) := shl_align m e e' in
  e2 = Z.min e e' /\ Zpos m2 = Zpos m * 2 ^ (e - e2).
Proof.
  unfold shl_align. destruct (e' - e) as [|d|d] eqn:E.
  - split; [lia|]. now rewrite Z.sub_diag, Z.mul_1_r.
  - split; [lia|]. now rewrite Z.sub_diag, Z.mul_1_r.
  - split; [lia|]. rewrite iter_xO_pow2. do 2 f_equal. lia.
Qed.

Lemma valid_finite s m e :
  valid_binary (S754_finite s m e) = true ->
  fexp (Zdigits2 (Zpos m) + e) = e /\ e <= emax - prec.
Proof.
  simpl. unfold bounded, canonical_mantissa. intros H.
  apply andb_true_iff in H as [H1 H2].
  apply Z.eqb_eq in H1. apply Z.leb_le in H2. auto.
Qed.

Lemma SFsub_finite_le mx ex my ey :
  valid_binary (S754_finite false mx ex) = true ->
  valid_binary (S754_finite false my ey) = true ->
  SFltb (S754_finite false mx ex) (S754_finite false my ey) = false ->
  let R := SF64sub (S754_finite false mx ex) (S754_finite false my ey) in
  R = S754_zero false
  \/ exists m2 e2,
       R = S754_finite false m2 e2
       /\ (e2 < ex \/ (e2 = ex /\ (m2 <= mx)%positive)).
Proof.
  intros Vx Vy Hcmp R. subst R.
  pose proof Vx as Vx'. simpl in Vx'. unfold bounded in Vx'.
  apply andb_true_iff in Vx' as [Hcanx Hbx]. apply Z.leb_le in Hbx.
  destruct (valid_finite _ _ _ Vx) as [Hfx _].
  destruct (valid_finite _ _ _ Vy) as [Hfy _].
  rewrite fexp_eq in Hfx, Hfy.
  pose proof (Zdigits2_lt_pow2 (Zpos mx) ltac:(lia)) as Hdx.
  pose proof (Zdigits2_ge_pow2 (Zpos mx) ltac:(lia)) as Hdx'.
  pose proof (Zdigits2_lt_pow2 (Zpos my) ltac:(lia)) as Hdy.
  pose proof (Zdigits2_nonneg (Zpos mx)) as Hnx.
  (* the order of the operands, from the comparison *)
  assert (Hord : ey < ex \/ (ey = ex /\ Zpos my <= Zpos mx)).
  { unfold SFltb in Hcmp. simpl in Hcmp.
    destruct (ex ?= ey) eqn:Ec.
    - apply Z.compare_eq in Ec. right. split; [lia|].
      rewrite Pos.compare_cont_spec in Hcmp. simpl in Hcmp.
      destruct (mx ?= my)%positive eqn:Em; try discriminate.
      + apply Pos.compare_eq in Em. lia.
      + apply Pos.compare_gt_iff in Em. lia.
    - discriminate.
    - apply Z.compare_gt_iff in Ec. left. lia. }
  unfold SF64sub, SFsub, cond_Zopp.
  remember (Z.min ex ey) as ez eqn:Eez.
  pose proof (shl_align_spec mx ex ez) as Hsx.
  pose proof (shl_align_spec my ey ez) as Hsy.
  destruct (shl_align mx ex ez) as [Mx ex'].
  destruct (shl_align my ey ez) as [My ey'].
  destruct Hsx as [Hex' HMx]. destruct Hsy as [Hey' HMy].
  assert (ex' = ez) by lia.
  assert (ey' = ez) by lia. clear Hex' Hey'. subst ex' ey'.
  cbn [fst].
  assert (HM : 0 <= Zpos Mx - Zpos My).
  { rewrite HMx, HMy. destruct Hord as [Hlt | [He Hm]].
    - replace ez with ey by lia. rewrite Z.sub_diag, Z.mul_1_r.
      assert (Hd : Zdigits2 (Zpos mx) = 53) by lia.
      assert (Hd2 : Zdigits2 (Zpos my) <= 53) by lia.
      rewrite Hd in Hdx'. change (2 ^ (53 - 1)) with (2 ^ 52) in Hdx'.
      assert (Zpos my < 2 ^ 53).
      { eapply Z.lt_le_trans; [exact Hdy|].
        apply Z.pow_le_mono_r; lia. }
      assert (2 <= 2 ^ (ex - ey)).
      { change 2 with (2 ^ 1) at 1. apply Z.pow_le_mono_r; lia. }
      change (2 ^ 53) with (2 ^ 52 * 2) in H. nia.
    - replace ez with ex by lia. subst ey.
      rewrite Z.sub_diag, !Z.mul_1_r. lia. }
  unfold binary_normalize.
  destruct (Zpos Mx - Zpos My) as [|p|p] eqn:EM; [now left| |lia].
  unfold binary_round.
  pose proof (shl_align_spec p ez (fexp (Zpos (digits2_pos p) + ez))) as Hsz.
  destruct (shl_align p ez _) as [mz e1].
  destruct Hsz as [He1 Hmz].
  change (Zpos (digits2_pos p)) with (Zdigits2 (Zpos p)) in He1.
  assert (Hez : ez <= ex) by lia.
  assert (Hpe : 0 < 2 ^ (ez - e1)) by (apply Z.pow_pos_nonneg; lia).
  apply binary_round_aux_le; auto; try lia.
  - rewrite Hmz, Zdigits2_mul_pow2 by lia.
    replace (Zdigits2 (Zpos p) + (ez - e1) + e1) with (Zdigits2 (Zpos p) + ez)
      by lia.
    lia.
  - rewrite Hmz.
    replace (ex - e1) with ((ex - ez) + (ez - e1)) by lia.
    rewrite Z.pow_add_r, Z.mul_assoc by lia. rewrite <- HMx.
    apply Z.mul_le_mono_nonneg_r; lia.
  - congruence.
Qed.

Lemma SFleb_of_bound R mx ex :
  (R = S754_zero false
   \/ exists m2 e2,
        R = S754_finite false m2 e2
        /\ (e2 < ex \/ (e2 = ex /\ (m2 <= mx)%positive))) ->
  SFleb R (S754_finite false mx ex) = true.
Proof.
  intros [-> | (m2 & e2 & -> & H)]; [reflexivity|].
  unfold SFleb. simpl. destruct H as [H | [-> H]].
  - apply Z.compare_lt_iff in H. now rewrite H.
  - rewrite Z.compare_refl, Pos.compare_cont_spec. simpl.
    destruct (m2 ?= mx)%positive eqn:E; try reflexivity.
    apply Pos.compare_gt_iff in E. lia.
Qed.

Lemma SFleb_refl_finite s m e :
  SFleb (S754_finite s m e) (S754_finite s m e) = true.
Proof.
  unfold SFleb. simpl.
  rewrite Z.compare_refl, Pos.compare_cont_spec, Pos.compare_refl.
  now destruct s.
Qed.

Lemma leb_refl_finite_nonneg a : finite_nonneg a -> (a <=? a)%float = true.
Proof.
  unfold finite_nonneg. rewrite FloatAxioms.leb_spec.
  destruct (Prim2SF a) as [s|s| |s m e]; intros H; try contradiction.
  - reflexivity.
  - apply SFleb_refl_finite.
Qed.

Lemma SFsub_le x y :
  valid_binary x = true -> valid_binary y = true ->
  SF_finite_nonneg x ->
  SFleb (S754_zero false) y = true -> SFltb x y = false ->
  SFleb (SF64sub x y) x = true /\ SF_finite_nonneg (SF64sub x y).
Proof.
  intros Vx Vy Hx Hy Hg.
  destruct x as [sx|sx| |sx mx ex]; try contradiction;
    destruct y as [sy|sy| |sy my ey]; try discriminate Hy.
  - destruct sx, sy; split; try reflexivity; exact I.
  - destruct sy; discriminate.
  - destruct sy; discriminate.
  - destruct sx; [contradiction|]. split; [apply SFleb_refl_finite | exact I].
  - destruct sx; [contradiction|]. destruct sy; discriminate.
  - destruct sx; [contradiction|]. destruct sy; [discriminate Hy|].
    pose proof (SFsub_finite_le mx ex my ey Vx Vy Hg) as H. cbv zeta in H.
    split; [now apply SFleb_of_bound|].
    destruct H as [-> | (m2 & e2 & -> & _)]; exact I.
Qed.

(** Paying a non-negative amount that the budget covers leaves a budget
    that is finite, non-negative and not above the one before. *)
Lemma sub_le a s :
  finite_nonneg a -> (0 <=? s)%float = true -> (a <? s)%float = false ->
  (a - s <=? a)%float = true /\ finite_nonneg (a - s).
Proof.
  unfold finite_nonneg.
  rewrite FloatAxioms.ltb_spec, !FloatAxioms.leb_spec, FloatAxioms.sub_spec.
  replace (Prim2SF 0) with (S754_zero false) by reflexivity.
  apply SFsub_le; apply Prim2SF_valid.
Qed.

(** *** Signs of quotients and conversions *)

Lemma binary_round_aux_signed sx m e l :
  0 <= m ->
  match binary_round_aux prec emax sx m e l with
  | S754_nan => False
  | S754_zero s | S754_infinity s | S754_finite s _ _ => s = sx
  end.
Proof.
  intros Hm. unfold binary_round_aux.
  destruct (shr_fexp_spec m e l Hm) as (R1 & -> & Hm1 & _).
  set (m' := round_nearest_even (shr_m R1) (loc_of_shr_record R1)).
  assert (Hm' : 0 <= m').
  { assert (0 <= shr_m R1)
      by (rewrite Hm1; apply Z.div_pos; [lia | apply Z.pow_pos_nonneg; lia]).
    destruct (round_nearest_even_spec (shr_m R1) R1) as [E | [E _]];
      fold m' in E; lia. }
  destruct (shr_fexp_spec m' (e + Z.max 0 (fexp (Zdigits2 m + e) - e))
              loc_Exact Hm') as (R2 & -> & Hm2 & _).
  assert (0 <= shr_m R2)
    by (rewrite Hm2; apply Z.div_pos; [lia | apply Z.pow_pos_nonneg; lia]).
  cbv beta iota. destruct (shr_m R2); [reflexivity| |lia].
  destruct (_ <=? _); reflexivity.
Qed.

Lemma SF_nonneg_leb x : SF_nonneg x -> SFleb (S754_zero false) x = true.
Proof. destruct x as [s|s| |s m e]; simpl; intros H; now subst. Qed.

Lemma of_int_pos_nonneg n :
  0 < n <= Int64.max_int64 -> SF_nonneg (Prim2SF (Float64.of_int n)).
Proof.
  intros Hn. unfold Float64.of_int.
  replace (n <? 0) with false by (symmetry; apply Z.ltb_ge; lia).
  rewrite of_uint63_spec, Uint63.of_Z_spec.
  rewrite Z.mod_small
    by (unfold Int64.max_int64 in Hn; change wB with (2 ^ 63); lia).
  destruct n as [|p|p]; try lia. unfold binary_normalize, binary_round.
  destruct (shl_align p 0 _) as [mz ez].
  pose proof (binary_round_aux_signed false (Zpos mz) ez loc_Exact ltac:(lia))
    as H.
  unfold SF_nonneg. destruct (binary_round_aux _ _ _ _ _ _); auto.
Qed.

Lemma SFdiv_pos_nonneg mx ex y :
  SF_nonneg y -> SF_nonneg (SF64div (S754_finite false mx ex) y).
Proof.
  destruct y as [sy|sy| |sy my ey]; simpl; intros H; try contradiction;
    subst; try reflexivity.
  unfold SF64div, SFdiv.
  destruct (SFdiv_core_binary prec emax (Z.pos mx) ex (Z.pos my) ey)
    as [[mz ez] lz] eqn:E.
  assert (Hmz : 0 <= mz).
  { unfold SFdiv_core_binary in E.
    set (m' := match _ - _ - _ with Z0 => _ | Zpos _ => _ | Zneg _ => _ end)
      in E.
    assert (0 <= m').
    { unfold m'. destruct (_ - _ - _); try lia. apply Z.shiftl_nonneg. lia. }
    destruct (Z.div_eucl m' (Z.pos my)) as [q r] eqn:Ed.
    assert (q = m' / Z.pos my) by (unfold Z.div; now rewrite Ed).
    inversion E; subst. apply Z.div_pos; lia. }
  pose proof (binary_round_aux_signed (xorb false false) mz ez lz Hmz) as H.
  unfold SF_nonneg. destruct (binary_round_aux _ _ _ _ _ _); auto.
Qed.

(** *** Division by an integer that is at least 1 *)

Lemma Zdigits2_le_of_lt_pow2 a k : 0 < a -> a < 2 ^ k -> Zdigits2 a <= k.
Proof.
  intros Ha Hk. pose proof (Zdigits2_ge_pow2 a Ha) as H.
  destruct (Z.le_gt_cases (Zdigits2 a) k) as [|Hgt]; [assumption|].
  exfalso. assert (2 ^ k <= 2 ^ (Zdigits2 a - 1))
    by (apply Z.pow_le_mono_r; lia). lia.
Qed.

Lemma Zdigits2_ge_of_pow2_le a k : 0 <= k -> 2 ^ k <= a -> k + 1 <= Zdigits2 a.
Proof.
  intros Hk Ha. assert (0 < a) by (pose proof (Z.pow_pos_nonneg 2 k); lia).
  pose proof (Zdigits2_lt_pow2 a H) as Hlt.
  destruct (Z.le_gt_cases (k + 1) (Zdigits2 a)) as [|Hgt]; [assumption|].
  exfalso. assert (2 ^ Zdigits2 a <= 2 ^ k)
    by (apply Z.pow_le_mono_r; lia). lia.
Qed.

(** [float64(n)] of an integer [n >= 1] is a finite number that is at
    least 1. *)
Lemma of_int_ge_one n :
  1 <= n <= Int64.max_int64 ->
  exists my ey,
    Prim2SF (Float64.of_int n) = S754_finite false my ey
    /\ (0 <= ey \/ 2 ^ (- ey) <= Zpos my).
Proof.
  intros Hn. unfold Float64.of_int.
  replace (n <? 0) with false by (symmetry; apply Z.ltb_ge; lia).
  rewrite of_uint63_spec, Uint63.of_Z_spec.
  rewrite Z.mod_small
    by (unfold Int64.max_int64 in Hn; change wB with (2 ^ 63); lia).
  destruct n as [|p|p]; try lia. unfold binary_normalize, binary_round.
  change (Zpos (digits2_pos p)) with (Zdigits2 (Zpos p)).
  set (d := Zdigits2 (Zpos p)).
  assert (Hd1 : 1 <= d) by (apply (Zdigits2_ge_of_pow2_le (Zpos p) 0); simpl; lia).
  assert (Hd63 : d <= 63).
  { apply Zdigits2_le_of_lt_pow2; [lia|].
    unfold Int64.max_int64 in Hn. lia. }
  pose proof (Zdigits2_lt_pow2 (Zpos p) ltac:(lia)) as Hlt. fold d in Hlt.
  pose proof (Zdigits2_ge_pow2 (Zpos p) ltac:(lia)) as Hge. fold d in Hge.
  pose proof (shl_align_spec p 0 (fexp (d + 0))) as Hs.
  destruct (shl_align p 0 (fexp (d + 0))) as [mz ez].
  destruct Hs as [Hez Hmz]. rewrite fexp_eq in Hez.
  assert (Hez' : ez = Z.min 0 (d - 53)) by lia. clear Hez.
  assert (Hpz : 0 < 2 ^ (0 - ez)) by (apply Z.pow_pos_nonneg; lia).
  assert (Hdz : Zdigits2 (Zpos mz) + ez = d).
  { rewrite Hmz, Zdigits2_mul_pow2 by lia. fold d. lia. }
  unfold binary_round_aux.
  destruct (shr_fexp_spec (Zpos mz) ez loc_Exact ltac:(lia))
    as (R1 & -> & Hm1 & Hi1).
  rewrite Hdz, fexp_eq in *.
  set (n := Z.max 0 (Z.max (d - 53) (-1074) - ez)) in *.
  assert (Hn' : n = Z.max 0 (d - 53)) by lia.
  assert (Hpn : 0 < 2 ^ n) by (apply Z.pow_pos_nonneg; lia).
  (* the mantissa after the first shift has 53 digits *)
  assert (Hm1b : 2 ^ 52 <= shr_m R1 < 2 ^ 53).
  { rewrite Hm1, Hmz. destruct (Z.le_gt_cases d 53).
    - replace n with 0 by lia. rewrite Z.div_1_r.
      replace (0 - ez) with (53 - d) by lia. split.
      + replace 52 with ((d - 1) + (53 - d)) by lia.
        rewrite Z.pow_add_r by lia. apply Z.mul_le_mono_nonneg_r; lia.
      + replace 53 with (d + (53 - d)) at 2 by lia.
        rewrite Z.pow_add_r by lia. apply Z.mul_lt_mono_pos_r; lia.
    - replace (0 - ez) with 0 by lia. rewrite Z.mul_1_r.
      replace n with (d - 53) in * by lia. split.
      + apply Z.div_le_lower_bound; [lia|].
        rewrite <- Z.pow_add_r by lia.
        replace (d - 53 + 52) with (d - 1) by lia. exact Hge.
      + apply Z.div_lt_upper_bound; [lia|].
        rewrite <- Z.pow_add_r by lia.
        replace (d - 53 + 53) with d by lia. exact Hlt. }
  pose proof (round_nearest_even_spec (shr_m R1) R1) as Hrne.
  cbv zeta in Hrne.
  set (m' := round_nearest_even (shr_m R1) (loc_of_shr_record R1)) in *.
  clearbody m'.
  assert (Hm' : 2 ^ 52 <= m' <= 2 ^ 53) by lia.
  assert (Hdm' : 53 <= Zdigits2 m' <= 54).
  { split.
    - apply (Zdigits2_ge_of_pow2_le m' 52); lia.
    - apply Zdigits2_le_of_lt_pow2; [lia|].
      change (2 ^ 54) with (2 ^ 53 * 2). lia. }
  destruct (shr_fexp_spec m' (ez + n) loc_Exact ltac:(lia))
    as (R2 & -> & Hm2 & _).
  rewrite fexp_eq in *.
  set (n2 := Z.max 0 (Z.max (Zdigits2 m' + (ez + n) - 53) (-1074) - (ez + n)))
    in *.
  assert (Hen : ez + n = d - 53) by lia.
  assert (Hn2 : n2 = Zdigits2 m' - 53) by (unfold n2; lia).
  assert (Hm2b : 2 ^ 52 <= shr_m R2).
  { rewrite Hm2. apply Z.div_le_lower_bound;
      [apply Z.pow_pos_nonneg; lia|].
    rewrite <- Z.pow_add_r by lia.
    replace (n2 + 52) with (Zdigits2 m' - 1) by lia.
    apply Zdigits2_ge_pow2. lia. }
  cbv beta iota.
  destruct (shr_m R2) as [|q|q] eqn:Eq; try lia.
  replace (ez + n + n2 <=? emax - prec) with true
    by (symmetry; apply Z.leb_le; change (emax - prec) with 971; lia).
  exists q, (ez + n + n2). split; [reflexivity|].
  destruct (Z.le_gt_cases 0 (ez + n + n2)) as [|Hneg]; [now left|right].
  (* a negative exponent: no shift happened and the mantissa is [p] aligned *)
  assert (Hn0 : n = 0) by lia.
  assert (Hexact : m' = shr_m R1).
  { destruct Hrne as [E | [E Hx]]; [exact E|].
    exfalso. apply Hi1 in Hx as [Hx | Hx]; [now apply Hx|].
    apply Hx. rewrite Hn0. apply Z.mod_1_r. }
  assert (Zdigits2 m' <= 53) by (apply Zdigits2_le_of_lt_pow2; lia).
  assert (Hn20 : n2 = 0) by lia.
  assert (Hq : Zpos q = Zpos p * 2 ^ (0 - ez)).
  { rewrite Hm2, Hn20, Z.div_1_r, Hexact, Hm1, Hn0, Z.div_1_r. exact Hmz. }
  rewrite Hq. replace (- (ez + n + n2)) with (0 - ez) by lia. nia.
Qed.

Lemma new_location_exact n r : new_location n r = loc_Exact -> r = 0.
Proof.
  unfold new_location, new_location_even, new_location_odd.
  destruct (Z.even n); destruct (Z.eqb_spec r 0); auto; discriminate.
Qed.

(** Dividing a positive number by a number that is at least 1 does not
    increase it. *)
Lemma SFdiv_finite_le mx ex my ey :
  valid_binary (S754_finite false mx ex) = true ->
  valid_binary (S754_finite false my ey) = true ->
  (0 <= ey \/ 2 ^ (- ey) <= Zpos my) ->
  let R := SF64div (S754_finite false mx ex) (S754_finite false my ey) in
  R = S754_zero false
  \/ exists m2 e2,
       R = S754_finite false m2 e2
       /\ (e2 < ex \/ (e2 = ex /\ (m2 <= mx)%positive)).
Proof.
  intros Vx Vy Hy R. subst R.
  pose proof Vx as Vx'. simpl in Vx'. unfold bounded in Vx'.
  apply andb_true_iff in Vx' as [Hcanx Hbx]. apply Z.leb_le in Hbx.
  destruct (valid_finite _ _ _ Vx) as [Hfx _].
  destruct (valid_finite _ _ _ Vy) as [Hfy _].
  rewrite fexp_eq in Hfx, Hfy.
  set (d1 := Zdigits2 (Zpos mx)) in *. set (d2 := Zdigits2 (Zpos my)) in *.
  pose proof (Zdigits2_lt_pow2 (Zpos mx) ltac:(lia)) as Hx1. fold d1 in Hx1.
  pose proof (Zdigits2_ge_pow2 (Zpos mx) ltac:(lia)) as Hx2. fold d1 in Hx2.
  pose proof (Zdigits2_lt_pow2 (Zpos my) ltac:(lia)) as Hy1. fold d2 in Hy1.
  assert (Hd1 : 1 <= d1)
    by (apply (Zdigits2_ge_of_pow2_le (Zpos mx) 0); simpl; lia).
  assert (Hd2 : 1 <= d2)
    by (apply (Zdigits2_ge_of_pow2_le (Zpos my) 0); simpl; lia).
  (* the divisor is at least 1 *)
  assert (Hy' : 1 <= d2 + ey).
  { destruct Hy as [Hy | Hy]; [lia|].
    destruct (Z.le_gt_cases 0 ey); [lia|].
    pose proof (Zdigits2_ge_of_pow2_le (Zpos my) (- ey) ltac:(lia) Hy).
    fold d2 in H0. lia. }
  unfold SF64div, SFdiv, SFdiv_core_binary.
  change (Zdigits2 (Zpos mx)) with d1. change (Zdigits2 (Zpos my)) with d2.
  rewrite fexp_eq.
  set (A := d1 + ex - (d2 + ey)).
  assert (HA : A = d1 + ex - (d2 + ey)) by reflexivity. clearbody A.
  set (e' := Z.min (Z.max (A - 53) (-1074)) (ex - ey)).
  assert (He' : e' = Z.min (Z.max (A - 53) (-1074)) (ex - ey)) by reflexivity.
  clearbody e'.
  set (s := ex - ey - e').
  assert (Hsd : s = ex - ey - e') by reflexivity. clearbody s.
  assert (Hs : 0 <= s) by lia.
  assert (He'x : e' <= ex) by lia.
  set (m' := match s with
             | 0 => Z.pos mx
             | Z.pos _ => Z.shiftl (Z.pos mx) s
             | Z.neg _ => 0
             end).
  assert (Hm' : m' = Zpos mx * 2 ^ s).
  { unfold m'. destruct s as [|ps|ps]; try lia.
    now rewrite Z.shiftl_mul_pow2 by lia. }
  clearbody m'.
  assert (Hps : 0 < 2 ^ s) by (apply Z.pow_pos_nonneg; lia).
  pose proof (Z_div_mod m' (Zpos my) ltac:(lia)) as Hdm.
  destruct (Z.div_eucl m' (Z.pos my)) as [q r].
  destruct Hdm as [Hqr Hr].
  assert (Hq0 : 0 <= q) by nia.
  assert (Hpx : 0 < 2 ^ (ex - e')) by (apply Z.pow_pos_nonneg; lia).
  (* the quotient does not exceed the dividend, strictly so when inexact *)
  assert (Hbound : q <= Zpos mx * 2 ^ (ex - e')
                   /\ (r <> 0 -> q < Zpos mx * 2 ^ (ex - e'))).
  { destruct (Z.le_gt_cases 0 ey) as [Hey | Hey].
    - assert (H2 : 2 ^ s <= 2 ^ (ex - e'))
        by (apply Z.pow_le_mono_r; lia).
      assert (Zpos mx * 2 ^ s <= Zpos mx * 2 ^ (ex - e'))
        by (apply Z.mul_le_mono_nonneg_l; lia).
      split; [nia|]. intros Hr0. nia.
    - destruct Hy as [Hy | Hy]; [lia|].
      assert (Hpy : 0 < 2 ^ (- ey)) by (apply Z.pow_pos_nonneg; lia).
      assert (H2 : 2 ^ s = 2 ^ (ex - e') * 2 ^ (- ey)).
      { rewrite <- Z.pow_add_r by lia. f_equal. lia. }
      rewrite H2 in Hm'.
      assert (Hle : q * 2 ^ (- ey) <= q * Zpos my)
        by (apply Z.mul_le_mono_nonneg_l; lia).
      split.
      + apply (Z.mul_le_mono_pos_r _ _ (2 ^ (- ey)) Hpy). nia.
      + intros Hr0. apply (Z.mul_lt_mono_pos_r (2 ^ (- ey)) _ _ Hpy). nia. }
  destruct Hbound as [Hb1 Hb2].
  apply binary_round_aux_le; auto.
  - (* enough digits in the quotient *)
    rewrite fexp_eq.
    destruct (Z.le_gt_cases e' (-1074)) as [|Hgt]; [lia|].
    assert (He'A : e' <= A - 53) by lia.
    assert (Hs53 : d2 - d1 + 53 <= s) by lia.
    assert (Hq52 : 2 ^ 52 <= q).
    { assert (H1 : 2 ^ (d2 + 52) <= m').
      { rewrite Hm'. replace (d2 + 52) with ((d1 - 1) + (d2 - d1 + 53)) by lia.
        rewrite Z.pow_add_r by lia.
        assert (2 ^ (d2 - d1 + 53) <= 2 ^ s)
          by (apply Z.pow_le_mono_r; lia).
        assert (0 < 2 ^ (d2 - d1 + 53)) by (apply Z.pow_pos_nonneg; lia).
        nia. }
      rewrite Z.pow_add_r in H1 by lia.
      assert (0 < 2 ^ 52) by reflexivity.
      destruct (Z.le_gt_cases (2 ^ 52) q) as [|Hlt]; [assumption|].
      exfalso. assert (q + 1 <= 2 ^ 52) by lia.
      assert (m' < Zpos my * (q + 1)) by nia.
      assert (Zpos my * (q + 1) <= 2 ^ d2 * 2 ^ 52) by nia. lia. }
    pose proof (Zdigits2_ge_of_pow2_le q 52 ltac:(lia) Hq52). lia.
  - intros Hl. apply Hb2. intros Hr0. apply Hl. subst r.
    unfold new_location, new_location_even, new_location_odd.
    now destruct (Z.even (Zpos my)).
Qed.

Lemma shiftl_le_mono a b e : 0 <= a <= b -> Z.shiftl a e <= Z.shiftl b e.
Proof.
  intros H. destruct (Z.le_gt_cases 0 e).
  - rewrite !Z.shiftl_mul_pow2 by lia.
    apply Z.mul_le_mono_nonneg_r; [apply Z.pow_nonneg|]; lia.
  - rewrite !Z.shiftl_div_pow2 by lia.
    apply Z.div_le_mono; [apply Z.pow_pos_nonneg|]; lia.
Qed.

(** The integer part follows the order of the canonical representations. *)
Lemma trunc_le_of_bound mx ex m2 e2 :
  valid_binary (S754_finite false mx ex) = true ->
  valid_binary (S754_finite false m2 e2) = true ->
  e2 < ex \/ (e2 = ex /\ (m2 <= mx)%positive) ->
  0 <= Z.shiftl (Zpos m2) e2 <= Z.shiftl (Zpos mx) ex.
Proof.
  intros Vx V2 H. split; [apply Z.shiftl_nonneg; lia|].
  destruct H as [Hlt | [-> Hm]]; [|apply shiftl_le_mono; lia].
  destruct (valid_finite _ _ _ Vx) as [Hfx _].
  destruct (valid_finite _ _ _ V2) as [Hf2 _].
  rewrite fexp_eq in Hfx, Hf2.
  pose proof (Zdigits2_ge_pow2 (Zpos mx) ltac:(lia)) as Hx.
  pose proof (Zdigits2_lt_pow2 (Zpos m2) ltac:(lia)) as H2.
  assert (Hdx : Zdigits2 (Zpos mx) = 53) by lia.
  assert (Hd2 : Zdigits2 (Zpos m2) <= 53) by lia.
  rewrite Hdx in Hx. change (2 ^ (53 - 1)) with (2 ^ 52) in Hx.
  assert (Zpos m2 < 2 ^ 53).
  { eapply Z.lt_le_trans; [exact H2|]. apply Z.pow_le_mono_r; lia. }
  replace ex with ((ex - e2) + e2) at 1 by lia.
  rewrite <- Z.shiftl_shiftl by lia.
  apply shiftl_le_mono. rewrite Z.shiftl_mul_pow2 by lia.
  assert (2 <= 2 ^ (ex - e2)).
  { change 2 with (2 ^ 1) at 1. apply Z.pow_le_mono_r; lia. }
  change (2 ^ 53) with (2 ^ 52 * 2) in H. nia.
Qed.

(** The quotient of a non-negative number that fits an [int] by the float
    of an integer [n >= 1] fits an [int]. *)
Lemma int_convertible_div x n :
  (0 <=? x)%float = true -> Float64.int_convertible x = true ->
  1 <= n <= Int64.max_int64 ->
  Float64.int_convertible (x / Float64.of_int n) = true.
Proof.
  intros H0 Hc Hn.
  destruct (of_int_ge_one n Hn) as (my & ey & Ey & Hy).
  pose proof (Prim2SF_valid (Float64.of_int n)) as Vy. rewrite Ey in Vy.
  pose proof (Prim2SF_valid x) as Vx.
  pose proof (Prim2SF_valid (x / Float64.of_int n)) as Vq.
  unfold Float64.int_convertible in *.
  rewrite FloatAxioms.div_spec, Ey in *.
  destruct (Prim2SF x) as [s|s| |s mx ex] eqn:Ex; try discriminate Hc.
  - reflexivity.
  - rewrite (nonneg_sign x s mx ex H0 Ex) in *.
    destruct (SFdiv_finite_le mx ex my ey Vx Vy Hy)
      as [-> | (m2 & e2 & E2 & Hb)]; [reflexivity|].
    rewrite E2 in *. cbn [Float64.trunc_SF cond_Zopp] in *.
    pose proof (trunc_le_of_bound mx ex m2 e2 Vx Vq Hb) as Ht.
    unfold Int64.in_range, Int64.min_int64 in *.
    apply andb_true_iff in Hc as [Hc1 Hc2].
    apply Z.leb_le in Hc1. apply Z.leb_le in Hc2.
    apply andb_true_iff. split; apply Z.leb_le; lia.
Qed.

End FloatFacts.

(** ** The duration parser *)

Module ParserProperties.

Import Parser.
Local Open Scope string_scope.
Local Open Scope Z_scope.

Lemma wrap_mul_l a b : Int64.mul (Int64.wrap a) b = Int64.wrap (a * b).
Proof.
  unfold Int64.mul, Int64.wrap.
  f_equal.
  rewrite (Z.mod_eq (a + 2 ^ 63) (2 ^ 64)) by lia.
  set (q := (a + 2 ^ 63) / 2 ^ 64).
  replace ((a + 2 ^ 63 - 2 ^ 64 * q - 2 ^ 63) * b + 2 ^ 63)
    with (a * b + 2 ^ 63 + (- q * b) * 2 ^ 64) by ring.
  apply Z_mod_plus_full.
Qed.

Lemma wrap_mul_l' a b : Int64.wrap (Int64.wrap a * b) = Int64.wrap (a * b).
Proof. exact (wrap_mul_l a b). Qed.

Lemma unit_symbol_cases u :
  unit_symbol u = true ->
  u = "s"%char \/ u = "m"%char \/ u = "H"%char \/ u = "D"%char
  \/ u = "W"%char \/ u = "M"%char.
Proof.
  unfold unit_symbol, mem_ascii. simpl.
  rewrite !orb_true_iff, !Ascii.eqb_eq. intuition discriminate.
Qed.

Lemma unit_class_cases u :
  unit_class u = true ->
  u = "s"%char \/ u = "m"%char \/ u = "h"%char \/ u = "H"%char \/ u = "d"%char
  \/ u = "D"%char \/ u = "w"%char \/ u = "W"%char \/ u = "M"%char.
Proof.
  unfold unit_class, mem_ascii. simpl.
  rewrite !orb_true_iff, !Ascii.eqb_eq. intuition discriminate.
Qed.

Lemma span_digits_app ds u r :
  all_digits ds = true -> is_digit u = false ->
  span_digits (ds ++ String u r) = (ds, String u r).
Proof.
  unfold all_digits. induction ds as [|c ds IH]; simpl; intros Hd Hu.
  - now rewrite Hu.
  - apply andb_true_iff in Hd as [Hc Hd]. rewrite Hc, IH by assumption.
    reflexivity.
Qed.

Lemma span_digits_inv s : forall a b,
  span_digits s = (a, b) ->
  s = a ++ b /\ all_digits a = true
  /\ match b with String c _ => is_digit c = false | EmptyString => True end.
Proof.
  unfold all_digits. induction s as [|c s IH]; simpl; intros a b H.
  - inversion H; subst. auto.
  - destruct (is_digit c) eqn:Hc.
    + destruct (span_digits s) as [ds rest] eqn:Hs. inversion H; subst.
      destruct (IH _ _ eq_refl) as (-> & Hall & Hb). simpl.
      rewrite Hc. auto.
    + inversion H; subst. simpl. auto.
Qed.

Lemma decimal_fold ds : forall acc,
  all_digits ds = true ->
  decimal acc ds
  = Some (fold_left (fun acc c => 10 * acc + digit_value c)
            (list_ascii_of_string ds) acc).
Proof.
  unfold all_digits. induction ds as [|c ds IH]; simpl; intros acc H.
  - reflexivity.
  - apply andb_true_iff in H as [Hc H]. rewrite Hc. now apply IH.
Qed.

Lemma is_digit_value c : is_digit c = true -> 0 <= digit_value c <= 9.
Proof.
  unfold is_digit, digit_value. cbv zeta. intros H.
  apply andb_true_iff in H as [H1 H2].
  apply N.leb_le in H1. apply N.leb_le in H2. revert H1 H2. generalize (N_of_ascii c). intros n H1 H2. lia.
Qed.

Lemma fold_digits_nonneg l : forall acc,
  forallb is_digit l = true -> 0 <= acc ->
  0 <= fold_left (fun acc c => 10 * acc + digit_value c) l acc.
Proof.
  induction l as [|c l IH]; cbn [fold_left forallb]; intros acc H Hacc.
  - assumption.
  - apply andb_true_iff in H as [Hc H]. apply IH; [assumption|].
    pose proof (is_digit_value c Hc). lia.
Qed.

Lemma magnitude_nonneg ds : all_digits ds = true -> 0 <= magnitude ds.
Proof. intros H. apply fold_digits_nonneg; [exact H | lia]. Qed.

Lemma is_digit_not_sign c :
  is_digit c = true -> Ascii.eqb c "-" = false /\ Ascii.eqb c "+" = false.
Proof.
  intros H. split; apply Ascii.eqb_neq; intros ->; discriminate H.
Qed.

Lemma Atoi_digits ds :
  ds <> EmptyString -> all_digits ds = true ->
  Atoi ds = if (magnitude ds <=? Int64.max_int64)%Z then Ok (magnitude ds)
            else Err ErrRange.
Proof.
  intros Hne Hall. destruct ds as [|c ds]; [congruence|].
  unfold Atoi.
  assert (Hc : is_digit c = true).
  { unfold all_digits in Hall. simpl in Hall.
    now apply andb_true_iff in Hall as [Hc _]. }
  destruct (is_digit_not_sign c Hc) as [-> ->].
  rewrite (decimal_fold _ 0 Hall). fold (magnitude (String c ds)).
  pose proof (magnitude_nonneg _ Hall) as Hm.
  unfold Int64.in_range.
  replace (Int64.min_int64 <=? magnitude (String c ds)) with true; [reflexivity|].
  symmetry. apply Z.leb_le. unfold Int64.min_int64. lia.
Qed.

Lemma FindStringSubmatch_accept ds u :
  ds <> EmptyString -> all_digits ds = true -> unit_class u = true ->
  FindStringSubmatch (ds ++ String u EmptyString)
  = [ds ++ String u EmptyString; ds; String u EmptyString].
Proof.
  intros Hne Hall Hu. unfold FindStringSubmatch.
  rewrite span_digits_app; auto.
  - destruct ds; [congruence|]. now rewrite Hu.
  - destruct (unit_class_cases u Hu) as [H|[H|[H|[H|[H|[H|[H|[H|H]]]]]]]];
      subst; reflexivity.
Qed.

Lemma FindStringSubmatch_inv s :
  FindStringSubmatch s = []
  \/ exists ds u, ds <> EmptyString /\ all_digits ds = true
       /\ unit_class u = true /\ s = ds ++ String u EmptyString
       /\ FindStringSubmatch s = [s; ds; String u EmptyString].
Proof.
  unfold FindStringSubmatch.
  destruct (span_digits s) as [a b] eqn:Hs.
  destruct (span_digits_inv s a b Hs) as (Heq & Hall & _).
  destruct a as [|d ds]; [now left|].
  destruct b as [|u [|? ?]]; try now left.
  destruct (unit_class u) eqn:Hu; [|now left].
  right. exists (String d ds), u. repeat split; auto. discriminate.
Qed.

(** An accepted text denotes its magnitude times the unit, wrapped to 64 bits. *)
Lemma parseDuration_accepted ds u :
  ds <> EmptyString -> all_digits ds = true -> unit_symbol u = true ->
  magnitude ds <= Int64.max_int64 ->
  parseDuration (ds ++ String u EmptyString)
  = Ok (Int64.wrap (magnitude ds * unit_nanos u)).
Proof.
  intros Hne Hall Hu Hmag. unfold parseDuration.
  assert (Hcls : unit_class u = true).
  { destruct (unit_symbol_cases u Hu) as [H|[H|[H|[H|[H|H]]]]]; subst;
      reflexivity. }
  rewrite FindStringSubmatch_accept by assumption.
  rewrite Atoi_digits by assumption.
  apply Z.leb_le in Hmag. rewrite Hmag.
  destruct (unit_symbol_cases u Hu) as [H|[H|[H|[H|[H|H]]]]]; subst;
    cbn -[Int64.mul Int64.wrap Z.mul]; unfold Int64.mul;
    repeat (rewrite ?wrap_mul_l'; rewrite <- ?Z.mul_assoc); reflexivity.
Qed.

Lemma parseDuration_Ok_inv s d : parseDuration s = Ok d -> accepted s.
Proof.
  unfold parseDuration.
  destruct (FindStringSubmatch_inv s)
    as [-> | (ds & u & Hne & Hall & Hu & Hs & ->)]; [discriminate|].
  rewrite Atoi_digits by assumption.
  destruct (magnitude ds <=? Int64.max_int64) eqn:Hmag; [|discriminate].
  apply Z.leb_le in Hmag.
  intros H. exists ds, u.
  destruct (unit_class_cases u Hu) as [E|[E|[E|[E|[E|[E|[E|[E|E]]]]]]]];
    subst u; try discriminate H; repeat split; auto.
Qed.

(** C7 (as amended): [parseDuration] is a total function that returns a span
    exactly for the texts of the grammar whose magnitude does not exceed
    9223372036854775807, and returns an error for every other text. *)
Theorem parseDuration_total : forall s,
  (accepted s -> exists d, parseDuration s = Ok d)
  /\ (~ accepted s -> exists e, parseDuration s = Err e).
Proof.
  intros s. split.
  - intros (ds & u & -> & Hne & Hall & Hu & Hmag).
    eexists. now apply parseDuration_accepted.
  - intros Hn. destruct (parseDuration s) as [d|e] eqn:E.
    + exfalso. apply Hn. now apply parseDuration_Ok_inv with d.
    + now exists e.
Qed.

Lemma parseDuration_total_witness :
  accepted "30s" /\ exists d, parseDuration "30s" = Ok d.
Proof.
  assert (H : accepted "30s").
  { exists "30", "s"%char. repeat split; try reflexivity.
    - discriminate.
    - vm_compute. discriminate. }
  split; [exact H | exact (proj1 (parseDuration_total "30s") H)].
Defined.

(** C7 as stated fails: a text of the grammar whose magnitude exceeds the
    64-bit [int] is rejected with the number error of [strconv.Atoi]. *)
Lemma parseDuration_grammar_overflow :
  matches_grammar "9223372036854775808s"
  /\ parseDuration "9223372036854775808s" = Err (InvalidNumber ErrRange)
  /\ ~ (exists d, parseDuration "9223372036854775808s" = Ok d).
Proof.
  split; [|split].
  - exists "9223372036854775808", "s"%char. repeat split; try reflexivity.
    discriminate.
  - vm_compute. reflexivity.
  - intros [d H]. vm_compute in H. discriminate H.
Qed.

(** C8: the units are case-sensitive and map to fixed second counts: ["30s"]
    is 30 seconds, ["2H"] 7200, ["1D"] 86400, ["1W"] 604800, ["1M"] 2592000
    (thirty days) and ["1m"] 60 seconds, which differs from ["1M"]. *)
Theorem parseDuration_units :
  parseDuration "30s" = Ok (30 * Duration.Second)
  /\ parseDuration "2H" = Ok (7200 * Duration.Second)
  /\ parseDuration "1D" = Ok (86400 * Duration.Second)
  /\ parseDuration "1W" = Ok (604800 * Duration.Second)
  /\ parseDuration "1M" = Ok (2592000 * Duration.Second)
  /\ parseDuration "1m" = Ok (60 * Duration.Second)
  /\ parseDuration "1m" <> parseDuration "1M"
  /\ Duration.Seconds (30 * Duration.Second) = 30%float
  /\ Duration.Seconds (2592000 * Duration.Second) = 2592000%float.
Proof.
  repeat split; try (vm_compute; reflexivity).
  vm_compute. discriminate.
Qed.

End ParserProperties.

(** ** The scheduler *)

Module SchedulerProperties.

Import FloatNotions Scheduler FloatFacts.

(** *** The loops *)

Section LoopFacts.
Variable PlaceOrder : Venue.

Lemma quantized_loop_shape todo : forall i n iv a,
  quantized_loop PlaceOrder todo i n iv a
  = slice_loop PlaceOrder 1%float (quantized_nap n iv) todo i a.
Proof.
  induction todo as [|todo IH]; intros i n iv a; simpl; [reflexivity|].
  destruct (a <? 1)%float; [reflexivity|].
  rewrite IH. reflexivity.
Qed.

Lemma linear_loop_shape todo : forall i q a,
  linear_loop PlaceOrder todo i q a
  = slice_loop PlaceOrder q linear_nap todo i a.
Proof.
  induction todo as [|todo IH]; intros i q a; simpl; [reflexivity|].
  destruct (a <? q)%float; [reflexivity|].
  rewrite IH. reflexivity.
Qed.

Lemma execute_Slices m n q iv a :
  (m = QUANTIZED -> q = 1%float) ->
  execute PlaceOrder (Slices m n q iv) a
  = let '(evs, final) :=
      slice_loop PlaceOrder q
        (match m with QUANTIZED => quantized_nap n iv | LINEAR => linear_nap end)
        (Z.to_nat n) 0 a in
    mkRun evs TradingCompleted final.
Proof.
  intros Hq. destruct m; simpl.
  - rewrite quantized_loop_shape, Hq by reflexivity. reflexivity.
  - rewrite linear_loop_shape. reflexivity.
Qed.

End LoopFacts.

Section SliceLoop.
Variable PlaceOrder : Venue.
Variable size : float.
Variable nap : Z -> list Event.
Hypothesis nap_sleeps : forall i e, In e (nap i) -> exists d, e = Sleep d.

Lemma attempts_nap i : attempts (nap i) = [].
Proof.
  unfold attempts.
  pose proof (nap_sleeps i) as H. induction (nap i) as [|e l IH]; [reflexivity|].
  simpl. destruct (H e (or_introl eq_refl)) as [d ->]. simpl.
  apply IH. intros e' He'. apply H. now right.
Qed.

Lemma attempts_app l1 l2 : attempts (l1 ++ l2) = attempts l1 ++ attempts l2.
Proof. apply filter_app. Qed.

Lemma chained_sleeps l : forall a rest final,
  (forall e, In e l -> exists d, e = Sleep d) ->
  chained a rest final -> chained a (l ++ rest) final.
Proof.
  induction l as [|e l IH]; simpl; intros a rest final Hl Hc; [exact Hc|].
  destruct (Hl e (or_introl eq_refl)) as [d ->]. apply IH; auto.
Qed.

Lemma slice_loop_chained todo : forall i a evs final,
  slice_loop PlaceOrder size nap todo i a = (evs, final) ->
  chained a evs final.
Proof.
  induction todo as [|todo IH]; intros i a evs final; simpl.
  - intros H. inversion H; subst. reflexivity.
  - destruct (a <? size)%float.
    + intros H. inversion H; subst. simpl. auto.
    + destruct (slice_loop PlaceOrder size nap todo (i + 1) _)
        as [rest fin] eqn:E.
      intros H. inversion H; subst. simpl. repeat split.
      apply chained_sleeps; [apply nap_sleeps | now apply IH in E].
Qed.

Lemma slice_loop_dispatch todo : forall i a evs final,
  slice_loop PlaceOrder size nap todo i a = (evs, final) ->
  forall j q b ok b', In (Dispatch j q b ok b') evs ->
    q = size /\ (b <? size)%float = false /\ ok = PlaceOrder j size
    /\ b' = (if ok then (b - size)%float else b)
    /\ i <= j < i + Z.of_nat todo.
Proof.
  induction todo as [|todo IH]; intros i a evs final; simpl.
  - intros H. inversion H; subst. intros ? ? ? ? ? [].
  - destruct (a <? size)%float eqn:Hg.
    + intros H. inversion H; subst. intros j q b ok b' [Hin|[]]. discriminate.
    + destruct (slice_loop PlaceOrder size nap todo (i + 1) _)
        as [rest fin] eqn:E.
      intros H. inversion H; subst. intros j q b ok b' [Hin|Hin].
      * inversion Hin; subst. repeat split; auto; lia.
      * apply in_app_or in Hin as [Hin|Hin].
        -- apply nap_sleeps in Hin as [d Hd]. discriminate.
        -- destruct (IH _ _ _ _ E _ _ _ _ _ Hin) as (? & ? & ? & ? & ?).
           repeat split; auto; lia.
Qed.

(** Either every planned iteration dispatched, or the run stopped at the
    check, which is then the last event. *)
Lemma slice_loop_count todo : forall i a evs final,
  slice_loop PlaceOrder size nap todo i a = (evs, final) ->
  (List.length (attempts evs) = todo
   /\ forall b q, ~ In (Insufficient b q) evs)
  \/ (exists pre,
        evs = pre ++ [Insufficient final size]
        /\ (final <? size)%float = true
        /\ (List.length (attempts evs) < todo)%nat
        /\ forall b q, ~ In (Insufficient b q) pre).
Proof.
  induction todo as [|todo IH]; intros i a evs final; simpl.
  - intros H. inversion H; subst. left. split; [reflexivity|]. intros ? ? [].
  - destruct (a <? size)%float eqn:Hg.
    + intros H. inversion H; subst. right. exists []. simpl.
      repeat split; auto. lia.
    + destruct (slice_loop PlaceOrder size nap todo (i + 1) _)
        as [rest fin] eqn:E.
      intros H. inversion H; subst.
      assert (Hnap : forall b q, ~ In (Insufficient b q) (nap i)).
      { intros b q Hin. apply nap_sleeps in Hin as [d Hd]. discriminate. }
      cbn [attempts filter is_dispatch]. fold (attempts (nap i ++ rest)).
      rewrite attempts_app, attempts_nap. simpl.
      destruct (IH _ _ _ _ E) as [[Hlen Hno] | (pre & -> & Hf & Hlen & Hno)].
      * left. split; [congruence|].
        intros b q [Hin|Hin]; [discriminate|].
        apply in_app_or in Hin as [Hin|Hin]; [now apply (Hnap b q)|].
        now apply (Hno b q).
      * right. exists (Dispatch i size a (PlaceOrder i size)
                         (if PlaceOrder i size then (a - size)%float else a)
                         :: nap i ++ pre).
        repeat split; auto.
        -- simpl. now rewrite app_assoc.
        -- lia.
        -- intros b q [Hin|Hin]; [discriminate|].
           apply in_app_or in Hin as [Hin|Hin]; [now apply (Hnap b q)|].
           now apply (Hno b q).
Qed.

(** A failed attempt is followed by the next scheduled one, with the same
    budget. *)
Lemma slice_loop_failure_isolated todo : forall i a evs final,
  slice_loop PlaceOrder size nap todo i a = (evs, final) ->
  forall j q b b', In (Dispatch j q b false b') evs ->
    b' = b
    /\ (j + 1 < i + Z.of_nat todo ->
        exists b2,
          In (Dispatch (j + 1) q b (PlaceOrder (j + 1) q) b2) evs).
Proof.
  induction todo as [|todo IH]; intros i a evs final; simpl.
  - intros H. inversion H; subst. intros ? ? ? ? [].
  - destruct (a <? size)%float eqn:Hg.
    + intros H. inversion H; subst. intros j q b b' [Hin|[]]. discriminate.
    + destruct (slice_loop PlaceOrder size nap todo (i + 1) _)
        as [rest fin] eqn:E.
      intros H. inversion H; subst. intros j q b b' [Hin|Hin].
      * inversion Hin as [[Hj Hq Hb Hok Hb']]. subst j q b.
        rewrite Hok in Hb', E. split; [congruence|]. intros Hlt.
        destruct todo as [|todo']; [lia|].
        simpl in E. rewrite Hg in E.
        destruct (slice_loop PlaceOrder size nap todo' (i + 1 + 1) _)
          as [rest' fin'] eqn:E'.
        inversion E; subst. eexists. right. apply in_or_app. right.
        left. reflexivity.
      * apply in_app_or in Hin as [Hin|Hin].
        { apply nap_sleeps in Hin as [d Hd]. discriminate. }
        destruct (IH _ _ _ _ E _ _ _ _ Hin) as [Hb Hnext].
        split; [exact Hb|]. intros Hlt.
        destruct Hnext as [b2 Hb2]; [lia|].
        exists b2. right. apply in_or_app. now right.
Qed.

End SliceLoop.

(** *** Plans and runs *)

Lemma buildPlan_quantized_size duration budget n q iv :
  buildPlan duration budget = Slices QUANTIZED n q iv -> q = 1%float.
Proof.
  unfold buildPlan.
  destruct (_ <? 1)%float.
  - destruct (_ =? 0); [discriminate|]. intros H. now inversion H.
  - destruct (_ =? 0); discriminate.
Qed.

Lemma nap_sleeps m n iv i e :
  In e (match m with QUANTIZED => quantized_nap n iv | LINEAR => linear_nap end i) ->
  exists d, e = Sleep d.
Proof.
  destruct m; unfold quantized_nap, linear_nap.
  - destruct (i <? n - 1); simpl; intros H; [|contradiction].
    destruct H as [<-|[]]. eauto.
  - simpl. intros [<-|[]]. eauto.
Qed.

(** The run of a non-empty plan is the common loop. *)
Lemma schedule_Slices venue duration budget m n q iv :
  buildPlan duration budget = Slices m n q iv ->
  exists evs final,
    slice_loop venue q
      (match m with QUANTIZED => quantized_nap n iv | LINEAR => linear_nap end)
      (Z.to_nat n) 0 budget = (evs, final)
    /\ schedule venue duration budget = mkRun evs TradingCompleted final.
Proof.
  intros Hp. unfold schedule. rewrite Hp, execute_Slices.
  - destruct (slice_loop _ _ _ _ _ _) as [evs final]. eauto.
  - intros ->. now apply buildPlan_quantized_size in Hp.
Qed.

Lemma schedule_Empty venue duration budget m :
  buildPlan duration budget = Empty m ->
  schedule venue duration budget = mkRun [] NothingToDo budget.
Proof. intros Hp. unfold schedule. now rewrite Hp. Qed.

(** *** Plan construction *)

(** C1: when the rate, rounded to two decimals, is at least 1.0 and the total
    seconds are positive, the plan is LINEAR with as many slices as the
    floor of the total seconds, each of the budget divided by that count,
    one second apart (and empty when the count is 0); budget 100 over 50
    seconds has rate 2.00 and 50 slices of 2.0. *)
Theorem linear_plan :
  (forall duration budget n,
     (0 <? Duration.Seconds duration)%float = true ->
     Float64.int_convertible (Duration.Seconds duration) = true ->
     (1 <=? usdtPerSecond duration budget)%float = true ->
     Float64.floor (Duration.Seconds duration) = Some n ->
     planMode (buildPlan duration budget) = LINEAR
     /\ sliceCount (buildPlan duration budget) = n
     /\ buildPlan duration budget
        = if n =? 0 then Empty LINEAR
          else Slices LINEAR n (budget / Float64.of_int n)%float
                 Duration.Second)
  /\ usdtPerSecond (50 * Duration.Second) 100 = 2%float
  /\ buildPlan (50 * Duration.Second) 100
     = Slices LINEAR 50 2%float Duration.Second.
Proof.
  split; [|split; vm_compute; reflexivity].
  intros duration budget n Hpos Hconv Hrate Hfloor.
  rewrite (floor_to_int _ (ltb_leb _ _ Hpos) Hconv) in Hfloor.
  injection Hfloor as Hn.
  unfold buildPlan. rewrite (leb_not_ltb _ _ Hrate), Hn.
  destruct (n =? 0) eqn:E; simpl; repeat split; auto.
  now apply Z.eqb_eq in E.
Qed.

Lemma linear_plan_witness :
  planMode (buildPlan (50 * Duration.Second) 100) = LINEAR
  /\ sliceCount (buildPlan (50 * Duration.Second) 100) = 50
  /\ buildPlan (50 * Duration.Second) 100
     = Slices LINEAR 50 (100 / Float64.of_int 50)%float Duration.Second.
Proof.
  apply (proj1 linear_plan (50 * Duration.Second) 100%float 50);
    vm_compute; reflexivity.
Defined.

(** C2: when the rate, rounded to two decimals, is below 1.0, the plan is
    QUANTIZED with as many slices as the floor of the budget (the quantum
    being 1.0); with no slice the plan is empty and the run ends at once
    with no attempt and the budget untouched; otherwise every slice is 1.0
    and the interval is the floor of the total seconds divided by the slice
    count, in seconds.  Budget 5 over 3600 seconds gives 5 slices 720 seconds
    apart, budget 0.5 an empty plan. *)
Theorem quantized_plan :
  (forall venue duration budget n,
     (usdtPerSecond duration budget <? 1)%float = true ->
     (0 <=? budget)%float = true ->
     Float64.int_convertible budget = true ->
     Float64.floor budget = Some n ->
     planMode (buildPlan duration budget) = QUANTIZED
     /\ sliceCount (buildPlan duration budget) = n
     /\ (n = 0 ->
         buildPlan duration budget = Empty QUANTIZED
         /\ schedule venue duration budget = mkRun [] NothingToDo budget)
     /\ (n <> 0 ->
         (0 <=? Duration.Seconds duration)%float = true ->
         Float64.int_convertible (Duration.Seconds duration) = true ->
         exists k,
           Float64.floor (Duration.Seconds duration / Float64.of_int n)%float
           = Some k
           /\ buildPlan duration budget
              = Slices QUANTIZED n 1%float (Int64.mul k Duration.Second)))
  /\ buildPlan (3600 * Duration.Second) 5
     = Slices QUANTIZED 5 1%float (720 * Duration.Second)
  /\ buildPlan (3600 * Duration.Second) 0.5 = Empty QUANTIZED
  /\ (forall venue,
        schedule venue (3600 * Duration.Second) 0.5
        = mkRun [] NothingToDo 0.5%float).
Proof.
  split; [|repeat split; intros; vm_compute; reflexivity].
  intros venue duration budget n Hrate Hb Hconv Hfloor.
  pose proof (nonneg_if_finite_leb _ Hb) as Hnn.
  pose proof (floor_nonneg _ _ Hnn Hfloor) as Hn0.
  rewrite (floor_to_int_gen _ Hnn Hconv) in Hfloor. injection Hfloor as Hn.
  pose proof (to_int_range budget) as Hrange. rewrite Hn in Hrange.
  unfold schedule, buildPlan. rewrite Hrate, Hn.
  destruct (n =? 0) eqn:E; simpl.
  - apply Z.eqb_eq in E. repeat split; auto. congruence.
  - apply Z.eqb_neq in E. repeat split; auto; try congruence.
    intros _ Hts Hcts.
    assert (Hn1 : 1 <= n <= Int64.max_int64).
    { unfold Int64.in_range in Hrange.
      apply andb_true_iff in Hrange as [_ H]. apply Z.leb_le in H. lia. }
    assert (Hqn : nonneg_if_finite
                    (Duration.Seconds duration / Float64.of_int n)%float).
    { apply div_nonneg_if_finite; [now apply nonneg_if_finite_leb|].
      intros s m e. apply of_int_pos_sign. lia. }
    pose proof (int_convertible_div _ n Hts Hcts Hn1) as Hq.
    eexists. split; [exact (floor_to_int_gen _ Hqn Hq) | reflexivity].
Qed.

Lemma quantized_plan_witness :
  exists k,
    Float64.floor (Duration.Seconds (3600 * Duration.Second)%Z
                   / Float64.of_int 5)%float = Some k
    /\ buildPlan (3600 * Duration.Second) 5
       = Slices QUANTIZED 5 1%float (Int64.mul k Duration.Second).
Proof.
  refine (proj2 (proj2 (proj2
    (proj1 quantized_plan always_fills (3600 * Duration.Second) 5%float 5
       _ _ _ _))) _ _ _);
    try (vm_compute; reflexivity).
  discriminate.
Defined.

Lemma parseDuration_0s : Parser.parseDuration "0s" = Ok 0.
Proof. vm_compute. reflexivity. Qed.

(** C10: with the zero duration of ["0s"] the run makes no attempt and ends
    normally with the budget untouched, whatever the budget is: the
    division by zero seconds yields an infinity or NaN and no failure. *)
Theorem zero_duration_no_attempts : forall venue budget,
  Parser.parseDuration "0s" = Ok 0
  /\ exists r,
       main venue "0s" budget = Ok r
       /\ attempts (events r) = []
       /\ finalAmount r = budget.
Proof.
  intros venue budget. split; [exact parseDuration_0s|].
  unfold main. rewrite parseDuration_0s.
  eexists. split; [reflexivity|].
  unfold schedule, buildPlan, usdtPerSecond. rewrite Seconds_zero, to_int_zero.
  destruct (_ <? 1)%float eqn:Hrate.
  - apply rate_by_zero_lt_one in Hrate.
    destruct (Float64.to_int budget =? 0); [split; reflexivity|].
    unfold execute.
    destruct (Z.to_nat (Float64.to_int budget)) as [|todo];
      cbn [quantized_loop]; [split; reflexivity|].
    rewrite Hrate. split; reflexivity.
  - split; reflexivity.
Qed.

(** C5: before each attempt the remaining budget is checked against the
    amount of the attempt (the slice size, which is 1.0 in QUANTIZED mode):
    every dispatched attempt passed the check, so none asks for more than
    the remaining budget; and a run either makes all the planned attempts or
    stops at a failed check, which is then its last event, with fewer
    attempts than planned and the normal end of the function. *)
Theorem budget_checked_before_each_attempt : forall venue duration budget,
  let plan := buildPlan duration budget in
  let r := schedule venue duration budget in
  (planMode plan = QUANTIZED -> sliceCount plan <> 0 -> sliceSize plan = 1%float)
  /\ (forall i q b ok b',
        In (Dispatch i q b ok b') (events r) ->
        q = sliceSize plan /\ (b <? q)%float = false)
  /\ ((List.length (attempts (events r)) = Z.to_nat (sliceCount plan)
       /\ forall b q, ~ In (Insufficient b q) (events r))
      \/ (exists pre,
            events r = pre ++ [Insufficient (finalAmount r) (sliceSize plan)]
            /\ (finalAmount r <? sliceSize plan)%float = true
            /\ (List.length (attempts (events r)) < Z.to_nat (sliceCount plan))%nat
            /\ (forall b q, ~ In (Insufficient b q) pre)
            /\ exit r = TradingCompleted)).
Proof.
  intros venue duration budget plan r. subst plan r.
  destruct (buildPlan duration budget) as [m|m n q iv] eqn:Hp.
  - rewrite (schedule_Empty _ _ _ _ Hp). simpl. split; [|split].
    + intros _ H. now elim H.
    + intros ? ? ? ? ? [].
    + left. split; [reflexivity|]. intros ? ? [].
  - destruct (schedule_Slices venue _ _ _ _ _ _ Hp) as (evs & final & Hl & ->).
    simpl. split; [|split].
    + intros -> _. now apply buildPlan_quantized_size in Hp.
    + intros i q' b ok b' Hin.
      destruct (slice_loop_dispatch _ _ _ (nap_sleeps m n iv) _ _ _ _ _ Hl
                  _ _ _ _ _ Hin) as (-> & Hg & _). auto.
    + destruct (slice_loop_count _ _ _ (nap_sleeps m n iv) _ _ _ _ _ Hl)
        as [H | (pre & H1 & H2 & H3 & H4)]; [now left|].
      right. exists pre. auto.
Qed.

(** *** Fault tolerance and the sleeps *)

(** In the second loop a sleep of one second follows every attempt, the
    last one included. *)
Lemma linear_loop_sleeps venue todo : forall i q a evs final,
  linear_loop venue todo i q a = (evs, final) ->
  forall pre e post,
    evs = pre ++ e :: post -> is_dispatch e = true ->
    exists post', post = Sleep Duration.Second :: post'.
Proof.
  induction todo as [|todo IH]; intros i q a evs final; simpl.
  - intros [= <- _] pre e post H. now destruct pre.
  - destruct (a <? q)%float.
    + intros [= <- _] pre e post H He.
      destruct pre as [|x [|y pre]]; inversion H; subst; discriminate.
    + destruct (linear_loop venue todo (i + 1) q _) as [rest fin] eqn:E.
      intros [= <- _] pre e post H He.
      destruct pre as [|x [|y pre]]; inversion H; subst.
      * eauto.
      * discriminate.
      * eapply IH; eauto.
Qed.

(** C9 at budget 100 over ["3s"], every order filled: the slice is the
    float64 quotient 100/3, which exceeds a third of the budget, so that after
    two fills the remaining budget is below the slice and the third attempt
    is not made. *)
Theorem linear_last_slice_skipped :
  let slice := (100 / 3)%float in
  let left1 := (100 - slice)%float in
  let left2 := (left1 - slice)%float in
  main always_fills "3s" 100
  = Ok (schedule always_fills (3 * Duration.Second) 100)
  /\ buildPlan (3 * Duration.Second) 100
     = Slices LINEAR 3 slice Duration.Second
  /\ schedule always_fills (3 * Duration.Second) 100
     = mkRun
         [Dispatch 0 slice 100 true left1; Sleep Duration.Second;
          Dispatch 1 slice left1 true left2; Sleep Duration.Second;
          Insufficient left2 slice]
         TradingCompleted left2
  /\ (left2 <? slice)%float = true
  /\ (0 <? left2)%float = true.
Proof. vm_compute. repeat split. Qed.

(** The first loop at budget 5 over 3600 seconds, every order filled: the
    five attempts are made, 720 seconds apart, and nothing is left. *)
Example quantized_all_slices_made :
  schedule always_fills (3600 * Duration.Second) 5
  = mkRun
      [Dispatch 0 1 5 true 4; Sleep (720 * Duration.Second);
       Dispatch 1 1 4 true 3; Sleep (720 * Duration.Second);
       Dispatch 2 1 3 true 2; Sleep (720 * Duration.Second);
       Dispatch 3 1 2 true 1; Sleep (720 * Duration.Second);
       Dispatch 4 1 1 true 0]
      TradingCompleted 0.
Proof. vm_compute. reflexivity. Qed.

(** C4 at budget 100 over ["3s"] against the venue that fails every third
    dispatch: the third dispatch, the one that would fail, is never made,
    because the budget check stops the loop after two fills. *)
Theorem every_third_venue_two_of_three :
  let r := schedule fails_every_third (3 * Duration.Second) 100 in
  sliceCount (buildPlan (3 * Duration.Second) 100) = 3
  /\ List.length (attempts (events r)) = 2%nat
  /\ List.length (successes (events r)) = 2%nat
  /\ last (events r) (Sleep 0)
     = Insufficient (100 - 100 / 3 - 100 / 3)%float (100 / 3)%float.
Proof. vm_compute. repeat split. Qed.

(** C6 in LINEAR mode: the loop sleeps one second after every attempt, the
    final one included.  Budget 3 over ["3s"] and budget 100 over ["50s"],
    every order filled. *)
Theorem linear_sleeps_after_final_attempt :
  schedule always_fills (3 * Duration.Second) 3
  = mkRun
      [Dispatch 0 1 3 true 2; Sleep Duration.Second;
       Dispatch 1 1 2 true 1; Sleep Duration.Second;
       Dispatch 2 1 1 true 0; Sleep Duration.Second]
      TradingCompleted 0
  /\ (let r := schedule always_fills (50 * Duration.Second) 100 in
      List.length (attempts (events r)) = 50%nat
      /\ last (events r) (Insufficient 0 0) = Sleep Duration.Second).
Proof. vm_compute. repeat split. Qed.

(** A failed attempt leaves the budget as it was, and the next scheduled
    attempt is made. *)
Lemma failure_isolated venue duration budget :
  let plan := buildPlan duration budget in
  let r := schedule venue duration budget in
  forall j q b b',
    In (Dispatch j q b false b') (events r) ->
    b' = b
    /\ (j + 1 < sliceCount plan ->
        exists b2, In (Dispatch (j + 1) q b (venue (j + 1) q) b2) (events r)).
Proof.
  intros plan r. subst plan r.
  destruct (buildPlan duration budget) as [m|m n q iv] eqn:Hp.
  - rewrite (schedule_Empty _ _ _ _ Hp). intros ? ? ? ? [].
  - destruct (schedule_Slices venue _ _ _ _ _ _ Hp) as (evs & final & Hl & ->).
    simpl. intros j q' b b' Hin.
    destruct (slice_loop_failure_isolated _ _ _ (nap_sleeps m n iv) _ _ _ _ _
                Hl _ _ _ _ Hin) as [Hb Hnext].
    split; [exact Hb|]. intros Hlt. apply Hnext. lia.
Qed.

(** *** Budget accounting *)

Lemma finite_nonneg_intro b :
  (0 <=? b)%float = true -> Float64.is_finite b = true -> finite_nonneg b.
Proof.
  intros H0 Hf. unfold finite_nonneg. unfold Float64.is_finite in Hf.
  destruct (Prim2SF b) as [s|s| |s m e] eqn:E; try discriminate; [exact I|].
  now rewrite (nonneg_sign b s m e H0 E).
Qed.

(** With a zero budget the rate is zero or NaN; it is not below 1 only for
    a duration of zero seconds or one that is not a number. *)
Lemma zero_budget_not_linear b t s :
  Prim2SF b = S754_zero s ->
  ((Float64.Round (b / t * 100) / 100) <? 1)%float = false ->
  Float64.to_int t <= 0.
Proof.
  intros Hb. rewrite FloatAxioms.ltb_spec, FloatAxioms.div_spec.
  unfold Float64.to_int.
  assert (H : match Prim2SF t with
              | S754_zero _ | S754_nan => True
              | _ => exists s', Prim2SF (b / t * 100) = S754_zero s'
              end).
  { rewrite FloatAxioms.mul_spec, FloatAxioms.div_spec, Prim2SF_hundred, Hb.
    destruct (Prim2SF t) as [st|st| |st mt et]; try exact I;
      unfold SF64mul, SF64div; cbn [SFdiv SFmul]; eauto. }
  destruct (Prim2SF t) as [st|st| |st mt et] eqn:Et; simpl;
    try (unfold Int64.min_int64; lia).
  destruct H as [s' H].
  rewrite Round_not_finite by (rewrite H; exact I).
  rewrite H, Prim2SF_hundred, Prim2SF_one. discriminate.
Qed.

(** The slice of a LINEAR plan that loops at least once is not negative. *)
Lemma linear_size_nonneg duration budget n q iv :
  finite_nonneg budget ->
  buildPlan duration budget = Slices LINEAR n q iv -> 0 < n ->
  (0 <=? q)%float = true.
Proof.
  intros Hb. unfold buildPlan, usdtPerSecond.
  destruct (_ <? 1)%float eqn:Hrate.
  - destruct (_ =? 0); discriminate.
  - destruct (_ =? 0); [discriminate|]. intros [= <- <- _] Hn.
    rewrite FloatAxioms.leb_spec, Prim2SF_zero, FloatAxioms.div_spec.
    apply SF_nonneg_leb.
    unfold finite_nonneg in Hb.
    destruct (Prim2SF budget) as [s|s| |s m e] eqn:E; try contradiction.
    + pose proof (zero_budget_not_linear _ _ _ E Hrate). lia.
    + destruct s; [contradiction|]. apply SFdiv_pos_nonneg.
      apply of_int_pos_nonneg.
      pose proof (to_int_range (Duration.Seconds duration)) as Hr.
      unfold Int64.in_range, Int64.max_int64 in *.
      apply andb_true_iff in Hr as [_ Hr]. apply Z.leb_le in Hr. lia.
Qed.

Section Monotone.
Variable PlaceOrder : Venue.
Variable size : float.
Variable nap : Z -> list Event.
Hypothesis nap_sleeps : forall i e, In e (nap i) -> exists d, e = Sleep d.
Hypothesis size_nonneg : (0 <=? size)%float = true.

Lemma slice_loop_nonincreasing todo : forall i a evs final,
  finite_nonneg a ->
  slice_loop PlaceOrder size nap todo i a = (evs, final) ->
  forall j q b ok b',
    In (Dispatch j q b ok b') evs -> (b' <=? b)%float = true.
Proof.
  induction todo as [|todo IH]; intros i a evs final Ha; simpl.
  - intros [= <- _] ? ? ? ? ? [].
  - destruct (a <? size)%float eqn:Hg.
    + intros [= <- _] j q b ok b' [Hin|[]]. discriminate.
    + destruct (slice_loop PlaceOrder size nap todo (i + 1) _)
        as [rest fin] eqn:E.
      destruct (sub_le a size Ha size_nonneg Hg) as [Hle Hfin].
      intros [= <- _] j q b ok b' [Hin|Hin].
      * inversion Hin; subst. destruct (PlaceOrder j q); [exact Hle|].
        now apply leb_refl_finite_nonneg.
      * apply in_app_or in Hin as [Hin|Hin].
        { apply nap_sleeps in Hin as [d Hd]. discriminate. }
        eapply IH; [|exact E|exact Hin].
        destruct (PlaceOrder i size); assumption.
Qed.

End Monotone.

Lemma chained_fold evs : forall a final,
  chained a evs final ->
  final = fold_left PrimFloat.sub (map dispatched_amount (successes evs)) a.
Proof.
  induction evs as [|e evs IH]; simpl; intros a final H.
  - exact H.
  - destruct e as [i q b ok b'|d|b q]; simpl.
    + destruct H as (-> & -> & H). destruct ok; simpl; now apply IH.
    + now apply IH.
    + destruct H as [_ H]. now apply IH.
Qed.

(** C3 (as amended): for a finite, non-negative budget, in both modes, the
    remaining budget threads through the run: each attempt starts from what
    the previous one left, a success replaces it by the float64 difference
    with the dispatched amount and a failure leaves it unchanged; it never
    increases; and the final remaining budget is the initial one with the
    amounts of the successful attempts subtracted in turn. *)
Theorem remaining_budget_accounting : forall venue duration budget,
  (0 <=? budget)%float = true -> Float64.is_finite budget = true ->
  let r := schedule venue duration budget in
  chained budget (events r) (finalAmount r)
  /\ (forall i q b ok b',
        In (Dispatch i q b ok b') (events r) -> (b' <=? b)%float = true)
  /\ finalAmount r
     = fold_left PrimFloat.sub
         (map dispatched_amount (successes (events r))) budget.
Proof.
  intros venue duration budget H0 Hf r. subst r.
  pose proof (finite_nonneg_intro _ H0 Hf) as Hb.
  assert (Hc : chained budget (events (schedule venue duration budget))
                 (finalAmount (schedule venue duration budget))
               /\ forall i q b ok b',
                    In (Dispatch i q b ok b')
                      (events (schedule venue duration budget)) ->
                    (b' <=? b)%float = true).
  { destruct (buildPlan duration budget) as [m|m n q iv] eqn:Hp.
    - rewrite (schedule_Empty _ _ _ _ Hp). simpl. split; [reflexivity|].
      intros ? ? ? ? ? [].
    - destruct (schedule_Slices venue _ _ _ _ _ _ Hp)
        as (evs & final & Hl & ->).
      simpl. split.
      + exact (slice_loop_chained _ _ _ (nap_sleeps m n iv) _ _ _ _ _ Hl).
      + destruct (Z.to_nat n) as [|todo] eqn:En.
        { simpl in Hl. injection Hl as <- _. intros ? ? ? ? ? []. }
        assert (Hq : (0 <=? q)%float = true).
        { destruct m.
          - apply buildPlan_quantized_size in Hp. subst q. reflexivity.
          - apply (linear_size_nonneg _ _ _ _ _ Hb Hp). lia. }
        exact (slice_loop_nonincreasing _ _ _ (nap_sleeps m n iv) Hq _ _ _ _
                 _ Hb Hl). }
  destruct Hc as [Hc Hm]. split; [exact Hc|]. split; [exact Hm|].
  now apply chained_fold.
Qed.

Lemma remaining_budget_accounting_witness :
  let r := schedule always_fills (3 * Duration.Second) 100 in
  chained 100 (events r) (finalAmount r)
  /\ (forall i q b ok b',
        In (Dispatch i q b ok b') (events r) -> (b' <=? b)%float = true)
  /\ finalAmount r
     = fold_left PrimFloat.sub
         (map dispatched_amount (successes (events r))) 100%float.
Proof.
  apply (remaining_budget_accounting always_fills (3 * Duration.Second) 100);
    vm_compute; reflexivity.
Defined.

(** C3 as stated fails at budget 100 over ["3s"], every order filled: the two
    dispatched amounts do not add up to the initial minus the final
    remaining budget, neither in float64 arithmetic nor exactly. *)
Lemma accounting_identity_inexact :
  let r := schedule always_fills (3 * Duration.Second) 100 in
  let spent := map dispatched_amount (successes (events r)) in
  (fold_left PrimFloat.add spent 0 =? 100 - finalAmount r)%float = false
  /\ fold_left Z.add (map (exact_units (-47)) spent) 0
     <> exact_units (-47) 100 - exact_units (-47) (finalAmount r).
Proof. vm_compute. split; [reflexivity | discriminate]. Qed.

End SchedulerProperties.

(** ** More facts on binary64 values: exact conversions and quotients *)

Module FloatExact.

Import FloatNotions Scheduler FloatFacts FloatBounds.

Lemma finite_nonneg_leb x : finite_nonneg x -> (0 <=? x)%float = true.
Proof.
  unfold finite_nonneg. rewrite FloatAxioms.leb_spec, Prim2SF_zero.
  destruct (Prim2SF x) as [s|s| |s m e]; simpl; try contradiction.
  - destruct s; reflexivity.
  - destruct s; [contradiction|reflexivity].
Qed.

Lemma not_ltb_leb x y :
  (x <=? x)%float = true -> (y <=? y)%float = true ->
  (x <? y)%float = false -> (y <=? x)%float = true.
Proof.
  rewrite !FloatAxioms.leb_spec, FloatAxioms.ltb_spec. unfold SFleb, SFltb.
  rewrite (SFcompare_antisym (Prim2SF x) (Prim2SF y)).
  destruct (SFcompare (Prim2SF x) (Prim2SF y)) as [[| |]|] eqn:E; simpl;
    try congruence.
  destruct (Prim2SF x) as [sx|sx| |sx mx ex], (Prim2SF y) as [sy|sy| |sy my ey];
    simpl in *; try discriminate; congruence.
Qed.

Lemma leb_zero_refl x : (0 <=? x)%float = true -> (x <=? x)%float = true.
Proof.
  rewrite !FloatAxioms.leb_spec, Prim2SF_zero. unfold SFleb.
  destruct (Prim2SF x) as [s|s| |s m e]; simpl; try discriminate.
  - reflexivity.
  - destruct s; reflexivity.
  - intros _. destruct s; rewrite Z.compare_refl, ?Pos.compare_cont_refl;
      reflexivity.
Qed.

Lemma SFcompare_refl x : x <> S754_nan -> SFcompare x x = Some Eq.
Proof.
  destruct x as [s|s| |s m e]; simpl; try congruence; intros _;
    destruct s; try reflexivity;
    rewrite Z.compare_refl, ?Pos.compare_cont_refl; reflexivity.
Qed.

Lemma is_nan_spec x : is_nan x = true <-> Prim2SF x = S754_nan.
Proof.
  unfold is_nan. rewrite FloatAxioms.eqb_spec. unfold SFeqb.
  split.
  - intros H. destruct (Prim2SF x) as [s|s| |s m e] eqn:E; [| |reflexivity|];
      rewrite SFcompare_refl in H by discriminate; discriminate.
  - intros ->. reflexivity.
Qed.

Lemma nan_ltb_l x y : Prim2SF x = S754_nan -> (x <? y)%float = false.
Proof. intros H. rewrite FloatAxioms.ltb_spec, H. reflexivity. Qed.

Lemma nan_div_l x y : Prim2SF x = S754_nan -> Prim2SF (x / y) = S754_nan.
Proof. intros H. rewrite FloatAxioms.div_spec, H. reflexivity. Qed.

Lemma nan_sub_l x y : Prim2SF x = S754_nan -> Prim2SF (x - y) = S754_nan.
Proof. intros H. rewrite FloatAxioms.sub_spec, H. reflexivity. Qed.

Lemma nan_mul_l x y : Prim2SF x = S754_nan -> Prim2SF (x * y) = S754_nan.
Proof. intros H. rewrite FloatAxioms.mul_spec, H. reflexivity. Qed.

Lemma nan_Round x : Prim2SF x = S754_nan -> Float64.Round x = x.
Proof. intros H. unfold Float64.Round. now rewrite H. Qed.

Lemma not_nan_leb_refl x : is_nan x = false -> (x <=? x)%float = true.
Proof.
  unfold is_nan. rewrite FloatAxioms.eqb_spec, FloatAxioms.leb_spec.
  unfold SFeqb, SFleb. destruct (SFcompare _ _) as [[| |]|]; simpl; congruence.
Qed.
Lemma ltb_not_nan x y : (x <? y)%float = true -> is_nan y = false.
Proof.
  intros H. destruct (is_nan y) eqn:E; [|reflexivity].
  apply is_nan_spec in E. rewrite FloatAxioms.ltb_spec, E in H.
  destruct (Prim2SF x); discriminate.
Qed.

(** An integer below [2 ^ 53] is a binary64 value: its conversion is exact. *)
Lemma of_int_exact n :
  1 <= n < 2 ^ 53 ->
  exists my ey,
    Prim2SF (Float64.of_int n) = S754_finite false my ey
    /\ ey <= 0 /\ Zpos my = n * 2 ^ (- ey).
Proof.
  intros Hn. unfold Float64.of_int.
  replace (n <? 0) with false by (symmetry; apply Z.ltb_ge; lia).
  rewrite of_uint63_spec, Uint63.of_Z_spec.
  rewrite Z.mod_small by (change wB with (2 ^ 63); lia).
  destruct n as [|p|p]; try lia. unfold binary_normalize, binary_round.
  change (Zpos (digits2_pos p)) with (Zdigits2 (Zpos p)).
  set (d := Zdigits2 (Zpos p)).
  assert (Hd1 : 1 <= d) by (apply (Zdigits2_ge_of_pow2_le (Zpos p) 0); simpl; lia).
  assert (Hd53 : d <= 53) by (apply Zdigits2_le_of_lt_pow2; lia).
  pose proof (Zdigits2_lt_pow2 (Zpos p) ltac:(lia)) as Hlt. fold d in Hlt.
  pose proof (Zdigits2_ge_pow2 (Zpos p) ltac:(lia)) as Hge. fold d in Hge.
  pose proof (shl_align_spec p 0 (fexp (d + 0))) as Hs.
  destruct (shl_align p 0 (fexp (d + 0))) as [mz ez].
  destruct Hs as [Hez Hmz]. rewrite fexp_eq in Hez.
  assert (Hez' : ez = d - 53) by lia. clear Hez.
  assert (Hpz : 0 < 2 ^ (0 - ez)) by (apply Z.pow_pos_nonneg; lia).
  assert (Hdz : Zdigits2 (Zpos mz) + ez = d).
  { rewrite Hmz, Zdigits2_mul_pow2 by lia. fold d. lia. }
  unfold binary_round_aux.
  destruct (shr_fexp_spec (Zpos mz) ez loc_Exact ltac:(lia))
    as (R1 & -> & Hm1 & Hi1).
  rewrite Hdz, fexp_eq in *.
  set (k := Z.max 0 (Z.max (d - 53) (-1074) - ez)) in *.
  assert (Hk : k = 0) by lia.
  rewrite Hk in *. change (2 ^ 0) with 1 in *. rewrite Z.div_1_r in Hm1.
  rewrite Z.mod_1_r in Hi1.
  pose proof (round_nearest_even_spec (shr_m R1) R1) as Hrne.
  cbv zeta in Hrne.
  set (m' := round_nearest_even (shr_m R1) (loc_of_shr_record R1)) in *.
  clearbody m'.
  assert (Hexact : m' = Zpos mz).
  { destruct Hrne as [E | [E Hx]]; [congruence|].
    exfalso. apply Hi1 in Hx as [Hx | Hx]; now apply Hx. }
  subst m'.
  destruct (shr_fexp_spec (Zpos mz) (ez + 0) loc_Exact ltac:(lia))
    as (R2 & -> & Hm2 & _).
  rewrite Z.add_0_r in *. rewrite Hdz, fexp_eq in *.
  replace (Z.max 0 (Z.max (d - 53) (-1074) - ez)) with 0 in * by lia.
  change (2 ^ 0) with 1 in *. rewrite Z.div_1_r in Hm2. rewrite Z.add_0_r.
  cbv beta iota. rewrite Hm2.
  replace (ez <=? emax - prec) with true
    by (symmetry; apply Z.leb_le; change (emax - prec) with 971; lia).
  exists mz, ez. split; [reflexivity|]. split; [lia|].
  rewrite Hmz. reflexivity.
Qed.

Lemma to_int_of_int n :
  0 <= n < 2 ^ 53 ->
  Float64.to_int (Float64.of_int n) = n
  /\ Float64.int_convertible (Float64.of_int n) = true
  /\ Float64.floor (Float64.of_int n) = Some n.
Proof.
  intros Hn. destruct (Z.eq_dec n 0) as [->|Hn0].
  { vm_compute. auto. }
  destruct (of_int_exact n ltac:(lia)) as (my & ey & E & Hey & Hmy).
  unfold Float64.to_int, Float64.int_convertible, Float64.floor.
  rewrite E. cbn [Float64.trunc_SF cond_Zopp].
  assert (Hsh : Z.shiftl (Zpos my) ey = n).
  { rewrite Hmy. rewrite <- (Z.opp_involutive ey) at 2.
    rewrite Z.shiftl_opp_r, Z.shiftr_div_pow2 by lia.
    apply Z.div_mul. apply Z.pow_nonzero; lia. }
  rewrite Hsh.
  assert (Hr : Int64.in_range n = true).
  { unfold Int64.in_range, Int64.min_int64, Int64.max_int64.
    apply andb_true_iff. split; apply Z.leb_le; lia. }
  rewrite Hr. auto.
Qed.

Lemma Seconds_whole n :
  0 <= n < 2 ^ 53 ->
  Duration.Seconds (n * Duration.Second) = Float64.of_int n.
Proof.
  intros Hn. unfold Duration.Seconds.
  rewrite Z.quot_mul, Z.rem_mul by (unfold Duration.Second; lia).
  replace (Float64.of_int 0 / 1e9)%float with 0%float by reflexivity.
  destruct (Z.eq_dec n 0) as [->|Hn0]; [reflexivity|].
  destruct (of_int_exact n ltac:(lia)) as (my & ey & E & _).
  apply FloatAxioms.Prim2SF_inj.
  rewrite FloatAxioms.add_spec, E, Prim2SF_zero. reflexivity.
Qed.

(** A quotient does not exceed a representable number that the exact
    quotient does not exceed. *)
Lemma SFdiv_le_bound mx ex my ey mX eX :
  valid_binary (S754_finite false mx ex) = true ->
  valid_binary (S754_finite false my ey) = true ->
  valid_binary (S754_finite false mX eX) = true ->
  Zdigits2 (Zpos mx) + ex - (Zdigits2 (Zpos my) + ey) - 53 <= eX ->
  (forall t, t <= ex - ey -> t <= eX ->
     Zpos mx * 2 ^ (ex - ey - t) <= Zpos mX * 2 ^ (eX - t) * Zpos my) ->
  let R := SF64div (S754_finite false mx ex) (S754_finite false my ey) in
  R = S754_zero false
  \/ exists m2 e2,
       R = S754_finite false m2 e2
       /\ (e2 < eX \/ (e2 = eX /\ (m2 <= mX)%positive)).
Proof.
  intros Vx Vy VX HA H R. subst R.
  pose proof VX as VX'. simpl in VX'. unfold bounded in VX'.
  apply andb_true_iff in VX' as [HcanX HbX]. apply Z.leb_le in HbX.
  destruct (valid_finite _ _ _ Vx) as [Hfx _].
  destruct (valid_finite _ _ _ Vy) as [Hfy _].
  destruct (valid_finite _ _ _ VX) as [HfX _].
  rewrite fexp_eq in Hfx, Hfy, HfX.
  set (d1 := Zdigits2 (Zpos mx)) in *. set (d2 := Zdigits2 (Zpos my)) in *.
  pose proof (Zdigits2_lt_pow2 (Zpos mx) ltac:(lia)) as Hx1. fold d1 in Hx1.
  pose proof (Zdigits2_ge_pow2 (Zpos mx) ltac:(lia)) as Hx2. fold d1 in Hx2.
  pose proof (Zdigits2_lt_pow2 (Zpos my) ltac:(lia)) as Hy1. fold d2 in Hy1.
  assert (Hd1 : 1 <= d1)
    by (apply (Zdigits2_ge_of_pow2_le (Zpos mx) 0); simpl; lia).
  assert (Hd2 : 1 <= d2)
    by (apply (Zdigits2_ge_of_pow2_le (Zpos my) 0); simpl; lia).
  unfold SF64div, SFdiv, SFdiv_core_binary.
  change (Zdigits2 (Zpos mx)) with d1. change (Zdigits2 (Zpos my)) with d2.
  rewrite fexp_eq.
  set (A := d1 + ex - (d2 + ey)) in *.
  assert (HAe : A = d1 + ex - (d2 + ey)) by reflexivity. clearbody A.
  set (e' := Z.min (Z.max (A - 53) (-1074)) (ex - ey)).
  assert (He' : e' = Z.min (Z.max (A - 53) (-1074)) (ex - ey)) by reflexivity.
  clearbody e'.
  set (s := ex - ey - e').
  assert (Hsd : s = ex - ey - e') by reflexivity. clearbody s.
  assert (Hs : 0 <= s) by lia.
  assert (He'X : e' <= eX) by lia.
  set (m' := match s with
             | 0 => Z.pos mx
             | Z.pos _ => Z.shiftl (Z.pos mx) s
             | Z.neg _ => 0
             end).
  assert (Hm' : m' = Zpos mx * 2 ^ s).
  { unfold m'. destruct s as [|ps|ps]; try lia.
    now rewrite Z.shiftl_mul_pow2 by lia. }
  clearbody m'.
  assert (Hps : 0 < 2 ^ s) by (apply Z.pow_pos_nonneg; lia).
  pose proof (Z_div_mod m' (Zpos my) ltac:(lia)) as Hdm.
  destruct (Z.div_eucl m' (Z.pos my)) as [q r].
  destruct Hdm as [Hqr Hr].
  assert (Hq0 : 0 <= q) by nia.
  assert (HpX : 0 < 2 ^ (eX - e')) by (apply Z.pow_pos_nonneg; lia).
  pose proof (H e' ltac:(lia) He'X) as Hb. rewrite <- Hsd, <- Hm' in Hb.
  assert (Hbound : q <= Zpos mX * 2 ^ (eX - e')
                   /\ (r <> 0 -> q < Zpos mX * 2 ^ (eX - e'))).
  { set (K := Zpos mX * 2 ^ (eX - e')) in *. split.
    - destruct (Z.le_gt_cases q K); [assumption|]. exfalso. nia.
    - intros Hr0. destruct (Z.lt_ge_cases q K); [assumption|]. exfalso. nia. }
  destruct Hbound as [Hb1 Hb2].
  apply binary_round_aux_le; auto.
  - (* enough digits in the quotient *)
    rewrite fexp_eq.
    destruct (Z.le_gt_cases e' (-1074)) as [|Hgt]; [lia|].
    assert (He'A : e' <= A - 53) by lia.
    assert (Hs53 : d2 - d1 + 53 <= s) by lia.
    assert (Hq52 : 2 ^ 52 <= q).
    { assert (H1 : 2 ^ (d2 + 52) <= m').
      { rewrite Hm'. replace (d2 + 52) with ((d1 - 1) + (d2 - d1 + 53)) by lia.
        rewrite Z.pow_add_r by lia.
        assert (2 ^ (d2 - d1 + 53) <= 2 ^ s)
          by (apply Z.pow_le_mono_r; lia).
        assert (0 < 2 ^ (d2 - d1 + 53)) by (apply Z.pow_pos_nonneg; lia).
        nia. }
      rewrite Z.pow_add_r in H1 by lia.
      assert (0 < 2 ^ 52) by reflexivity.
      destruct (Z.le_gt_cases (2 ^ 52) q) as [|Hlt]; [assumption|].
      exfalso. assert (q + 1 <= 2 ^ 52) by lia.
      assert (m' < Zpos my * (q + 1)) by nia.
      assert (Zpos my * (q + 1) <= 2 ^ d2 * 2 ^ 52) by nia. lia. }
    pose proof (Zdigits2_ge_of_pow2_le q 52 ltac:(lia) Hq52). lia.
  - intros Hl. apply Hb2. intros Hr0. apply Hl. subst r.
    unfold new_location, new_location_even, new_location_odd.
    now destruct (Z.even (Zpos my)).
Qed.

(** The conversion of an integer from [2 ^ 53] on is at least [2 ^ 53]. *)
Lemma of_int_big n :
  2 ^ 53 <= n <= Int64.max_int64 ->
  exists my ey,
    Prim2SF (Float64.of_int n) = S754_finite false my ey
    /\ 1 <= ey /\ 2 ^ 52 <= Zpos my.
Proof.
  intros Hn. unfold Float64.of_int.
  replace (n <? 0) with false by (symmetry; apply Z.ltb_ge; lia).
  rewrite of_uint63_spec, Uint63.of_Z_spec.
  rewrite Z.mod_small
    by (unfold Int64.max_int64 in Hn; change wB with (2 ^ 63); lia).
  destruct n as [|p|p]; try lia. unfold binary_normalize, binary_round.
  change (Zpos (digits2_pos p)) with (Zdigits2 (Zpos p)).
  set (d := Zdigits2 (Zpos p)).
  assert (Hd54 : 54 <= d)
    by (apply (Zdigits2_ge_of_pow2_le (Zpos p) 53); lia).
  assert (Hd63 : d <= 63).
  { apply Zdigits2_le_of_lt_pow2; [lia|].
    unfold Int64.max_int64 in Hn. lia. }
  pose proof (Zdigits2_lt_pow2 (Zpos p) ltac:(lia)) as Hlt. fold d in Hlt.
  pose proof (Zdigits2_ge_pow2 (Zpos p) ltac:(lia)) as Hge. fold d in Hge.
  pose proof (shl_align_spec p 0 (fexp (d + 0))) as Hs.
  destruct (shl_align p 0 (fexp (d + 0))) as [mz ez].
  destruct Hs as [Hez Hmz]. rewrite fexp_eq in Hez.
  assert (Hez' : ez = 0) by lia. clear Hez. subst ez.
  change (2 ^ (0 - 0)) with 1 in Hmz. rewrite Z.mul_1_r in Hmz.
  assert (Hdz : Zdigits2 (Zpos mz) + 0 = d) by (rewrite Hmz; fold d; lia).
  unfold binary_round_aux.
  destruct (shr_fexp_spec (Zpos mz) 0 loc_Exact ltac:(lia))
    as (R1 & -> & Hm1 & Hi1).
  rewrite Hdz, fexp_eq in *.
  set (k := Z.max 0 (Z.max (d - 53) (-1074) - 0)) in *.
  assert (Hk : k = d - 53) by lia.
  assert (Hpk : 0 < 2 ^ k) by (apply Z.pow_pos_nonneg; lia).
  assert (Hm1b : 2 ^ 52 <= shr_m R1 < 2 ^ 53).
  { rewrite Hm1, Hmz, Hk. split.
    - apply Z.div_le_lower_bound; [apply Z.pow_pos_nonneg; lia|].
      rewrite <- Z.pow_add_r by lia.
      replace (d - 53 + 52) with (d - 1) by lia. exact Hge.
    - apply Z.div_lt_upper_bound; [apply Z.pow_pos_nonneg; lia|].
      rewrite <- Z.pow_add_r by lia.
      replace (d - 53 + 53) with d by lia. exact Hlt. }
  pose proof (round_nearest_even_spec (shr_m R1) R1) as Hrne.
  cbv zeta in Hrne.
  set (m' := round_nearest_even (shr_m R1) (loc_of_shr_record R1)) in *.
  clearbody m'.
  assert (Hm' : 2 ^ 52 <= m' <= 2 ^ 53) by lia.
  assert (Hdm' : 53 <= Zdigits2 m' <= 54).
  { split.
    - apply (Zdigits2_ge_of_pow2_le m' 52); lia.
    - apply Zdigits2_le_of_lt_pow2; [lia|].
      change (2 ^ 54) with (2 ^ 53 * 2). lia. }
  destruct (shr_fexp_spec m' (0 + k) loc_Exact ltac:(lia))
    as (R2 & -> & Hm2 & _).
  rewrite fexp_eq in *.
  set (n2 := Z.max 0 (Z.max (Zdigits2 m' + (0 + k) - 53) (-1074) - (0 + k)))
    in *.
  assert (Hn2 : n2 = Zdigits2 m' - 53) by (unfold n2; lia).
  assert (Hm2b : 2 ^ 52 <= shr_m R2).
  { rewrite Hm2. apply Z.div_le_lower_bound;
      [apply Z.pow_pos_nonneg; lia|].
    rewrite <- Z.pow_add_r by lia.
    replace (n2 + 52) with (Zdigits2 m' - 1) by lia.
    apply Zdigits2_ge_pow2. lia. }
  cbv beta iota.
  destruct (shr_m R2) as [|q|q] eqn:Eq; try lia.
  replace (0 + k + n2 <=? emax - prec) with true
    by (symmetry; apply Z.leb_le; change (emax - prec) with 971; lia).
  exists q, (0 + k + n2). split; [reflexivity|]. split; [lia|exact Hm2b].
Qed.

(** The largest binary64 value below the integer [Q + 1]. *)
Lemma below_next_integer Q :
  0 <= Q < 2 ^ 52 ->
  let g := 53 - Zdigits2 Q in
  exists mX,
    Zpos mX = (Q + 1) * 2 ^ g - 1
    /\ 1 <= g <= 53
    /\ valid_binary (S754_finite false mX (- g)) = true
    /\ Z.shiftl (Zpos mX) (- g) = Q.
Proof.
  intros HQ g.
  assert (Hc : 0 <= Zdigits2 Q <= 52).
  { split; [apply Zdigits2_nonneg|].
    destruct (Z.eq_dec Q 0) as [->|]; [simpl; lia|].
    apply Zdigits2_le_of_lt_pow2; lia. }
  assert (Hg : 1 <= g <= 53) by (unfold g; lia).
  assert (Hpg : 2 <= 2 ^ g).
  { change 2 with (2 ^ 1) at 1. apply Z.pow_le_mono_r; lia. }
  assert (Hup : Q + 1 <= 2 ^ Zdigits2 Q).
  { destruct (Z.eq_dec Q 0) as [->|]; [simpl; lia|].
    pose proof (Zdigits2_lt_pow2 Q ltac:(lia)). lia. }
  assert (Hlow : 2 ^ 52 <= (Q + 1) * 2 ^ g - 1).
  { destruct (Z.eq_dec Q 0) as [E|].
    - assert (Eg : g = 53) by (unfold g; rewrite E; reflexivity).
      rewrite Eg, E. vm_compute. discriminate.
    - pose proof (Zdigits2_ge_pow2 Q ltac:(lia)) as H1.
      assert (Hc1 : 1 <= Zdigits2 Q)
        by (apply (Zdigits2_ge_of_pow2_le Q 0); simpl; lia).
      assert (H2 : 2 ^ 52 = 2 ^ (Zdigits2 Q - 1) * 2 ^ g).
      { rewrite <- Z.pow_add_r by lia. f_equal. unfold g. lia. }
      rewrite H2. nia. }
  assert (Hhigh : (Q + 1) * 2 ^ g - 1 < 2 ^ 53).
  { assert (H2 : 2 ^ 53 = 2 ^ Zdigits2 Q * 2 ^ g).
    { rewrite <- Z.pow_add_r by lia. f_equal. unfold g. lia. }
    rewrite H2. nia. }
  set (M := (Q + 1) * 2 ^ g - 1) in *.
  exists (Z.to_pos M).
  assert (HM : Zpos (Z.to_pos M) = M) by (apply Z2Pos.id; lia).
  split; [exact HM|]. split; [exact Hg|]. split.
  - simpl. unfold bounded, canonical_mantissa.
    change (Zpos (digits2_pos (Z.to_pos M))) with (Zdigits2 (Zpos (Z.to_pos M))).
    rewrite HM.
    assert (Hd : Zdigits2 M = 53).
    { apply Z.le_antisymm.
      - apply Zdigits2_le_of_lt_pow2; lia.
      - apply (Zdigits2_ge_of_pow2_le M 52); lia. }
    rewrite Hd, fexp_eq.
    apply andb_true_iff. split; [apply Z.eqb_eq; lia|].
    apply Z.leb_le. change (emax - prec) with 971. lia.
  - rewrite HM. rewrite Z.shiftl_opp_r, Z.shiftr_div_pow2 by lia.
    unfold M. symmetry. apply (Z.div_unique _ _ _ (2 ^ g - 1)); lia.
Qed.

Lemma Zdigits2_div N n :
  0 <= N -> 1 <= n -> Zdigits2 N - Zdigits2 n <= Zdigits2 (N / n).
Proof.
  intros HN Hn.
  pose proof (Zdigits2_nonneg (N / n)) as H0.
  destruct (Z.le_gt_cases (Zdigits2 N) (Zdigits2 n)) as [|Hgt]; [lia|].
  assert (HNpos : 0 < N).
  { destruct (Z.eq_dec N 0) as [->|]; [|lia].
    pose proof (Zdigits2_nonneg n). simpl in Hgt. lia. }
  pose proof (Zdigits2_nonneg n) as Hdn.
  pose proof (Zdigits2_ge_pow2 N HNpos) as H1.
  pose proof (Zdigits2_lt_pow2 n ltac:(lia)) as H2.
  set (k := Zdigits2 N - Zdigits2 n - 1).
  assert (Hk : 0 <= k) by (unfold k; lia).
  assert (H3 : 2 ^ (Zdigits2 N - 1) = 2 ^ k * 2 ^ Zdigits2 n).
  { rewrite <- Z.pow_add_r by lia. f_equal. unfold k. lia. }
  assert (Hpk : 0 < 2 ^ k) by (apply Z.pow_pos_nonneg; lia).
  assert (H4 : 2 ^ k <= N / n).
  { apply Z.div_le_lower_bound; [lia|]. nia. }
  pose proof (Zdigits2_ge_of_pow2_le (N / n) k Hk H4). unfold k in *. lia.
Qed.

(** The float64 quotient of two integers, truncated, does not exceed their
    integer quotient. *)
Lemma div_of_int_trunc N n :
  0 <= N < 2 ^ 52 -> 1 <= n <= Int64.max_int64 ->
  Float64.int_convertible (Float64.of_int N / Float64.of_int n) = true
  /\ 0 <= Float64.to_int (Float64.of_int N / Float64.of_int n) <= N / n.
Proof.
  intros HN Hn.
  pose proof (Z.div_pos N n ltac:(lia) ltac:(lia)) as HQ0.
  assert (HQN : N / n <= N) by (apply Z.div_le_upper_bound; nia).
  assert (Hrange : forall z, 0 <= z <= N / n -> Int64.in_range z = true).
  { intros z Hz. unfold Int64.in_range, Int64.min_int64, Int64.max_int64.
    apply andb_true_iff. split; apply Z.leb_le; lia. }
  unfold Float64.int_convertible, Float64.to_int.
  pose proof (Prim2SF_valid (Float64.of_int N / Float64.of_int n)) as VR.
  pose proof (Prim2SF_valid (Float64.of_int N)) as Vx.
  pose proof (Prim2SF_valid (Float64.of_int n)) as Vy.
  rewrite FloatAxioms.div_spec in *.
  destruct (Z.eq_dec N 0) as [->|HN0].
  { destruct (of_int_ge_one n Hn) as (my & ey & Ey & _).
    rewrite Ey. change (Prim2SF (Float64.of_int 0)) with (S754_zero false).
    cbn [SF64div SFdiv xorb Float64.trunc_SF].
    rewrite (Hrange 0) by lia. split; [reflexivity|lia]. }
  destruct (of_int_exact N ltac:(lia)) as (mx & ex & Ex & Hex & Hmx).
  destruct (below_next_integer (N / n) ltac:(lia)) as (mX & HmX & Hg & VX & HtX).
  set (g := 53 - Zdigits2 (N / n)) in *.
  set (Q := N / n) in *.
  pose proof (Z.div_mod N n ltac:(lia)) as Hdm. fold Q in Hdm.
  pose proof (Z.mod_pos_bound N n ltac:(lia)) as Hmod.
  set (r := N mod n) in *.
  assert (Hpg : 0 < 2 ^ g) by (apply Z.pow_pos_nonneg; lia).
  assert (Hpa : 0 < 2 ^ (- ex)) by (apply Z.pow_pos_nonneg; lia).
  assert (HdN : Zdigits2 (Zpos mx) + ex = Zdigits2 N).
  { rewrite Hmx, Zdigits2_mul_pow2 by lia. lia. }
  assert (HdN52 : Zdigits2 N <= 52) by (apply Zdigits2_le_of_lt_pow2; lia).
  rewrite Ex in *.
  assert (Hbound :
            exists my ey,
              Prim2SF (Float64.of_int n) = S754_finite false my ey
              /\ Zdigits2 (Zpos mx) + ex - (Zdigits2 (Zpos my) + ey) - 53 <= - g
              /\ forall t, t <= ex - ey -> t <= - g ->
                   Zpos mx * 2 ^ (ex - ey - t)
                   <= Zpos mX * 2 ^ (- g - t) * Zpos my).
  { destruct (Z.lt_ge_cases n (2 ^ 53)) as [Hsmall | Hbig].
    - destruct (of_int_exact n ltac:(lia)) as (my & ey & Ey & Hey & Hmy).
      exists my, ey. split; [exact Ey|].
      assert (Hpb : 0 < 2 ^ (- ey)) by (apply Z.pow_pos_nonneg; lia).
      split.
      + assert (Hdn : Zdigits2 (Zpos my) + ey = Zdigits2 n).
        { rewrite Hmy, Zdigits2_mul_pow2 by lia. lia. }
        pose proof (Zdigits2_div N n ltac:(lia) ltac:(lia)). fold Q in H.
        unfold g. lia.
      + intros t Ht1 Ht2.
        (* n <= 2 ^ g *)
        assert (Hng : n <= 2 ^ g).
        { destruct (Z.eq_dec Q 0) as [EQ|NQ].
          - assert (Eg : g = 53) by (unfold g; rewrite EQ; reflexivity).
            rewrite Eg. lia.
          - pose proof (Zdigits2_ge_pow2 Q ltac:(lia)) as H1.
            assert (Hc1 : 1 <= Zdigits2 Q)
              by (apply (Zdigits2_ge_of_pow2_le Q 0); simpl; lia).
            assert (H2 : 2 ^ 52 = 2 ^ (Zdigits2 Q - 1) * 2 ^ g).
            { rewrite <- Z.pow_add_r by lia. f_equal. unfold g. lia. }
            assert (0 < 2 ^ (Zdigits2 Q - 1))
              by (apply Z.pow_pos_nonneg; lia).
            nia. }
        assert (Hcore : N * 2 ^ g <= Zpos mX * n).
        { rewrite HmX. nia. }
        set (P := 2 ^ (- ey - g - t)).
        assert (HP : 0 < P) by (apply Z.pow_pos_nonneg; lia).
        rewrite Hmx, Hmy.
        replace (N * 2 ^ (- ex) * 2 ^ (ex - ey - t))
          with (N * 2 ^ g * P).
        2:{ unfold P. rewrite <- !Z.mul_assoc, <- !Z.pow_add_r by lia.
            do 2 f_equal. lia. }
        replace (Zpos mX * 2 ^ (- g - t) * (n * 2 ^ (- ey)))
          with (Zpos mX * n * P).
        2:{ unfold P.
            replace (2 ^ (- ey - g - t)) with (2 ^ (- g - t) * 2 ^ (- ey))
              by (rewrite <- Z.pow_add_r by lia; f_equal; lia).
            ring. }
        apply Z.mul_le_mono_nonneg_r; lia.
    - destruct (of_int_big n ltac:(lia)) as (my & ey & Ey & Hey & Hmy).
      exists my, ey. split; [exact Ey|].
      assert (EQ : Q = 0) by (apply Z.div_small; lia).
      assert (Eg : g = 53) by (unfold g; rewrite EQ; reflexivity).
      split.
      + pose proof (Zdigits2_ge_of_pow2_le (Zpos my) 52 ltac:(lia) Hmy). lia.
      + intros t Ht1 Ht2. rewrite Hmx, HmX, EQ, Eg in *.
        set (u := - 53 - t). assert (Hu : 0 <= u) by (unfold u; lia).
        assert (Hpu : 0 < 2 ^ u) by (apply Z.pow_pos_nonneg; lia).
        replace (N * 2 ^ (- ex) * 2 ^ (ex - ey - t))
          with (N * 2 ^ (- ey - t)).
        2:{ rewrite <- !Z.mul_assoc, <- !Z.pow_add_r by lia.
            do 2 f_equal. lia. }
        assert (H1 : 2 ^ (- ey - t) <= 2 ^ u * 2 ^ 52).
        { rewrite <- Z.pow_add_r by lia. apply Z.pow_le_mono_r; unfold u; lia. }
        assert (0 < 2 ^ (- ey - t)) by (apply Z.pow_pos_nonneg; lia).
        change ((0 + 1) * 2 ^ 53 - 1) with 9007199254740991.
        fold u.
        assert (H2 : N * 2 ^ (- ey - t) <= N * (2 ^ u * 2 ^ 52))
          by (apply Z.mul_le_mono_nonneg_l; lia).
        assert (H3 : N * 2 ^ 52 <= 9007199254740991 * Zpos my).
        { change (2 ^ 52) with 4503599627370496 in *. nia. }
        assert (H4 : 2 ^ u * (N * 2 ^ 52)
                     <= 2 ^ u * (9007199254740991 * Zpos my))
          by (apply Z.mul_le_mono_nonneg_l; lia).
        replace (- (53) - t) with u by (unfold u; lia).
        lia. }
  destruct Hbound as (my & ey & Ey & HA & H).
  rewrite Ey in *.
  destruct (SFdiv_le_bound mx ex my ey mX (- g) Vx Vy VX HA H)
    as [E | (m2 & e2 & E & Hle)]; rewrite E in *.
  - cbn. split; [reflexivity|lia].
  - pose proof (trunc_le_of_bound mX (- g) m2 e2 VX VR Hle) as Ht.
    rewrite HtX in Ht. cbn [Float64.trunc_SF cond_Zopp].
    rewrite (Hrange _ Ht). split; [reflexivity|exact Ht].
Qed.

(** Rounding a value that is not below a representable number [X] gives a
    result that is not below [X]. *)
Lemma binary_round_aux_ge mx ex m e l :
  canonical_mantissa prec emax mx ex = true ->
  0 < m ->
  e <= fexp (Zdigits2 m + e) ->
  Zdigits2 (Zpos mx) + ex <= Zdigits2 m + e ->
  (e <= ex -> Zpos mx * 2 ^ (ex - e) <= m) ->
  binary_round_aux prec emax false m e l = S754_infinity false
  \/ exists m2 e2,
       binary_round_aux prec emax false m e l = S754_finite false m2 e2
       /\ (ex < e2 \/ (e2 = ex /\ (mx <= m2)%positive)).
Proof.
  intros Hcan Hmpos H1 Hdig H2.
  assert (Hm : 0 <= m) by lia.
  apply Z.eqb_eq in Hcan.
  change (Zpos (digits2_pos mx)) with (Zdigits2 (Zpos mx)) in Hcan.
  set (f := fexp (Zdigits2 m + e)) in *.
  assert (Hemin' : -1074 <= ex) by (rewrite <- Hcan, fexp_eq; lia).
  assert (Hf : ex <= f) by (rewrite <- Hcan; unfold f; now apply fexp_le).
  set (n := f - e). assert (Hn : 0 <= n) by (unfold n; lia).
  assert (Hpn : 0 < 2 ^ n) by (apply Z.pow_pos_nonneg; lia).
  unfold binary_round_aux.
  destruct (shr_fexp_spec m e l Hm) as (R1 & E1 & Hm1 & Hi1).
  fold f in E1, Hm1, Hi1.
  replace (Z.max 0 (f - e)) with n in * by (unfold n; lia).
  rewrite E1. replace (e + n) with f by (unfold n; lia).
  set (m' := round_nearest_even (shr_m R1) (loc_of_shr_record R1)).
  pose proof (Zdigits2_ge_pow2 m Hmpos) as Hmge.
  pose proof (Zdigits2_lt_pow2 m Hmpos) as Hmlt.
  pose proof (Zdigits2_ge_pow2 (Zpos mx) ltac:(lia)) as Hxge.
  assert (Hd1 : 1 <= Zdigits2 m)
    by (apply (Zdigits2_ge_of_pow2_le m 0); simpl; lia).
  assert (H0 : 0 <= shr_m R1) by (rewrite Hm1; apply Z.div_pos; lia).
  assert (Hm'ge : shr_m R1 <= m').
  { destruct (round_nearest_even_spec (shr_m R1) R1) as [E | [E _]];
      fold m' in E; lia. }
  (* the shifted mantissa is positive, and at least [mx] when [f = ex] *)
  assert (Hm1pos : 0 < shr_m R1).
  { rewrite Hm1. apply Z.div_str_pos. split; [lia|].
    destruct (Z.eq_dec f ex) as [Ef|Nf].
    - pose proof (H2 ltac:(lia)) as He.
      replace n with (ex - e) by (unfold n; lia).
      assert (0 < 2 ^ (ex - e)) by (apply Z.pow_pos_nonneg; lia). nia.
    - assert (Ef : f = Zdigits2 m + e - 53)
        by (unfold f in *; rewrite fexp_eq in *; lia).
      replace n with (Zdigits2 m - 53) by (unfold n; lia).
      eapply Z.le_trans; [|exact Hmge].
      apply Z.pow_le_mono_r; lia. }
  destruct (shr_fexp_spec m' f loc_Exact) as (R2 & E2 & Hm2 & _); [lia|].
  rewrite E2.
  set (n2 := Z.max 0 (fexp (Zdigits2 m' + f) - f)) in *.
  assert (Hn2 : 0 <= n2) by (unfold n2; lia).
  assert (Hpn2 : 0 < 2 ^ n2) by (apply Z.pow_pos_nonneg; lia).
  assert (Hm'pos : 0 < m') by lia.
  pose proof (Zdigits2_ge_pow2 m' Hm'pos) as Hm'g.
  assert (Hd' : 1 <= Zdigits2 m')
    by (apply (Zdigits2_ge_of_pow2_le m' 0); simpl; lia).
  assert (Hm2pos : 0 < shr_m R2).
  { rewrite Hm2. apply Z.div_str_pos. split; [lia|].
    destruct (Z.eq_dec n2 0) as [->|Hnz]; [simpl; lia|].
    assert (En2 : n2 = Zdigits2 m' - 53)
      by (unfold n2 in *; rewrite fexp_eq in *; lia).
    eapply Z.le_trans; [|exact Hm'g].
    apply Z.pow_le_mono_r; lia. }
  cbv beta iota.
  destruct (shr_m R2) as [|p|p] eqn:Em2; try lia.
  destruct (f + n2 <=? emax - prec); [right | now left].
  exists p, (f + n2). split; [reflexivity|].
  destruct (Z.eq_dec (f + n2) ex) as [Ee|]; [right | left; lia].
  split; [exact Ee|].
  assert (Ef : f = ex) by lia. assert (En2 : n2 = 0) by lia.
  rewrite En2, Z.div_1_r in Hm2.
  assert (Hge : Zpos mx <= shr_m R1).
  { rewrite Hm1. apply Z.div_le_lower_bound; [lia|].
    pose proof (H2 ltac:(lia)) as He.
    replace n with (ex - e) by (unfold n; lia). lia. }
  lia.
Qed.

(** A quotient is not below a representable number that the exact quotient
    is not below. *)
Lemma SFdiv_ge_bound mx ex my ey mX eX :
  valid_binary (S754_finite false mx ex) = true ->
  valid_binary (S754_finite false my ey) = true ->
  valid_binary (S754_finite false mX eX) = true ->
  (forall t, t <= ex - ey -> t <= eX ->
     Zpos mX * 2 ^ (eX - t) * Zpos my <= Zpos mx * 2 ^ (ex - ey - t)) ->
  let R := SF64div (S754_finite false mx ex) (S754_finite false my ey) in
  R = S754_infinity false
  \/ exists m2 e2,
       R = S754_finite false m2 e2
       /\ (eX < e2 \/ (e2 = eX /\ (mX <= m2)%positive)).
Proof.
  intros Vx Vy VX H R. subst R.
  pose proof VX as VX'. simpl in VX'. unfold bounded in VX'.
  apply andb_true_iff in VX' as [HcanX HbX].
  destruct (valid_finite _ _ _ Vx) as [Hfx _].
  destruct (valid_finite _ _ _ Vy) as [Hfy _].
  rewrite fexp_eq in Hfx, Hfy.
  set (d1 := Zdigits2 (Zpos mx)) in *. set (d2 := Zdigits2 (Zpos my)) in *.
  pose proof (Zdigits2_lt_pow2 (Zpos mx) ltac:(lia)) as Hx1. fold d1 in Hx1.
  pose proof (Zdigits2_ge_pow2 (Zpos mx) ltac:(lia)) as Hx2. fold d1 in Hx2.
  pose proof (Zdigits2_lt_pow2 (Zpos my) ltac:(lia)) as Hy1. fold d2 in Hy1.
  assert (Hd1 : 1 <= d1)
    by (apply (Zdigits2_ge_of_pow2_le (Zpos mx) 0); simpl; lia).
  assert (Hd2 : 1 <= d2)
    by (apply (Zdigits2_ge_of_pow2_le (Zpos my) 0); simpl; lia).
  unfold SF64div, SFdiv, SFdiv_core_binary.
  change (Zdigits2 (Zpos mx)) with d1. change (Zdigits2 (Zpos my)) with d2.
  rewrite fexp_eq.
  set (A := d1 + ex - (d2 + ey)) in *.
  assert (HAe : A = d1 + ex - (d2 + ey)) by reflexivity. clearbody A.
  set (e' := Z.min (Z.max (A - 53) (-1074)) (ex - ey)).
  assert (He' : e' = Z.min (Z.max (A - 53) (-1074)) (ex - ey)) by reflexivity.
  clearbody e'.
  set (s := ex - ey - e').
  assert (Hsd : s = ex - ey - e') by reflexivity. clearbody s.
  assert (Hs : 0 <= s) by lia.
  set (m' := match s with
             | 0 => Z.pos mx
             | Z.pos _ => Z.shiftl (Z.pos mx) s
             | Z.neg _ => 0
             end).
  assert (Hm' : m' = Zpos mx * 2 ^ s).
  { unfold m'. destruct s as [|ps|ps]; try lia.
    now rewrite Z.shiftl_mul_pow2 by lia. }
  clearbody m'.
  assert (Hps : 0 < 2 ^ s) by (apply Z.pow_pos_nonneg; lia).
  pose proof (Z_div_mod m' (Zpos my) ltac:(lia)) as Hdm.
  destruct (Z.div_eucl m' (Z.pos my)) as [q r].
  destruct Hdm as [Hqr Hr].
  assert (Hq0 : 0 <= q) by nia.
  destruct (valid_finite _ _ _ VX) as [HfX _]. rewrite fexp_eq in HfX.
  set (dX := Zdigits2 (Zpos mX)) in *.
  assert (Hq52 : -1074 < e' -> 2 ^ 52 <= q).
  { intros Hgt.
    assert (He'A : e' <= A - 53) by lia.
    assert (Hs53 : d2 - d1 + 53 <= s) by lia.
    assert (H1 : 2 ^ (d2 + 52) <= m').
    { rewrite Hm'. replace (d2 + 52) with ((d1 - 1) + (d2 - d1 + 53)) by lia.
      rewrite Z.pow_add_r by lia.
      assert (2 ^ (d2 - d1 + 53) <= 2 ^ s)
        by (apply Z.pow_le_mono_r; lia).
      assert (0 < 2 ^ (d2 - d1 + 53)) by (apply Z.pow_pos_nonneg; lia).
      nia. }
    rewrite Z.pow_add_r in H1 by lia.
    assert (0 < 2 ^ 52) by reflexivity.
    destruct (Z.le_gt_cases (2 ^ 52) q) as [|Hlt]; [assumption|].
    exfalso. assert (q + 1 <= 2 ^ 52) by lia.
    assert (m' < Zpos my * (q + 1)) by nia.
    assert (Zpos my * (q + 1) <= 2 ^ d2 * 2 ^ 52) by nia. lia. }
  (* at the scale of the quotient, [X] is an integer below it *)
  assert (HK : e' <= eX -> Zpos mX * 2 ^ (eX - e') <= q).
  { intros Hle. pose proof (H e' ltac:(lia) Hle) as Hb.
    rewrite <- Hsd, <- Hm' in Hb.
    assert (0 < 2 ^ (eX - e')) by (apply Z.pow_pos_nonneg; lia).
    set (K := Zpos mX * 2 ^ (eX - e')) in *.
    destruct (Z.le_gt_cases K q) as [|Hgt]; [assumption|]. exfalso. nia. }
  assert (Hqpos : 0 < q).
  { destruct (Z.le_gt_cases e' eX) as [Hle|Hgt].
    - pose proof (HK Hle).
      assert (0 < 2 ^ (eX - e')) by (apply Z.pow_pos_nonneg; lia). nia.
    - assert (2 ^ 52 <= q) by (apply Hq52; lia). lia. }
  apply binary_round_aux_ge; auto.
  - (* enough digits in the quotient *)
    rewrite fexp_eq.
    destruct (Z.le_gt_cases e' (-1074)) as [|Hgt]; [lia|].
    pose proof (Hq52 Hgt).
    pose proof (Zdigits2_ge_of_pow2_le q 52 ltac:(lia) H0). lia.
  - fold dX.
    destruct (Z.le_gt_cases e' eX) as [Hle|Hgt].
    + pose proof (HK Hle) as Hb.
      assert (Hd : Zdigits2 (Zpos mX * 2 ^ (eX - e')) <= Zdigits2 q).
      { apply Zdigits2_le; [|exact Hb].
        assert (0 < 2 ^ (eX - e')) by (apply Z.pow_pos_nonneg; lia). nia. }
      rewrite Zdigits2_mul_pow2 in Hd by lia. fold dX in Hd. lia.
    + assert (Hq : 2 ^ 52 <= q) by (apply Hq52; lia).
      pose proof (Zdigits2_ge_of_pow2_le q 52 ltac:(lia) Hq). lia.
Qed.

(** The float64 quotient of two integers, truncated, is their integer
    quotient. *)
Lemma div_of_int_floor N n :
  0 <= N < 2 ^ 52 -> 1 <= n <= Int64.max_int64 ->
  Float64.to_int (Float64.of_int N / Float64.of_int n) = N / n.
Proof.
  intros HN Hn.
  destruct (div_of_int_trunc N n HN Hn) as [Hconv Hle].
  pose proof (Z.div_pos N n ltac:(lia) ltac:(lia)) as HQ0.
  destruct (Z.eq_dec (N / n) 0) as [EQ|NQ]; [lia|].
  assert (Hnle : n <= N).
  { destruct (Z.le_gt_cases n N); [assumption|].
    rewrite Z.div_small in NQ by lia. lia. }
  assert (HQN : N / n <= N) by (apply Z.div_le_upper_bound; nia).
  apply Z.le_antisymm; [apply Hle|].
  revert Hconv Hle. unfold Float64.int_convertible, Float64.to_int.
  pose proof (Prim2SF_valid (Float64.of_int N / Float64.of_int n)) as VR.
  pose proof (Prim2SF_valid (Float64.of_int N)) as Vx.
  pose proof (Prim2SF_valid (Float64.of_int n)) as Vy.
  pose proof (Prim2SF_valid (Float64.of_int (N / n))) as VX.
  rewrite FloatAxioms.div_spec in *.
  destruct (of_int_exact N ltac:(lia)) as (mx & ex & Ex & Hex & Hmx).
  destruct (of_int_exact n ltac:(lia)) as (my & ey & Ey & Hey & Hmy).
  destruct (of_int_exact (N / n) ltac:(lia)) as (mX & eX & EX & HeX & HmX).
  rewrite Ex, Ey in *. rewrite EX in VX.
  pose proof (Z.mul_div_le N n ltac:(lia)) as HQ.
  assert (H : forall t, t <= ex - ey -> t <= eX ->
                Zpos mX * 2 ^ (eX - t) * Zpos my
                <= Zpos mx * 2 ^ (ex - ey - t)).
  { intros t Ht1 Ht2. rewrite Hmx, Hmy, HmX.
    set (P := 2 ^ (- ey - t)).
    assert (HP : 0 < P) by (apply Z.pow_pos_nonneg; lia).
    replace (N / n * 2 ^ (- eX) * 2 ^ (eX - t) * (n * 2 ^ (- ey)))
      with (n * (N / n) * P).
    2:{ unfold P.
        replace (2 ^ (- ey - t)) with (2 ^ (- eX) * 2 ^ (eX - t) * 2 ^ (- ey)).
        - ring.
        - rewrite <- !Z.pow_add_r by lia. f_equal. lia. }
    replace (N * 2 ^ (- ex) * 2 ^ (ex - ey - t)) with (N * P).
    2:{ unfold P. rewrite <- Z.mul_assoc, <- Z.pow_add_r by lia.
        do 2 f_equal. lia. }
    apply Z.mul_le_mono_nonneg_r; lia. }
  destruct (SFdiv_ge_bound mx ex my ey mX eX Vx Vy VX H)
    as [E | (m2 & e2 & E & Hge)]; rewrite E in *.
  - discriminate.
  - intros Hconv Hle. cbn [Float64.trunc_SF cond_Zopp] in *. rewrite Hconv.
    assert (Hge' : eX < e2 \/ (eX = e2 /\ (mX <= m2)%positive))
      by (destruct Hge as [?|[? ?]]; auto).
    pose proof (trunc_le_of_bound m2 e2 mX eX VR VX Hge') as Ht.
    assert (HtX : Z.shiftl (Zpos mX) eX = N / n).
    { rewrite HmX. rewrite <- (Z.opp_involutive eX) at 2.
      rewrite Z.shiftl_opp_r, Z.shiftr_div_pow2 by lia.
      apply Z.div_mul. apply Z.pow_nonzero; lia. }
    lia.
Qed.

(** *** Values that are at least an integer *)

Lemma value_ge_mono J K x : K <= J -> value_ge J x -> value_ge K x.
Proof.
  intros HK. destruct x as [s|s| |s m e]; try contradiction.
  destruct s; [contradiction|]. cbn [value_ge]. intros H.
  assert (0 < 2 ^ (- Z.min e 0)) by (apply Z.pow_pos_nonneg; lia). nia.
Qed.

Lemma value_ge_trunc x n :
  Float64.trunc_SF x = Some n -> 1 <= n -> value_ge n x.
Proof.
  destruct x as [s|s| |s m e]; cbn [Float64.trunc_SF]; try discriminate.
  - intros [= <-]. lia.
  - intros [= <-] Hn.
    assert (H0 : 0 <= Z.shiftl (Zpos m) e) by (apply Z.shiftl_nonneg; lia).
    destruct s; cbn [cond_Zopp value_ge] in *; [lia|].
    destruct (Z.le_gt_cases 0 e) as [He|He].
    + rewrite Z.min_r by lia. rewrite Z.shiftl_mul_pow2 by lia.
      change (- 0) with 0. rewrite Z.sub_0_r, Z.pow_0_r. lia.
    + rewrite Z.min_l, Z.sub_diag by lia.
      rewrite Z.shiftl_div_pow2 by lia. rewrite Z.pow_0_r, Z.mul_1_r.
      rewrite Z.mul_comm. apply Z.mul_div_le. apply Z.pow_pos_nonneg; lia.
Qed.

(** A value that is at least 1 passes the check of the first loop. *)
Lemma value_ge_not_below_one a J :
  1 <= J -> value_ge J (Prim2SF a) -> (a <? 1)%float = false.
Proof.
  intros HJ. rewrite FloatAxioms.ltb_spec, Prim2SF_one.
  pose proof (Prim2SF_valid a) as V.
  destruct (Prim2SF a) as [s|s| |s m e]; try contradiction.
  destruct s; [contradiction|]. intros H. cbn [value_ge] in H.
  destruct (valid_finite _ _ _ V) as [Hf _]. rewrite fexp_eq in Hf.
  pose proof (Zdigits2_lt_pow2 (Zpos m) ltac:(lia)) as Hlt.
  assert (Hp : exists p : positive, (4503599627370496 = p)%positive
                                    /\ Zpos p = 2 ^ 52).
  { eexists. split; reflexivity. }
  destruct Hp as (p & -> & Hp).
  unfold SFltb. cbn [SFcompare].
  destruct (e ?= -52) eqn:Ec.
  - apply Z.compare_eq in Ec. subst e.
    replace (- Z.min (-52) 0) with 52 in H by lia.
    replace (-52 - Z.min (-52) 0) with 0 in H by lia.
    rewrite Z.pow_0_r, Z.mul_1_r in H.
    rewrite Pos.compare_cont_spec. cbn [Pos.switch_Eq].
    destruct (m ?= p)%positive eqn:Em; try reflexivity.
    apply Pos.compare_lt_iff in Em.
    assert (H4 : 1 * 2 ^ 52 <= J * 2 ^ 52)
      by (apply Z.mul_le_mono_nonneg_r; lia).
    exfalso. change (m < p)%positive in Em. lia.
  - exfalso. change (e < -52) in Ec.
    rewrite Z.min_l, Z.sub_diag, Z.pow_0_r, Z.mul_1_r in H by lia.
    assert (Hd : Zdigits2 (Zpos m) <= 53) by lia.
    assert (H1 : 2 ^ Zdigits2 (Zpos m) <= 2 ^ 53)
      by (apply Z.pow_le_mono_r; lia).
    assert (H2 : 2 ^ 53 <= 2 ^ (- e)) by (apply Z.pow_le_mono_r; lia).
    assert (H3 : 0 < 2 ^ (- e)) by (apply Z.pow_pos_nonneg; lia).
    assert (H4 : 1 * 2 ^ (- e) <= J * 2 ^ (- e))
      by (apply Z.mul_le_mono_nonneg_r; lia).
    lia.
  - reflexivity.
Qed.

(** From the order of the canonical representations to that of the
    values, for an integer on the left. *)
Lemma value_ge_of_bound J mX eX m2 e2 :
  valid_binary (S754_finite false mX eX) = true ->
  valid_binary (S754_finite false m2 e2) = true ->
  eX <= 0 -> Zpos mX = J * 2 ^ (- eX) ->
  eX < e2 \/ (e2 = eX /\ (mX <= m2)%positive) ->
  value_ge J (S754_finite false m2 e2).
Proof.
  intros VX V2 HeX HmX Hord. cbn [value_ge].
  destruct (valid_finite _ _ _ VX) as [HfX _].
  destruct (valid_finite _ _ _ V2) as [Hf2 _].
  rewrite fexp_eq in HfX, Hf2.
  pose proof (Zdigits2_lt_pow2 (Zpos mX) ltac:(lia)) as HXlt.
  pose proof (Zdigits2_ge_pow2 (Zpos m2) ltac:(lia)) as H2ge.
  assert (HpX : 0 < 2 ^ (- eX)) by (apply Z.pow_pos_nonneg; lia).
  destruct Hord as [Hlt | [-> Hle]].
  - assert (Hd2 : Zdigits2 (Zpos m2) = 53) by lia.
    rewrite Hd2 in H2ge. change (2 ^ (53 - 1)) with (2 ^ 52) in H2ge.
    assert (HX53 : Zpos mX < 2 ^ 53).
    { eapply Z.lt_le_trans; [exact HXlt|]. apply Z.pow_le_mono_r; lia. }
    destruct (Z.le_gt_cases e2 0) as [He|He].
    + rewrite Z.min_l, Z.sub_diag, Z.pow_0_r, Z.mul_1_r by lia.
      assert (E : 2 ^ (- eX) = 2 ^ (- e2) * 2 ^ (e2 - eX)).
      { rewrite <- Z.pow_add_r by lia. f_equal. lia. }
      assert (H2 : 2 <= 2 ^ (e2 - eX)).
      { change 2 with (2 ^ 1) at 1. apply Z.pow_le_mono_r; lia. }
      assert (H3 : 0 < 2 ^ (- e2)) by (apply Z.pow_pos_nonneg; lia).
      change (2 ^ 53) with (2 ^ 52 * 2) in HX53.
      rewrite HmX, E in HX53.
      set (A := J * 2 ^ (- e2)) in *.
      replace (J * (2 ^ (- e2) * 2 ^ (e2 - eX))) with (A * 2 ^ (e2 - eX))
        in HX53 by (unfold A; ring).
      destruct (Z.le_gt_cases A (Zpos m2)) as [|Hgt]; [assumption|].
      exfalso.
      assert (2 ^ 52 < A) by lia.
      assert (2 ^ 52 * 2 <= A * 2 ^ (e2 - eX)).
      { apply Z.mul_le_mono_nonneg; lia. }
      lia.
    + rewrite Z.min_r by lia. change (- 0) with 0.
      rewrite Z.sub_0_r, Z.pow_0_r, Z.mul_1_r.
      assert (H2 : 2 <= 2 ^ e2).
      { change 2 with (2 ^ 1) at 1. apply Z.pow_le_mono_r; lia. }
      change (2 ^ 53) with (2 ^ 52 * 2) in HX53.
      assert (H3 : 1 * 2 ^ (- eX) <= 2 ^ (- eX)) by lia.
      assert (H4 : J * 1 <= J * 2 ^ (- eX)).
      { destruct (Z.le_gt_cases 0 J); [apply Z.mul_le_mono_nonneg_l; lia|].
        assert (J * 2 ^ (- eX) < 0) by (apply Z.mul_neg_pos; lia).
        rewrite <- HmX in *. lia. }
      assert (H5 : 2 ^ 52 * 2 <= Zpos m2 * 2 ^ e2)
        by (apply Z.mul_le_mono_nonneg; lia).
      lia.
  - rewrite Z.min_l, Z.sub_diag, Z.pow_0_r, Z.mul_1_r by lia. lia.
Qed.

(** A difference that is not below a representable number [X] rounds to a
    result that is not below [X]. *)
Lemma SFsub_ge_bound mx ex my ey mX eX :
  valid_binary (S754_finite false mx ex) = true ->
  valid_binary (S754_finite false my ey) = true ->
  valid_binary (S754_finite false mX eX) = true ->
  (forall t, t <= ex -> t <= ey -> t <= eX ->
     Zpos mX * 2 ^ (eX - t) + Zpos my * 2 ^ (ey - t)
     <= Zpos mx * 2 ^ (ex - t)) ->
  let R := SF64sub (S754_finite false mx ex) (S754_finite false my ey) in
  R = S754_infinity false
  \/ exists m2 e2,
       R = S754_finite false m2 e2
       /\ (eX < e2 \/ (e2 = eX /\ (mX <= m2)%positive)).
Proof.
  intros Vx Vy VX H R. subst R.
  pose proof VX as VX'. simpl in VX'. unfold bounded in VX'.
  apply andb_true_iff in VX' as [HcanX HbX].
  unfold SF64sub, SFsub, cond_Zopp.
  remember (Z.min ex ey) as ez eqn:Eez.
  pose proof (shl_align_spec mx ex ez) as Hsx.
  pose proof (shl_align_spec my ey ez) as Hsy.
  destruct (shl_align mx ex ez) as [Mx ex'].
  destruct (shl_align my ey ez) as [My ey'].
  destruct Hsx as [Hex' HMx]. destruct Hsy as [Hey' HMy].
  assert (ex' = ez) by lia.
  assert (ey' = ez) by lia. clear Hex' Hey'. subst ex' ey'.
  cbn [fst].
  (* the difference at any finer scale *)
  assert (Hscale : forall t, t <= ez ->
            (Zpos Mx - Zpos My) * 2 ^ (ez - t)
            = Zpos mx * 2 ^ (ex - t) - Zpos my * 2 ^ (ey - t)).
  { intros t Ht. rewrite HMx, HMy, Z.mul_sub_distr_r.
    rewrite <- !Z.mul_assoc, <- !Z.pow_add_r by lia.
    replace (ex - ez + (ez - t)) with (ex - t) by lia.
    replace (ey - ez + (ez - t)) with (ey - t) by lia. reflexivity. }
  assert (HM : 0 < Zpos Mx - Zpos My).
  { pose proof (H (Z.min ez eX) ltac:(lia) ltac:(lia) ltac:(lia)) as Hb.
    pose proof (Hscale (Z.min ez eX) ltac:(lia)) as Hs.
    assert (0 < 2 ^ (eX - Z.min ez eX)) by (apply Z.pow_pos_nonneg; lia).
    assert (0 < 2 ^ (ez - Z.min ez eX)) by (apply Z.pow_pos_nonneg; lia).
    assert (0 < Zpos mX * 2 ^ (eX - Z.min ez eX)) by lia.
    nia. }
  unfold binary_normalize.
  destruct (Zpos Mx - Zpos My) as [|p|p] eqn:EM; [lia| |lia].
  unfold binary_round.
  pose proof (shl_align_spec p ez (fexp (Zpos (digits2_pos p) + ez))) as Hsz.
  destruct (shl_align p ez _) as [mz e1].
  destruct Hsz as [He1 Hmz].
  change (Zpos (digits2_pos p)) with (Zdigits2 (Zpos p)) in He1.
  assert (Hpe : 0 < 2 ^ (ez - e1)) by (apply Z.pow_pos_nonneg; lia).
  assert (Hdz : Zdigits2 (Zpos mz) + e1 = Zdigits2 (Zpos p) + ez).
  { rewrite Hmz, Zdigits2_mul_pow2 by lia. lia. }
  apply binary_round_aux_ge; auto; try lia.
  - rewrite Hdz. lia.
  - rewrite Hdz.
    destruct (Z.le_gt_cases ez eX) as [Hle|Hgt].
    + pose proof (H ez ltac:(lia) ltac:(lia) Hle) as Hb.
      pose proof (Hscale ez ltac:(lia)) as Hs.
      rewrite Z.sub_diag, Z.pow_0_r, Z.mul_1_r in Hs.
      assert (Hd : Zdigits2 (Zpos mX * 2 ^ (eX - ez)) <= Zdigits2 (Zpos p)).
      { apply Zdigits2_le; [|lia].
        assert (0 < 2 ^ (eX - ez)) by (apply Z.pow_pos_nonneg; lia). nia. }
      rewrite Zdigits2_mul_pow2 in Hd by lia. lia.
    + pose proof (H eX ltac:(lia) ltac:(lia) ltac:(lia)) as Hb.
      pose proof (Hscale eX ltac:(lia)) as Hs.
      rewrite Z.sub_diag, Z.pow_0_r, Z.mul_1_r in Hb.
      assert (Hd : Zdigits2 (Zpos mX) <= Zdigits2 (Zpos p * 2 ^ (ez - eX))).
      { apply Zdigits2_le; lia. }
      rewrite Zdigits2_mul_pow2 in Hd by lia. lia.
  - intros Hle. rewrite Hmz.
    pose proof (H e1 ltac:(lia) ltac:(lia) Hle) as Hb.
    pose proof (Hscale e1 ltac:(lia)) as Hs. lia.
Qed.

(** Paying 1.0 out of a budget of at least [J] leaves at least [J - 1]. *)
Lemma sub_one_value_ge a J :
  2 <= J <= 2 ^ 53 ->
  value_ge J (Prim2SF a) -> value_ge (J - 1) (Prim2SF (a - 1)).
Proof.
  intros HJ Ha.
  pose proof (value_ge_not_below_one a J ltac:(lia) Ha) as Hlt.
  rewrite FloatAxioms.ltb_spec in Hlt.
  pose proof (Prim2SF_valid (a - 1)) as VR.
  rewrite FloatAxioms.sub_spec in VR |- *.
  pose proof (Prim2SF_valid a) as Va.
  pose proof (Prim2SF_valid 1%float) as V1.
  pose proof (Prim2SF_valid (Float64.of_int (J - 1))) as VX.
  destruct (of_int_exact (J - 1) ltac:(lia)) as (mX & eX & EX & HeX & HmX).
  rewrite EX in VX.
  destruct (Prim2SF a) as [s|s| |s ma ea]; try contradiction.
  destruct s; [contradiction|]. cbn [value_ge] in Ha.
  assert (H1 : exists p, Prim2SF 1 = S754_finite false p (-52)
                          /\ Zpos p = 2 ^ 52).
  { rewrite Prim2SF_one. eexists. split; reflexivity. }
  destruct H1 as (p & E1 & Hp). rewrite E1 in *.
  assert (H : forall t, t <= ea -> t <= -52 -> t <= eX ->
                Zpos mX * 2 ^ (eX - t) + Zpos p * 2 ^ (-52 - t)
                <= Zpos ma * 2 ^ (ea - t)).
  { intros t Ht1 Ht2 Ht3. rewrite HmX, Hp.
    set (z := Z.min ea 0) in *.
    assert (Hz : t <= z) by (unfold z; lia).
    assert (E2 : (J - 1) * 2 ^ (- eX) * 2 ^ (eX - t) = (J - 1) * 2 ^ (- t)).
    { rewrite <- Z.mul_assoc, <- Z.pow_add_r by lia. do 2 f_equal. lia. }
    assert (E3 : 2 ^ 52 * 2 ^ (-52 - t) = 2 ^ (- t)).
    { rewrite <- Z.pow_add_r by lia. f_equal. lia. }
    assert (E4 : 2 ^ (- t) = 2 ^ (- z) * 2 ^ (z - t)).
    { rewrite <- Z.pow_add_r by (unfold z; lia). f_equal. lia. }
    assert (E5 : 2 ^ (ea - t) = 2 ^ (ea - z) * 2 ^ (z - t)).
    { rewrite <- Z.pow_add_r by (unfold z; lia). f_equal. lia. }
    rewrite E2, E3, E5.
    replace ((J - 1) * 2 ^ (- t) + 2 ^ (- t)) with (J * 2 ^ (- t)) by ring.
    rewrite E4, !Z.mul_assoc.
    apply Z.mul_le_mono_nonneg_r; [|exact Ha].
    apply Z.pow_nonneg. lia. }
  pose proof (SFsub_ge_bound ma ea p (-52) mX eX Va V1 VX H) as Hge.
  pose proof (SFsub_finite_le ma ea p (-52) Va V1 Hlt) as Hle.
  cbv zeta in Hge, Hle.
  destruct Hge as [E | (m2 & e2 & E & Hord)].
  - rewrite E in Hle. destruct Hle as [Hle | (? & ? & Hle & _)]; discriminate.
  - rewrite E in VR |- *.
    apply (value_ge_of_bound (J - 1) mX eX m2 e2); auto.
Qed.

End FloatExact.

(** ** Further properties of the duration parser *)

Module RunTimeProperties.

Import Parser ParserProperties.
Local Open Scope string_scope.
Local Open Scope Z_scope.

Lemma wrap_in_range z : Int64.in_range z = true -> Int64.wrap z = z.
Proof.
  unfold Int64.in_range, Int64.wrap, Int64.min_int64, Int64.max_int64.
  intros H. apply andb_true_iff in H as [H1 H2].
  apply Z.leb_le in H1, H2. rewrite Z.mod_small; lia.
Qed.

Lemma wrap_range z : Int64.in_range (Int64.wrap z) = true.
Proof.
  unfold Int64.in_range, Int64.wrap, Int64.min_int64, Int64.max_int64.
  pose proof (Z.mod_pos_bound (z + 2 ^ 63) (2 ^ 64) ltac:(lia)).
  apply andb_true_iff. split; apply Z.leb_le; lia.
Qed.

Lemma wrap_congr z : exists k, Int64.wrap z = z - k * 2 ^ 64.
Proof.
  unfold Int64.wrap. exists ((z + 2 ^ 63) / 2 ^ 64).
  rewrite Z.mod_eq by lia. ring.
Qed.

Lemma unit_nanos_pos u : unit_symbol u = true -> Duration.Second <= unit_nanos u.
Proof.
  intros Hu.
  destruct (unit_symbol_cases u Hu) as [H|[H|[H|[H|[H|H]]]]]; subst;
    vm_compute; discriminate.
Qed.

(** X1: a text of digits followed by one of the units s, m, H, D, W, M, whose
    span fits in 64 bits, parses to exactly the number times the nanoseconds
    of the unit, which is not negative. *)
Theorem parseDuration_exact : forall ds u,
  ds <> EmptyString -> all_digits ds = true -> unit_symbol u = true ->
  magnitude ds * unit_nanos u <= Int64.max_int64 ->
  parseDuration (ds ++ String u EmptyString) = Ok (magnitude ds * unit_nanos u)
  /\ 0 <= magnitude ds * unit_nanos u.
Proof.
  intros ds u Hne Hall Hu Hfit.
  pose proof (magnitude_nonneg ds Hall) as Hm.
  pose proof (unit_nanos_pos u Hu) as Hn. unfold Duration.Second in Hn.
  assert (Hmag : magnitude ds <= Int64.max_int64) by nia.
  rewrite parseDuration_accepted by assumption.
  split; [|nia].
  rewrite wrap_in_range; [reflexivity|].
  unfold Int64.in_range, Int64.min_int64 in *.
  apply andb_true_iff. split; apply Z.leb_le; nia.
Qed.

Lemma parseDuration_exact_witness :
  parseDuration "2H" = Ok (2 * (3600 * Duration.Second)) /\ 0 <= 2 * (3600 * Duration.Second).
Proof.
  apply (parseDuration_exact "2" "H"%char); vm_compute; congruence.
Defined.

(** X2: when the number fits an int but the number times the unit exceeds 64
    bits, [parseDuration] reports no error: the multiplication wraps around,
    and the span returned is the true one less a positive multiple of 2^64.
    The texts 9223372037s and 3559M give negative spans. *)
Theorem parseDuration_overflow_wraps :
  (forall ds u,
    ds <> EmptyString -> all_digits ds = true -> unit_symbol u = true ->
    magnitude ds <= Int64.max_int64 ->
    Int64.max_int64 < magnitude ds * unit_nanos u ->
    exists d k,
      parseDuration (ds ++ String u EmptyString) = Ok d
      /\ Int64.in_range d = true
      /\ 0 < k /\ d = magnitude ds * unit_nanos u - k * 2 ^ 64)
  /\ parseDuration "9223372037s" = Ok (-9223372036709551616)
  /\ parseDuration "3559M" = Ok (-9221816073709551616).
Proof.
  split; [|vm_compute; auto].
  intros ds u Hne Hall Hu Hmag Hover.
  rewrite parseDuration_accepted by assumption.
  destruct (wrap_congr (magnitude ds * unit_nanos u)) as [k Hk].
  pose proof (wrap_range (magnitude ds * unit_nanos u)) as Hr.
  exists (Int64.wrap (magnitude ds * unit_nanos u)), k.
  split; [reflexivity|]. split; [exact Hr|]. split; [|exact Hk].
  unfold Int64.in_range, Int64.max_int64 in *.
  apply andb_true_iff in Hr as [_ Hr]. apply Z.leb_le in Hr. nia.
Qed.

Lemma app_last_inj ds : forall ds' u u',
  ds ++ String u EmptyString = ds' ++ String u' EmptyString ->
  ds = ds' /\ u = u'.
Proof.
  induction ds as [|c ds IH]; intros [|c' ds'] u u' H; simpl in H.
  - inversion H. auto.
  - inversion H as [[Hc Hr]]. destruct ds'; discriminate.
  - inversion H as [[Hc Hr]]. destruct ds; discriminate.
  - inversion H as [[Hc Hr]]. destruct (IH _ _ _ Hr) as [-> ->]. auto.
Qed.

Lemma parseDuration_class ds u :
  ds <> EmptyString -> all_digits ds = true -> unit_class u = true ->
  parseDuration (ds ++ String u EmptyString)
  = if magnitude ds <=? Int64.max_int64 then
      if unit_symbol u then Ok (Int64.wrap (magnitude ds * unit_nanos u))
      else Err InvalidUnit
    else Err (InvalidNumber ErrRange).
Proof.
  intros Hne Hall Hu.
  destruct (magnitude ds <=? Int64.max_int64) eqn:Hmag.
  - destruct (unit_symbol u) eqn:Hs.
    + apply parseDuration_accepted; auto. now apply Z.leb_le.
    + unfold parseDuration. rewrite FindStringSubmatch_accept by assumption.
      rewrite Atoi_digits, Hmag by assumption.
      destruct (unit_class_cases u Hu) as [E|[E|[E|[E|[E|[E|[E|[E|E]]]]]]]];
        subst u; try discriminate Hs; reflexivity.
  - unfold parseDuration. rewrite FindStringSubmatch_accept by assumption.
    rewrite Atoi_digits, Hmag by assumption. reflexivity.
Qed.

Lemma lower_units u :
  unit_class u = true -> unit_symbol u = false ->
  u = "h"%char \/ u = "d"%char \/ u = "w"%char.
Proof.
  intros Hu Hs.
  destruct (unit_class_cases u Hu) as [E|[E|[E|[E|[E|[E|[E|[E|E]]]]]]]];
    subst u; try discriminate Hs; auto.
Qed.

(** X3: the three errors of [parseDuration] sort the rejected texts.  The
    format error is returned exactly for the texts that are not digits
    followed by one character of smhHdDwWM; the number error exactly for such
    texts whose number exceeds the largest int, and it is then the range error
    of [strconv.Atoi]; the unit error exactly for such texts whose number fits
    and whose unit is h, d or w. *)
Theorem parseDuration_errors : forall s,
  let shaped ds u :=
    s = ds ++ String u EmptyString /\ ds <> EmptyString
    /\ all_digits ds = true /\ unit_class u = true in
  (parseDuration s = Err InvalidFormat <-> ~ exists ds u, shaped ds u)
  /\ (forall e, parseDuration s = Err (InvalidNumber e) <->
        e = ErrRange
        /\ exists ds u, shaped ds u /\ Int64.max_int64 < magnitude ds)
  /\ (parseDuration s = Err InvalidUnit <->
        exists ds u, shaped ds u /\ magnitude ds <= Int64.max_int64
          /\ (u = "h"%char \/ u = "d"%char \/ u = "w"%char)).
Proof.
  intros s shaped.
  destruct (FindStringSubmatch_inv s)
    as [Hnone | (ds & u & Hne & Hall & Hu & Hs & Hfind)].
  - assert (Hno : ~ exists ds u, shaped ds u).
    { intros (ds & u & -> & Hne & Hall & Hu).
      rewrite FindStringSubmatch_accept in Hnone by assumption. discriminate. }
    assert (Hp : parseDuration s = Err InvalidFormat).
    { unfold parseDuration. now rewrite Hnone. }
    rewrite Hp. split; [tauto|]. split.
    + intros e. split; [discriminate|].
      intros (_ & ds & u & Hsh & _). elim Hno. eauto.
    + split; [discriminate|]. intros (ds & u & Hsh & _). elim Hno. eauto.
  - assert (Hsh : shaped ds u) by (repeat split; assumption).
    assert (Huniq : forall ds' u', shaped ds' u' -> ds' = ds /\ u' = u).
    { intros ds' u' (Hs' & _). rewrite Hs in Hs'. symmetry in Hs'.
      now apply app_last_inj in Hs'. }
    assert (Hp : parseDuration s
                 = if magnitude ds <=? Int64.max_int64 then
                     if unit_symbol u
                     then Ok (Int64.wrap (magnitude ds * unit_nanos u))
                     else Err InvalidUnit
                   else Err (InvalidNumber ErrRange)).
    { rewrite Hs at 1. now apply parseDuration_class. }
    rewrite Hp. clear Hp.
    destruct (magnitude ds <=? Int64.max_int64) eqn:Hmag.
    + apply Z.leb_le in Hmag. destruct (unit_symbol u) eqn:Hsym.
      * split; [|split].
        -- split; [discriminate|]. intros Hno. elim Hno. eauto.
        -- intros e. split; [discriminate|].
           intros (_ & ds' & u' & Hsh' & Hbig).
           destruct (Huniq _ _ Hsh') as [-> ->]. lia.
        -- split; [discriminate|].
           intros (ds' & u' & Hsh' & _ & Hl).
           destruct (Huniq _ _ Hsh') as [-> ->].
           destruct Hl as [->|[->| ->]]; discriminate Hsym.
      * split; [|split].
        -- split; [discriminate|]. intros Hno. elim Hno. eauto.
        -- intros e. split; [discriminate|].
           intros (_ & ds' & u' & Hsh' & Hbig).
           destruct (Huniq _ _ Hsh') as [-> ->]. lia.
        -- split; [|reflexivity]. intros _. exists ds, u.
           split; [exact Hsh|]. split; [exact Hmag|].
           now apply lower_units.
    + apply Z.leb_gt in Hmag. split; [|split].
      * split; [discriminate|]. intros Hno. elim Hno. eauto.
      * intros e. split.
        -- intros [= <-]. split; [reflexivity|]. eauto.
        -- intros [-> _]. reflexivity.
      * split; [discriminate|].
        intros (ds' & u' & Hsh' & Hle & _).
        destruct (Huniq _ _ Hsh') as [-> ->]. lia.
Qed.





End RunTimeProperties.

(** ** Further properties of the runs *)

Module RunProperties.

Import FloatNotions Scheduler FloatFacts SchedulerProperties FloatExact Naps.
Import FloatBounds.

Section NeverNegative.
Variable PlaceOrder : Venue.
Variable size : float.
Variable nap : Z -> list Event.
Hypothesis nap_sleeps : forall i e, In e (nap i) -> exists d, e = Sleep d.
Hypothesis size_nonneg : (0 <=? size)%float = true.

Lemma slice_loop_nonneg todo : forall i a evs final,
  finite_nonneg a ->
  slice_loop PlaceOrder size nap todo i a = (evs, final) ->
  finite_nonneg final
  /\ forall j q b ok b',
       In (Dispatch j q b ok b') evs -> finite_nonneg b /\ finite_nonneg b'.
Proof.
  induction todo as [|todo IH]; intros i a evs final Ha; simpl.
  - intros [= <- <-]. split; [exact Ha|]. intros ? ? ? ? ? [].
  - destruct (a <? size)%float eqn:Hg.
    + intros [= <- <-]. split; [exact Ha|].
      intros j q b ok b' [Hin|[]]. discriminate.
    + destruct (slice_loop PlaceOrder size nap todo (i + 1) _)
        as [rest fin] eqn:E.
      destruct (sub_le a size Ha size_nonneg Hg) as [_ Hfin].
      assert (Ha' : finite_nonneg
                      (if PlaceOrder i size then (a - size)%float else a))
        by (destruct (PlaceOrder i size); assumption).
      destruct (IH _ _ _ _ Ha' E) as [Hf Hd].
      intros [= <- <-]. split; [exact Hf|].
      intros j q b ok b' [Hin|Hin].
      * inversion Hin; subst. auto.
      * apply in_app_or in Hin as [Hin|Hin].
        { apply nap_sleeps in Hin as [d Hd']. discriminate. }
        eapply Hd; exact Hin.
Qed.

End NeverNegative.

(** X5: from a finite amount that is not negative, the amount left is never
    negative, after each order and at the end of the run, and no order is for
    more than the amount available when it is placed; in both modes and
    whatever the venue answers. *)
Theorem remaining_budget_never_negative : forall venue duration budget,
  (0 <=? budget)%float = true -> Float64.is_finite budget = true ->
  let r := schedule venue duration budget in
  (0 <=? finalAmount r)%float = true
  /\ forall i q b ok b',
       In (Dispatch i q b ok b') (events r) ->
       (q <=? b)%float = true /\ (0 <=? b')%float = true.
Proof.
  intros venue duration budget H0 Hf r. subst r.
  pose proof (finite_nonneg_intro _ H0 Hf) as Hb.
  destruct (buildPlan duration budget) as [m|m n q iv] eqn:Hp.
  - rewrite (schedule_Empty _ _ _ _ Hp). simpl. split; [exact H0|].
    intros ? ? ? ? ? [].
  - destruct (schedule_Slices venue _ _ _ _ _ _ Hp)
      as (evs & final & Hl & ->).
    simpl.
    destruct (Z.to_nat n) as [|todo] eqn:En.
    { simpl in Hl. injection Hl as <- <-. split; [exact H0|].
      intros ? ? ? ? ? []. }
    assert (Hq : (0 <=? q)%float = true).
    { destruct m.
      - apply buildPlan_quantized_size in Hp. subst q. reflexivity.
      - apply (linear_size_nonneg _ _ _ _ _ Hb Hp). lia. }
    destruct (slice_loop_nonneg _ _ _ (nap_sleeps m n iv) Hq _ _ _ _ _ Hb Hl)
      as [Hfin Hd].
    split; [now apply finite_nonneg_leb|].
    intros i q' b ok b' Hin.
    destruct (Hd _ _ _ _ _ Hin) as [Hb1 Hb2].
    destruct (slice_loop_dispatch _ _ _ (nap_sleeps m n iv) _ _ _ _ _ Hl
                _ _ _ _ _ Hin) as (-> & Hg & _).
    split; [|now apply finite_nonneg_leb].
    apply not_ltb_leb; auto using leb_zero_refl, finite_nonneg_leb.
Qed.

Lemma remaining_budget_never_negative_witness :
  let r := schedule fails_every_third (3 * Duration.Second) 100 in
  (0 <=? finalAmount r)%float = true
  /\ forall i q b ok b',
       In (Dispatch i q b ok b') (events r) ->
       (q <=? b)%float = true /\ (0 <=? b')%float = true.
Proof.
  apply (remaining_budget_never_negative fails_every_third
           (3 * Duration.Second) 100); vm_compute; reflexivity.
Defined.

(** *** Failures alone never stop the loop *)

Section AllFail.
Variable PlaceOrder : Venue.
Variable size : float.
Variable nap : Z -> list Event.
Hypothesis nap_sleeps : forall i e, In e (nap i) -> exists d, e = Sleep d.
Hypothesis all_fail : forall i, PlaceOrder i size = false.

Lemma slice_loop_all_fail todo : forall i a evs final,
  (a <? size)%float = false ->
  slice_loop PlaceOrder size nap todo i a = (evs, final) ->
  final = a
  /\ List.length (attempts evs) = todo
  /\ (forall b q, ~ In (Insufficient b q) evs)
  /\ (forall j q b ok b', In (Dispatch j q b ok b') evs ->
        ok = false /\ b = a /\ b' = a).
Proof.
  induction todo as [|todo IH]; intros i a evs final Hg; simpl.
  - intros [= <- <-]. split; [reflexivity|]. split; [reflexivity|].
    split; [intros ? ? [] | intros ? ? ? ? ? []].
  - rewrite Hg, all_fail. cbv iota.
    destruct (slice_loop PlaceOrder size nap todo (i + 1) a)
      as [rest fin] eqn:E.
    destruct (IH _ _ _ _ Hg E) as (-> & Hlen & Hno & Hd).
    intros [= <- <-]. split; [reflexivity|].
    cbn [attempts filter is_dispatch]. fold (attempts (nap i ++ rest)).
    rewrite (attempts_app), (attempts_nap _ nap_sleeps). simpl.
    split; [congruence|]. split.
    + intros b q [Hin|Hin]; [discriminate|].
      apply in_app_or in Hin as [Hin|Hin]; [|now apply (Hno b q)].
      apply nap_sleeps in Hin as [d Hd']. discriminate.
    + intros j q b ok b' [Hin|Hin].
      * inversion Hin; subst. auto.
      * apply in_app_or in Hin as [Hin|Hin]; [|now apply (Hd _ _ _ _ _ Hin)].
        apply nap_sleeps in Hin as [d Hd']. discriminate.
Qed.

End AllFail.

(** X6: when every order fails and the amount covers one slice, the errors do
    not stop the run: all the planned attempts are made, each with the whole
    initial amount available, the stop for an insufficient amount never
    occurs, and the final amount is the initial one. *)
Theorem failures_never_stop_the_run : forall venue duration budget,
  (forall i q, venue i q = false) ->
  (budget <? sliceSize (buildPlan duration budget))%float = false ->
  let plan := buildPlan duration budget in
  let r := schedule venue duration budget in
  List.length (attempts (events r)) = Z.to_nat (sliceCount plan)
  /\ finalAmount r = budget
  /\ (forall b q, ~ In (Insufficient b q) (events r))
  /\ (forall j q b ok b', In (Dispatch j q b ok b') (events r) ->
        ok = false /\ b = budget /\ b' = budget).
Proof.
  intros venue duration budget Hfail Hg plan r. subst plan r.
  destruct (buildPlan duration budget) as [m|m n q iv] eqn:Hp.
  - rewrite (schedule_Empty _ _ _ _ Hp). simpl.
    split; [reflexivity|]. split; [reflexivity|].
    split; [intros ? ? [] | intros ? ? ? ? ? []].
  - destruct (schedule_Slices venue _ _ _ _ _ _ Hp)
      as (evs & final & Hl & ->).
    simpl in *.
    destruct (slice_loop_all_fail venue q _ (nap_sleeps m n iv)
                (fun i => Hfail i q) _ _ _ _ _ Hg Hl) as (H1 & H2 & H3 & H4).
    auto.
Qed.

Lemma failures_never_stop_the_run_witness :
  let venue : Venue := fun _ _ => false in
  let plan := buildPlan (3 * Duration.Second) 100 in
  let r := schedule venue (3 * Duration.Second) 100 in
  List.length (attempts (events r)) = Z.to_nat (sliceCount plan)
  /\ finalAmount r = 100%float
  /\ (forall b q, ~ In (Insufficient b q) (events r))
  /\ (forall j q b ok b', In (Dispatch j q b ok b') (events r) ->
        ok = false /\ b = 100%float /\ b' = 100%float).
Proof.
  apply (failures_never_stop_the_run (fun _ _ => false)
           (3 * Duration.Second) 100); [reflexivity | vm_compute; reflexivity].
Defined.

(** *** What the loops sleep *)


Lemma linear_loop_naps venue todo : forall i q a evs final,
  linear_loop venue todo i q a = (evs, final) ->
  List.length (sleeps evs) = List.length (attempts evs)
  /\ forall d, In (Sleep d) evs -> d = Duration.Second.
Proof.
  induction todo as [|todo IH]; intros i q a evs final; simpl.
  - intros [= <- _]. split; [reflexivity | intros ? []].
  - destruct (a <? q)%float.
    + intros [= <- _]. split; [reflexivity|].
      intros d [H|[]]. discriminate.
    + destruct (linear_loop venue todo (i + 1) q _) as [rest fin] eqn:E.
      destruct (IH _ _ _ _ _ E) as [Hlen Hd].
      intros [= <- _]. split.
      * simpl. fold (sleeps rest) (attempts rest). now rewrite Hlen.
      * intros d [H|[H|H]]; [discriminate | congruence | now apply Hd].
Qed.

Lemma quantized_loop_naps venue todo : forall i n iv a evs final,
  i + Z.of_nat todo = n ->
  quantized_loop venue todo i n iv a = (evs, final) ->
  List.length (sleeps evs)
  = (if Nat.eqb (List.length (attempts evs)) todo
     then Nat.pred (List.length (attempts evs))
     else List.length (attempts evs))
  /\ (forall d, In (Sleep d) evs -> d = iv)
  /\ (forall pre d, evs <> pre ++ [Sleep d]).
Proof.
  induction todo as [|todo IH]; intros i n iv a evs final Hn; simpl.
  - intros [= <- _]. split; [reflexivity|]. split; [intros ? []|].
    intros [|? ?] d; discriminate.
  - destruct (a <? 1)%float.
    + intros [= <- _]. split; [reflexivity|]. split.
      * intros d [H|[]]. discriminate.
      * intros [|? [|? ?]] d; discriminate.
    + destruct (quantized_loop venue todo (i + 1) n iv _)
        as [rest fin] eqn:E.
      assert (Hn' : i + 1 + Z.of_nat todo = n) by lia.
      destruct (IH _ _ _ _ _ _ Hn' E) as (Hlen & Hd & Hlast).
      intros [= <- _].
      destruct todo as [|todo'].
      * simpl in E. injection E as <- _.
        replace (i <? n - 1) with false by (symmetry; apply Z.ltb_ge; lia).
        simpl. split; [reflexivity|]. split; [intros d [H|[]]; discriminate|].
        intros [|? [|? ?]] d; discriminate.
      * replace (i <? n - 1) with true by (symmetry; apply Z.ltb_lt; lia).
        cbn [app sleeps attempts filter is_sleep is_dispatch List.length].
        fold (sleeps rest) (attempts rest). rewrite Hlen.
        split; [|split].
        -- cbn [Nat.eqb].
           destruct (Nat.eqb (List.length (attempts rest)) (S todo')) eqn:Ea.
           ++ apply Nat.eqb_eq in Ea. rewrite Ea. reflexivity.
           ++ reflexivity.
        -- intros d [H|[H|H]]; [discriminate | congruence | now apply Hd].
        -- intros pre d H.
           destruct pre as [|x [|y pre]]; try discriminate.
           ++ inversion H as [[Hx Hy Hr]]. subst rest. simpl in E.
              destruct (_ <? 1)%float; [discriminate|].
              destruct (quantized_loop venue todo' _ n iv _). discriminate.
           ++ inversion H as [[Hx Hy Hr]]. now apply Hlast in Hr.
Qed.


(** *** A budget that is not a number *)

Lemma linear_loop_nan venue todo : forall i q a evs final,
  Prim2SF a = S754_nan ->
  linear_loop venue todo i q a = (evs, final) ->
  Prim2SF final = S754_nan
  /\ List.length (attempts evs) = todo
  /\ (forall b s, ~ In (Insufficient b s) evs).
Proof.
  induction todo as [|todo IH]; intros i q a evs final Ha; simpl.
  - intros [= <- <-]. split; [exact Ha|]. split; [reflexivity | intros ? ? []].
  - rewrite (nan_ltb_l a q Ha).
    destruct (linear_loop venue todo (i + 1) q _) as [rest fin] eqn:E.
    apply IH in E.
    + destruct E as (Hf & Hlen & Hno). intros [= <- <-].
      split; [exact Hf|]. split; [simpl; fold (attempts rest); congruence|].
      intros b s [H|[H|H]]; try discriminate. now apply (Hno b s).
    + destruct (venue i q); [now apply nan_sub_l | exact Ha].
Qed.

(** X8: an amount that is not a number passes every check.  The plan is LINEAR
    with [int(totalSeconds)] slices of NaN; since no comparison with NaN
    holds, the stop for an insufficient amount never occurs, every planned
    attempt is made, and the final amount is NaN. *)
Theorem nan_budget_passes_every_check : forall venue duration budget,
  is_nan budget = true ->
  let n := Float64.to_int (Duration.Seconds duration) in
  let r := schedule venue duration budget in
  buildPlan duration budget
  = (if n =? 0 then Empty LINEAR
     else Slices LINEAR n (budget / Float64.of_int n)%float Duration.Second)
  /\ is_nan (budget / Float64.of_int n)%float = true
  /\ List.length (attempts (events r)) = Z.to_nat n
  /\ (forall b s, ~ In (Insufficient b s) (events r))
  /\ is_nan (finalAmount r) = true.
Proof.
  intros venue duration budget Hnan n r. subst r.
  apply is_nan_spec in Hnan.
  assert (Hrate : (usdtPerSecond duration budget <? 1)%float = false).
  { apply nan_ltb_l. unfold usdtPerSecond. apply nan_div_l.
    rewrite nan_Round; apply nan_mul_l, nan_div_l, Hnan. }
  assert (Hp : buildPlan duration budget
               = if n =? 0 then Empty LINEAR
                 else Slices LINEAR n (budget / Float64.of_int n)%float
                        Duration.Second).
  { unfold buildPlan. rewrite Hrate. reflexivity. }
  split; [exact Hp|]. split; [apply is_nan_spec, nan_div_l, Hnan|].
  unfold schedule. rewrite Hp.
  destruct (n =? 0) eqn:En.
  - apply Z.eqb_eq in En. rewrite En. simpl.
    split; [reflexivity|]. split; [intros ? ? []|]. now apply is_nan_spec.
  - simpl.
    destruct (linear_loop venue (Z.to_nat n) 0 _ budget) as [evs final] eqn:E.
    destruct (linear_loop_nan _ _ _ _ _ _ _ Hnan E) as (Hf & Hlen & Hno).
    simpl. split; [exact Hlen|]. split; [exact Hno|]. now apply is_nan_spec.
Qed.

Lemma nan_budget_passes_every_check_witness :
  let r := schedule fails_every_third (3 * Duration.Second) nan in
  List.length (attempts (events r)) = 3%nat
  /\ (forall b s, ~ In (Insufficient b s) (events r))
  /\ is_nan (finalAmount r) = true.
Proof.
  destruct (nan_budget_passes_every_check fails_every_third
              (3 * Duration.Second) nan eq_refl) as (_ & _ & H1 & H2 & H3).
  cbv zeta. split; [exact H1|]. split; [exact H2 | exact H3].
Defined.

Lemma linear_size_sign duration budget n q iv :
  finite_nonneg budget ->
  buildPlan duration budget = Slices LINEAR n q iv -> 0 < n ->
  SF_nonneg (Prim2SF q).
Proof.
  intros Hb. unfold buildPlan, usdtPerSecond.
  destruct (_ <? 1)%float eqn:Hrate.
  - destruct (_ =? 0); discriminate.
  - destruct (_ =? 0); [discriminate|]. intros [= <- <- _] Hn.
    rewrite FloatAxioms.div_spec.
    unfold finite_nonneg in Hb.
    destruct (Prim2SF budget) as [s|s| |s m e] eqn:E; try contradiction.
    + pose proof (zero_budget_not_linear _ _ _ E Hrate). lia.
    + destruct s; [contradiction|]. apply SFdiv_pos_nonneg.
      apply of_int_pos_nonneg.
      pose proof (to_int_range (Duration.Seconds duration)) as Hr.
      unfold Int64.in_range, Int64.max_int64 in *.
      apply andb_true_iff in Hr as [_ Hr]. apply Z.leb_le in Hr. lia.
Qed.

(** *** Orders of one unit *)

Section WholeUnits.
Variable PlaceOrder : Venue.
Variable nap : Z -> list Event.
Hypothesis nap_sleeps : forall i e, In e (nap i) -> exists d, e = Sleep d.

(** Orders of 1.0 out of a budget that holds as many units as there are
    iterations left: no check fails. *)
Lemma slice_loop_whole_units todo : forall i a evs final,
  Z.of_nat todo <= 2 ^ 53 ->
  (todo <> O -> value_ge (Z.of_nat todo) (Prim2SF a)) ->
  slice_loop PlaceOrder 1 nap todo i a = (evs, final) ->
  List.length (attempts evs) = todo
  /\ (forall b q, ~ In (Insufficient b q) evs).
Proof.
  induction todo as [|todo IH]; intros i a evs final Hb Ha;
    cbn [slice_loop].
  - intros [= <- <-]. split; [reflexivity | intros ? ? []].
  - pose proof (Ha ltac:(discriminate)) as Hge.
    rewrite (value_ge_not_below_one a (Z.of_nat (S todo))) by (auto; lia).
    set (a' := if PlaceOrder i 1%float then (a - 1)%float else a).
    destruct (slice_loop PlaceOrder 1 nap todo (i + 1) a')
      as [rest fin] eqn:E.
    assert (Ha' : todo <> O -> value_ge (Z.of_nat todo) (Prim2SF a')).
    { intros Hne. unfold a'. destruct (PlaceOrder i 1%float).
      - replace (Z.of_nat todo) with (Z.of_nat (S todo) - 1) by lia.
        apply sub_one_value_ge; [lia | exact Hge].
      - apply (value_ge_mono (Z.of_nat (S todo))); [lia | exact Hge]. }
    destruct (IH _ _ _ _ ltac:(lia) Ha' E) as (Hlen & Hno).
    intros [= <- <-].
    cbn [attempts filter is_dispatch]. fold (attempts (nap i ++ rest)).
    rewrite attempts_app, (attempts_nap _ nap_sleeps). simpl.
    split; [congruence|].
    intros b q [Hin|Hin]; [discriminate|].
    apply in_app_or in Hin as [Hin|Hin]; [|now apply (Hno b q)].
    apply nap_sleeps in Hin as [d Hd']. discriminate.
Qed.

End WholeUnits.

Lemma buildPlan_quantized_count duration budget n q iv :
  buildPlan duration budget = Slices QUANTIZED n q iv ->
  n = Float64.to_int budget.
Proof.
  unfold buildPlan.
  destruct (_ <? 1)%float.
  - destruct (_ =? 0); [discriminate|]. intros H. now inversion H.
  - destruct (_ =? 0); discriminate.
Qed.

Lemma to_int_value_ge x :
  1 <= Float64.to_int x -> value_ge (Float64.to_int x) (Prim2SF x).
Proof.
  unfold Float64.to_int.
  destruct (Float64.trunc_SF (Prim2SF x)) as [z|] eqn:E;
    [|unfold Int64.min_int64; lia].
  destruct (Int64.in_range z); [|unfold Int64.min_int64; lia].
  now apply value_ge_trunc.
Qed.

(** X9: in QUANTIZED mode with at most 2^53 slices, whatever the venue
    answers, the run makes every planned attempt and never stops for an
    insufficient amount: the subtractions of 1.0 leave at least as many units
    as there are attempts to come. *)
Theorem quantized_run_makes_every_attempt : forall venue duration budget,
  planMode (buildPlan duration budget) = QUANTIZED ->
  sliceCount (buildPlan duration budget) <= 2 ^ 53 ->
  let plan := buildPlan duration budget in
  let r := schedule venue duration budget in
  List.length (attempts (events r)) = Z.to_nat (sliceCount plan)
  /\ (forall b q, ~ In (Insufficient b q) (events r)).
Proof.
  intros venue duration budget Hm Hn plan r. subst plan r.
  destruct (buildPlan duration budget) as [m|m n q iv] eqn:Hp.
  - rewrite (schedule_Empty _ _ _ _ Hp). simpl.
    split; [reflexivity | intros ? ? []].
  - cbn [planMode sliceCount] in *. subst m.
    destruct (schedule_Slices venue _ _ _ _ _ _ Hp)
      as (evs & final & Hl & ->).
    pose proof (buildPlan_quantized_size _ _ _ _ _ Hp) as ->.
    pose proof (buildPlan_quantized_count _ _ _ _ _ Hp) as Hc.
    cbn [events].
    apply (slice_loop_whole_units venue _ (nap_sleeps QUANTIZED n iv)
             (Z.to_nat n) 0 budget evs final); [lia| |exact Hl].
    intros Hne. rewrite Z2Nat.id by lia. rewrite Hc.
    apply to_int_value_ge. lia.
Qed.

Lemma quantized_run_makes_every_attempt_witness :
  let plan := buildPlan (3600 * Duration.Second) 5 in
  let r := schedule fails_every_third (3600 * Duration.Second) 5 in
  List.length (attempts (events r)) = Z.to_nat (sliceCount plan)
  /\ (forall b q, ~ In (Insufficient b q) (events r)).
Proof.
  apply (quantized_run_makes_every_attempt fails_every_third
           (3600 * Duration.Second) 5);
    [vm_compute; reflexivity | vm_compute; discriminate].
Defined.

End RunProperties.

(** ** Run-time texts and the runs they give *)

Module RunTimeRuns.

Import FloatNotions Scheduler FloatFacts SchedulerProperties FloatExact Naps.
Import Parser ParserProperties RunTimeProperties Units RunProperties.
Local Open Scope Z_scope.

Lemma unit_nanos_seconds u :
  unit_symbol u = true ->
  unit_nanos u = unit_seconds u * Duration.Second /\ 1 <= unit_seconds u.
Proof.
  intros Hu.
  destruct (unit_symbol_cases u Hu) as [H|[H|[H|[H|[H|H]]]]]; subst;
    split; try reflexivity; vm_compute; discriminate.
Qed.

Lemma whole_seconds_plan N budget :
  0 <= N < 2 ^ 52 ->
  buildPlan (N * Duration.Second) budget
  = if (usdtPerSecond (N * Duration.Second)%Z budget <? 1)%float then
      let n := Float64.to_int budget in
      if n =? 0 then Empty QUANTIZED
      else Slices QUANTIZED n 1%float
             (Int64.mul
                (Float64.to_int (Float64.of_int N / Float64.of_int n)%float)
                Duration.Second)
    else
      if N =? 0 then Empty LINEAR
      else Slices LINEAR N (budget / Float64.of_int N)%float Duration.Second.
Proof.
  intros HN. unfold buildPlan.
  rewrite (Seconds_whole N) by lia.
  destruct (to_int_of_int N ltac:(lia)) as (-> & _). reflexivity.
Qed.

(** X10: an accepted run time whose span fits in 64 bits is a whole number N
    of seconds: [Seconds()] is exactly [float64(N)], [int(Seconds())] is N,
    and when the rate is not below 1 the plan is LINEAR with exactly N slices
    of the amount divided by [float64(N)], one second apart (empty when N is
    0). *)
Theorem run_time_is_a_whole_number_of_seconds : forall ds u,
  ds <> EmptyString -> all_digits ds = true -> unit_symbol u = true ->
  magnitude ds * unit_nanos u <= Int64.max_int64 ->
  let N := magnitude ds * unit_seconds u in
  parseDuration (ds ++ String u EmptyString) = Ok (N * Duration.Second)
  /\ Duration.Seconds (N * Duration.Second) = Float64.of_int N
  /\ Float64.to_int (Duration.Seconds (N * Duration.Second)) = N
  /\ forall budget,
       (usdtPerSecond (N * Duration.Second)%Z budget <? 1)%float = false ->
       buildPlan (N * Duration.Second) budget
       = if N =? 0 then Empty LINEAR
         else Slices LINEAR N (budget / Float64.of_int N)%float
                Duration.Second.
Proof.
  intros ds u Hne Hall Hu Hfit N.
  destruct (unit_nanos_seconds u Hu) as [Hns Hus].
  pose proof (magnitude_nonneg ds Hall) as Hm.
  assert (HN : 0 <= N < 2 ^ 52).
  { unfold N. unfold Int64.max_int64, Duration.Second in *. nia. }
  assert (Hmag : magnitude ds <= Int64.max_int64).
  { unfold Int64.max_int64, Duration.Second in *. nia. }
  split; [|split; [|split]].
  - rewrite parseDuration_accepted by assumption.
    rewrite wrap_in_range.
    + f_equal. unfold N. rewrite Hns. ring.
    + unfold Int64.in_range, Int64.min_int64, Int64.max_int64,
        Duration.Second in *.
      apply andb_true_iff. split; apply Z.leb_le; nia.
  - apply Seconds_whole. lia.
  - rewrite Seconds_whole by lia. now apply to_int_of_int; lia.
  - intros budget Hrate. rewrite whole_seconds_plan by exact HN.
    now rewrite Hrate.
Qed.

Lemma run_time_is_a_whole_number_of_seconds_witness :
  parseDuration "2H" = Ok (7200 * Duration.Second)
  /\ Float64.to_int (Duration.Seconds (7200 * Duration.Second)) = 7200.
Proof.
  destruct (run_time_is_a_whole_number_of_seconds "2" "H"%char)
    as (H1 & _ & H2 & _); try reflexivity; [discriminate | discriminate|].
  split; [exact H1 | exact H2].
Defined.

(** *** The sleeps fit in the run time *)

Lemma slept_all_equal iv evs :
  (forall d, In (Sleep d) evs -> d = iv) ->
  slept evs = Z.of_nat (List.length (sleeps evs)) * Z.max 0 iv.
Proof.
  induction evs as [|e evs IH]; intros H; [reflexivity|].
  assert (IH' : slept evs = Z.of_nat (List.length (sleeps evs)) * Z.max 0 iv)
    by (apply IH; intros d Hd; apply H; now right).
  destruct e as [i q b ok b'|d|b q]; cbn [slept fold_right sleeps filter is_sleep];
    fold (slept evs) (sleeps evs); try exact IH'.
  rewrite (H d (or_introl eq_refl)), IH'. cbn [List.length]. lia.
Qed.

Lemma quantized_loop_attempts venue todo : forall i n iv a evs final,
  quantized_loop venue todo i n iv a = (evs, final) ->
  (List.length (attempts evs) <= todo)%nat.
Proof.
  induction todo as [|todo IH]; intros i n iv a evs final; simpl.
  - intros [= <- _]. simpl. lia.
  - destruct (a <? 1)%float.
    + intros [= <- _]. simpl. lia.
    + destruct (quantized_loop venue todo (i + 1) n iv _) as [rest fin] eqn:E.
      apply IH in E. intros [= <- _].
      cbn [attempts filter is_dispatch List.length].
      fold (attempts ((if i <? n - 1 then [Sleep iv] else []) ++ rest)).
      unfold attempts. rewrite filter_app.
      destruct (i <? n - 1); simpl; fold (attempts rest); lia.
Qed.

Lemma linear_loop_attempts venue todo : forall i q a evs final,
  linear_loop venue todo i q a = (evs, final) ->
  (List.length (attempts evs) <= todo)%nat.
Proof.
  induction todo as [|todo IH]; intros i q a evs final; simpl.
  - intros [= <- _]. simpl. lia.
  - destruct (a <? q)%float.
    + intros [= <- _]. simpl. lia.
    + destruct (linear_loop venue todo (i + 1) q _) as [rest fin] eqn:E.
      apply IH in E. intros [= <- _]. simpl. fold (attempts rest). lia.
Qed.

Lemma whole_seconds_run_fits venue N budget :
  0 <= N <= 9223372036 ->
  slept (events (schedule venue (N * Duration.Second) budget))
  <= N * Duration.Second.
Proof.
  intros HN. unfold schedule.
  rewrite whole_seconds_plan by lia.
  destruct (_ <? 1)%float.
  - cbv zeta. destruct (Float64.to_int budget =? 0) eqn:En0; [simpl; unfold Duration.Second; lia|].
    apply Z.eqb_neq in En0.
    set (n := Float64.to_int budget) in *.
    set (k := Float64.to_int (Float64.of_int N / Float64.of_int n)%float).
    cbn [execute].
    destruct (quantized_loop venue (Z.to_nat n) 0 n (Int64.mul k Duration.Second)
                budget) as [evs final] eqn:E.
    cbn [events].
    destruct (Z.le_gt_cases n 0) as [Hneg|Hpos].
    { replace (Z.to_nat n) with 0%nat in E by lia. simpl in E.
      injection E as <- _. simpl. unfold Duration.Second. lia. }
    pose proof (to_int_range budget) as Hr. fold n in Hr.
    unfold Int64.in_range in Hr. apply andb_true_iff in Hr as [_ Hr].
    apply Z.leb_le in Hr.
    destruct (div_of_int_trunc N n ltac:(lia) ltac:(lia)) as [_ Hk].
    fold k in Hk.
    assert (HQ : n * (N / n) <= N) by (apply Z.mul_div_le; lia).
    assert (Hiv : Int64.mul k Duration.Second = k * Duration.Second).
    { unfold Int64.mul. apply wrap_in_range.
      unfold Int64.in_range, Int64.min_int64, Int64.max_int64, Duration.Second.
      apply andb_true_iff. split; apply Z.leb_le; nia. }
    rewrite Hiv in E.
    assert (Hn' : 0 + Z.of_nat (Z.to_nat n) = n) by lia.
    destruct (quantized_loop_naps _ _ _ _ _ _ _ _ Hn' E) as (Hlen & Hd & _).
    pose proof (quantized_loop_attempts _ _ _ _ _ _ _ _ E) as Hatt.
    rewrite (slept_all_equal _ _ Hd).
    assert (Hs : Z.of_nat (List.length (sleeps evs)) <= n - 1).
    { rewrite Hlen.
      destruct (Nat.eqb _ _) eqn:Ee.
      - apply Nat.eqb_eq in Ee. lia.
      - apply Nat.eqb_neq in Ee. lia. }
    unfold Duration.Second in *. nia.
  - destruct (N =? 0) eqn:EN; [simpl; unfold Duration.Second; lia|].
    cbn [execute].
    destruct (linear_loop venue (Z.to_nat N) 0 _ budget) as [evs final] eqn:E.
    cbn [events].
    destruct (linear_loop_naps _ _ _ _ _ _ _ E) as [Hlen Hd].
    pose proof (linear_loop_attempts _ _ _ _ _ _ _ E) as Hatt.
    rewrite (slept_all_equal _ _ Hd), Hlen.
    unfold Duration.Second. lia.
Qed.

(** X11: for an accepted run time whose span fits in 64 bits, the sleeps of
    the run add up to no more than the run time, in both modes, whatever the
    amount is and whatever the venue answers. *)
Theorem sleeps_fit_in_the_run_time : forall venue ds u budget,
  ds <> EmptyString -> all_digits ds = true -> unit_symbol u = true ->
  magnitude ds * unit_nanos u <= Int64.max_int64 ->
  exists r,
    Scheduler.main venue (ds ++ String u EmptyString) budget = Ok r
    /\ slept (events r) <= magnitude ds * unit_nanos u.
Proof.
  intros venue ds u budget Hne Hall Hu Hfit.
  destruct (unit_nanos_seconds u Hu) as [Hns Hus].
  pose proof (magnitude_nonneg ds Hall) as Hm.
  set (N := magnitude ds * unit_seconds u).
  assert (HN : 0 <= N <= 9223372036).
  { unfold N. unfold Int64.max_int64, Duration.Second in *. nia. }
  assert (Hmag : magnitude ds <= Int64.max_int64).
  { unfold Int64.max_int64, Duration.Second in *. nia. }
  assert (Hd : magnitude ds * unit_nanos u = N * Duration.Second)
    by (unfold N; rewrite Hns; ring).
  unfold Scheduler.main.
  rewrite parseDuration_accepted by assumption.
  rewrite wrap_in_range.
  - eexists. split; [reflexivity|]. rewrite Hd.
    now apply whole_seconds_run_fits.
  - unfold Int64.in_range, Int64.min_int64, Int64.max_int64,
      Duration.Second in *.
    apply andb_true_iff. split; apply Z.leb_le; nia.
Qed.

Lemma sleeps_fit_in_the_run_time_witness :
  exists r,
    Scheduler.main always_fills "1H" 5 = Ok r
    /\ slept (events r) <= 1 * (3600 * Duration.Second).
Proof.
  apply (sleeps_fit_in_the_run_time always_fills "1" "H"%char 5);
    try reflexivity; discriminate.
Defined.

(** *** The interval of the first branch *)

(** X12: for a run time of N whole seconds and an amount whose integer part n
    is at least 1, the QUANTIZED plan has n slices of 1.0 spaced by exactly
    the integer quotient of N by n, in seconds: the float64 division and its
    truncation lose nothing, and n intervals fit in the run time. *)
Theorem quantized_interval_is_the_integer_quotient : forall N budget,
  0 <= N <= 9223372036 ->
  planMode (buildPlan (N * Duration.Second) budget) = QUANTIZED ->
  1 <= Float64.to_int budget ->
  let n := Float64.to_int budget in
  buildPlan (N * Duration.Second) budget
  = Slices QUANTIZED n 1%float (N / n * Duration.Second)
  /\ n * (N / n * Duration.Second) <= N * Duration.Second.
Proof.
  intros N budget HN Hm Hn n.
  rewrite whole_seconds_plan in Hm |- * by lia.
  destruct (_ <? 1)%float.
  2:{ destruct (N =? 0); discriminate. }
  cbv zeta. fold n.
  destruct (n =? 0) eqn:En0; [apply Z.eqb_eq in En0; lia|].
  pose proof (to_int_range budget) as Hr. fold n in Hr.
  unfold Int64.in_range in Hr. apply andb_true_iff in Hr as [_ Hr].
  apply Z.leb_le in Hr.
  rewrite (div_of_int_floor N n) by lia.
  pose proof (Z.div_pos N n ltac:(lia) ltac:(lia)) as HQ0.
  assert (HQ : n * (N / n) <= N) by (apply Z.mul_div_le; lia).
  split.
  - f_equal. unfold Int64.mul. apply wrap_in_range.
    unfold Int64.in_range, Int64.min_int64, Int64.max_int64, Duration.Second.
    apply andb_true_iff. split; apply Z.leb_le; nia.
  - unfold Duration.Second. nia.
Qed.

Lemma quantized_interval_is_the_integer_quotient_witness :
  buildPlan (3600 * Duration.Second) 7
  = Slices QUANTIZED 7 1%float (514 * Duration.Second).
Proof.
  destruct (quantized_interval_is_the_integer_quotient 3600 7) as [H _];
    [lia | vm_compute; reflexivity | vm_compute; discriminate|].
  exact H.
Defined.

End RunTimeRuns.

Module StringsProperties.
Import Strings.
Local Open Scope string_scope.

Lemma substring_prefix p : forall s, substring 0 (String.length p) (p ++ s) = p.
Proof.
  induction p as [|c p IH]; intros s; simpl.
  - destruct s; reflexivity.
  - now rewrite IH.
Qed.

Lemma substring_all s : substring 0 (String.length s) s = s.
Proof. induction s as [|c s IH]; simpl; [reflexivity | now rewrite IH]. Qed.

Lemma substring_suffix p : forall s,
  substring (String.length p) (String.length s) (p ++ s) = s.
Proof.
  induction p as [|c p IH]; intros s; simpl.
  - apply substring_all.
  - apply IH.
Qed.

Lemma length_append p s :
  String.length (p ++ s) = (String.length p + String.length s)%nat.
Proof. induction p as [|c p IH]; simpl; [reflexivity | now rewrite IH]. Qed.

Lemma substring_split n : forall s,
  (n <= String.length s)%nat ->
  s = substring 0 n s ++ substring n (String.length s - n) s.
Proof.
  induction n as [|n IH]; intros s Hn.
  - rewrite Nat.sub_0_r, substring_all. destruct s; reflexivity.
  - destruct s as [|c s]; simpl in *; [lia|].
    f_equal. apply IH. lia.
Qed.

Lemma HasSuffix_app p suffix : HasSuffix (p ++ suffix) suffix = true.
Proof.
  unfold HasSuffix. rewrite length_append.
  replace (String.length p + String.length suffix - String.length suffix)%nat
    with (String.length p) by lia.
  rewrite substring_suffix, String.eqb_refl.
  rewrite andb_true_r. apply Nat.leb_le. lia.
Qed.

Lemma HasSuffix_inv s suffix :
  HasSuffix s suffix = true ->
  s = substring 0 (String.length s - String.length suffix) s ++ suffix.
Proof.
  unfold HasSuffix. intros H. apply andb_true_iff in H as [Hlen Heq].
  apply Nat.leb_le in Hlen. apply String.eqb_eq in Heq.
  pose proof (substring_split (String.length s - String.length suffix) s
                ltac:(lia)) as Hsp.
  replace (String.length s - (String.length s - String.length suffix))%nat
    with (String.length suffix) in Hsp by lia.
  rewrite Heq in Hsp. exact Hsp.
Qed.

Lemma TrimSuffix_app p suffix : TrimSuffix (p ++ suffix) suffix = p.
Proof.
  unfold TrimSuffix. rewrite HasSuffix_app, length_append.
  replace (String.length p + String.length suffix - String.length suffix)%nat
    with (String.length p) by lia.
  apply substring_prefix.
Qed.

Lemma HasSuffix_TrimSuffix s suffix :
  HasSuffix s suffix = true -> s = TrimSuffix s suffix ++ suffix.
Proof.
  intros H. unfold TrimSuffix. rewrite H. now apply HasSuffix_inv.
Qed.

End StringsProperties.

Module ClientProperties.
Import Client.
Local Open Scope string_scope.

Section Lookup.
Variable ParseFloat : string -> result float error.

Lemma usdt_free_asset_free balances :
  usdt_free ParseFloat balances = asset_free ParseFloat "USDT" balances.
Proof.
  induction balances as [|b rest IH]; simpl; [reflexivity|].
  destruct (Asset b =? "USDT"); [|exact IH].
  destruct (ParseFloat (Free b)); reflexivity.
Qed.

(** X13: [GetUSDTBalance] returns what [GetAssetBalance] returns for the asset
    USDT, the errors and their texts included, whatever the account request
    gave. *)
Theorem GetUSDTBalance_is_GetAssetBalance : forall GetAccountInfo,
  GetUSDTBalance ParseFloat GetAccountInfo
  = GetAssetBalance ParseFloat GetAccountInfo "USDT".
Proof.
  intros [accountInfo|err]; simpl; [apply usdt_free_asset_free | reflexivity].
Qed.

Lemma asset_free_skip asset pre : forall rest,
  (forall b, In b pre -> Asset b <> asset) ->
  asset_free ParseFloat asset (pre ++ rest)%list
  = asset_free ParseFloat asset rest.
Proof.
  induction pre as [|b pre IH]; intros rest Hpre; simpl; [reflexivity|].
  destruct (String.eqb_spec (Asset b) asset) as [E|_].
  - elim (Hpre b (or_introl eq_refl) E).
  - apply IH. intros b' Hb'. apply Hpre. now right.
Qed.

(** X14: [GetAssetBalance] answers from the first balance of the asset in the
    list of the account: its free amount as parsed, or the error of the parse
    with the asset named; when the list has no balance of the asset, the error
    is that the balance of the asset is not found. *)
Theorem GetAssetBalance_first_match : forall asset accountInfo,
  (forall pre balance rest,
     Balances accountInfo = (pre ++ balance :: rest)%list ->
     (forall b, In b pre -> Asset b <> asset) ->
     Asset balance = asset ->
     GetAssetBalance ParseFloat (Ok accountInfo) asset
     = match ParseFloat (Free balance) with
       | Ok free => Ok free
       | Err err => Err ("error parsing " ++ asset ++ " balance: " ++ err)
       end)
  /\ ((forall b, In b (Balances accountInfo) -> Asset b <> asset) ->
      GetAssetBalance ParseFloat (Ok accountInfo) asset
      = Err (asset ++ " balance not found")).
Proof.
  intros asset accountInfo. split.
  - intros pre balance rest Hb Hpre Ha. simpl. rewrite Hb.
    rewrite asset_free_skip by exact Hpre. simpl.
    rewrite Ha, String.eqb_refl.
    destruct (ParseFloat (Free balance)); reflexivity.
  - intros Hno. simpl.
    rewrite <- (app_nil_r (Balances accountInfo)).
    now rewrite asset_free_skip.
Qed.

End Lookup.

End ClientProperties.

Module BuyerProperties.
Import FloatNotions FloatFacts FloatExact.
Import Client Strings Buyer StringsProperties.
Local Open Scope string_scope.

Section MainFacts.
Variable unicodeUpper : string -> string.
Variable ParseFloat : string -> result float error.


Lemma main_cases flags exchange :
  (turned_down unicodeUpper flags
   /\ exists why, Buyer.main unicodeUpper ParseFloat flags exchange
                  = Exit1 [] why)
  \/ (~ turned_down unicodeUpper flags
      /\ (ToUpper unicodeUpper (side flags) = "BUY"
          \/ ToUpper unicodeUpper (side flags) = "SELL")
      /\ exists duration,
           Parser.parseDuration (totalRunTime flags) = Ok duration
           /\ Buyer.main unicodeUpper ParseFloat flags exchange
              = after_flags unicodeUpper ParseFloat flags exchange duration).
Proof.
  unfold turned_down, Buyer.main.
  destruct (String.eqb_spec (apiKey flags) "") as [Ha|Ha];
    [left; split; [auto | eexists; reflexivity]|].
  destruct (String.eqb_spec (secretKey flags) "") as [Hs|Hs];
    [left; split; [auto | eexists; reflexivity]|].
  cbn [orb].
  destruct (Parser.parseDuration (totalRunTime flags)) as [duration|e];
    [|left; split; [eauto 6 | eexists; reflexivity]].
  destruct (HasSuffix (symbol flags) "USDT") eqn:Hq.
  - destruct (ToUpper unicodeUpper (side flags) =? "BUY") eqn:Eb;
      [|destruct (ToUpper unicodeUpper (side flags) =? "SELL") eqn:El];
      cbn [negb andb].
    + apply String.eqb_eq in Eb as Hb.
      right. split; [|split; [auto | exists duration; split; [reflexivity|]]].
      * intros [H|[H|[[e H]|[[H1 H2]|H]]]]; congruence.
      * unfold after_flags. rewrite Eb. reflexivity.
    + apply String.eqb_eq in El as Hl.
      right. split; [|split; [auto | exists duration; split; [reflexivity|]]].
      * intros [H|[H|[[e H]|[[H1 H2]|H]]]]; congruence.
      * unfold after_flags. rewrite Eb. reflexivity.
    + apply String.eqb_neq in Eb, El.
      left. split; [auto 8 | eexists; reflexivity].
  - left. split; [auto 8|].
    destruct (negb _ && negb _); eexists; reflexivity.
Qed.

Lemma after_flags_queries flags exchange duration :
  (forall why, after_flags unicodeUpper ParseFloat flags exchange duration <> Exit1 [] why)
  /\ forall queries sym sd available amount run,
       after_flags unicodeUpper ParseFloat flags exchange duration
       = Returned queries sym sd available amount run ->
       queries = [TickerQuery (symbol flags); AccountQuery]
       /\ sym = symbol flags /\ sd = ToUpper unicodeUpper (side flags).
Proof.
  unfold after_flags.
  destruct (GetCurrentPrice ParseFloat _) as [price|err];
    [|split; [discriminate|discriminate]].
  cbv zeta.
  destruct (if ToUpper unicodeUpper (side flags) =? "BUY" then _ else _)
    as [availableQuote|why]; [|split; discriminate].
  destruct (_ && _); [split; discriminate|].
  split; [discriminate|]. intros ? ? ? ? ? ? [= <- <- <- _ _ _]. auto.
Qed.

(** X15: [main] exits without any request to the exchange exactly when the
    flags are turned down: a key is empty, the run time does not parse, the
    side in upper case is neither BUY nor SELL, or the symbol does not end in
    USDT.  When [main] returns, it has made the price request for the symbol
    and then the account request, and nothing else before trading, and it
    trades the symbol of the flags on the side BUY or SELL. *)
Theorem flags_checked_before_any_request : forall flags exchange,
  (turned_down unicodeUpper flags
   <-> exists why, Buyer.main unicodeUpper ParseFloat flags exchange
                   = Exit1 [] why)
  /\ (forall queries sym sd available amount run,
        Buyer.main unicodeUpper ParseFloat flags exchange
        = Returned queries sym sd available amount run ->
        ~ turned_down unicodeUpper flags
        /\ queries = [TickerQuery (symbol flags); AccountQuery]
        /\ sym = symbol flags
        /\ (sd = "BUY" \/ sd = "SELL")).
Proof.
  intros flags exchange.
  destruct (main_cases flags exchange)
    as [[Htd [why Hm]] | (Hok & Hside & duration & Hd & Hm)].
  - split; [split; eauto|]. rewrite Hm. discriminate.
  - destruct (after_flags_queries flags exchange duration) as [Hne Hret].
    rewrite Hm. split.
    + split; [tauto|]. intros [why H]. now apply Hne in H.
    + intros queries sym sd available amount run H.
      destruct (Hret _ _ _ _ _ _ H) as (-> & -> & ->). auto.
Qed.

(** X16: when [main] trades, the amount it schedules is the total-amount flag
    when that is positive and the available quote amount otherwise; a positive
    flag is not above the available quote amount, so that the amount scheduled
    never exceeds what is available (when that is a number); and the run is
    the schedule of that amount over the parsed run time. *)
Theorem amount_to_use_within_available :
  forall flags exchange queries sym sd available amount run,
  Buyer.main unicodeUpper ParseFloat flags exchange
  = Returned queries sym sd available amount run ->
  amount = (if (0 <? totalAmount flags)%float
            then totalAmount flags else available)
  /\ ((0 <? totalAmount flags)%float = true ->
      (available <? totalAmount flags)%float = false)
  /\ (is_nan available = false -> (amount <=? available)%float = true)
  /\ exists duration,
       Parser.parseDuration (totalRunTime flags) = Ok duration
       /\ run = Scheduler.schedule (orders exchange sym sd) duration amount.
Proof.
  intros flags exchange queries sym sd available amount run.
  destruct (main_cases flags exchange)
    as [[_ [why ->]] | (_ & _ & duration & Hd & ->)]; [discriminate|].
  unfold after_flags.
  destruct (GetCurrentPrice ParseFloat _) as [price|err]; [|discriminate].
  cbv zeta.
  destruct (if ToUpper unicodeUpper (side flags) =? "BUY" then _ else _)
    as [availableQuote|why]; [|discriminate].
  destruct (0 <? totalAmount flags)%float eqn:Hpos; cbn [andb].
  - destruct (availableQuote <? totalAmount flags)%float eqn:Hcap;
      [discriminate|].
    intros [= <- <- <- <- <- <-]. split; [reflexivity|]. split; [auto|].
    split; [|eauto].
    intros Hnan. apply not_ltb_leb; auto using not_nan_leb_refl.
    apply not_nan_leb_refl. now apply ltb_not_nan in Hpos.
  - intros [= <- <- <- <- <- <-]. split; [reflexivity|].
    split; [discriminate|]. split; [apply not_nan_leb_refl | eauto].
Qed.

(** X17: when [main] trades, the price of the symbol was obtained; on the side
    BUY the available quote amount is the free USDT balance; on the side SELL
    the symbol is a base asset followed by USDT, and the available quote
    amount is the free balance of the base asset times the price. *)
Theorem available_quote_by_side :
  forall flags exchange queries sym sd available amount run,
  Buyer.main unicodeUpper ParseFloat flags exchange
  = Returned queries sym sd available amount run ->
  exists price,
    GetCurrentPrice ParseFloat (ticker exchange sym) = Ok price
    /\ (sd = "BUY" ->
        GetUSDTBalance ParseFloat (account exchange) = Ok available)
    /\ (sd = "SELL" ->
        exists base balance,
          sym = base ++ "USDT"
          /\ GetAssetBalance ParseFloat (account exchange) base = Ok balance
          /\ available = (balance * price)%float).
Proof.
  intros flags exchange queries sym sd available amount run.
  destruct (main_cases flags exchange)
    as [[_ [why ->]] | (Hok & _ & duration & Hd & ->)]; [discriminate|].
  assert (Hsuf : HasSuffix (symbol flags) "USDT" = true).
  { destruct (HasSuffix (symbol flags) "USDT") eqn:E; [reflexivity|].
    elim Hok. unfold turned_down. auto 8. }
  unfold after_flags.
  destruct (GetCurrentPrice ParseFloat _) as [price|err] eqn:Ep;
    [|discriminate].
  cbv zeta.
  destruct (ToUpper unicodeUpper (side flags) =? "BUY") eqn:Eb.
  - destruct (GetUSDTBalance ParseFloat _) as [bal|err] eqn:Eu; [|discriminate].
    destruct (_ && _); [discriminate|].
    intros [= <- <- <- <- <- <-]. exists price. split; [exact Ep|].
    split; [auto|]. apply String.eqb_eq in Eb. rewrite Eb. discriminate.
  - destruct (GetAssetBalance ParseFloat _ _) as [bal|err] eqn:Ea;
      [|discriminate].
    destruct (_ && _); [discriminate|].
    intros [= <- <- <- <- <- <-]. exists price. split; [exact Ep|].
    split.
    + intros H. apply String.eqb_neq in Eb. contradiction.
    + intros _. exists (TrimSuffix (symbol flags) "USDT"), bal.
      split; [now apply HasSuffix_TrimSuffix|]. auto.
Qed.

End MainFacts.

Lemma amount_to_use_within_available_witness :
  let run := Scheduler.schedule Scheduler.always_fills
               (50 * Duration.Second)%Z 100 in
  Buyer.main (fun s => s) example_ParseFloat (example_flags 100 "buy")
    example_exchange
  = Returned [TickerQuery "BTCUSDT"; AccountQuery] "BTCUSDT" "BUY" 250 100 run
  /\ (250 <? 100)%float = false
  /\ (100 <=? 250)%float = true.
Proof.
  cbv zeta.
  assert (E : Buyer.main (fun s => s) example_ParseFloat
                (example_flags 100 "buy") example_exchange
              = Returned [TickerQuery "BTCUSDT"; AccountQuery] "BTCUSDT" "BUY"
                  250 100
                  (Scheduler.schedule Scheduler.always_fills
                     (50 * Duration.Second)%Z 100))
    by reflexivity.
  destruct (amount_to_use_within_available _ _ _ _ _ _ _ _ _ _ E)
    as (_ & H1 & H2 & _).
  split; [exact E|]. split; [apply H1 | apply H2]; reflexivity.
Defined.

Lemma available_quote_by_side_witness :
  let run := Scheduler.schedule Scheduler.always_fills
               (50 * Duration.Second)%Z 25000 in
  Buyer.main (fun s => s) example_ParseFloat (example_flags (-1) "sell")
    example_exchange
  = Returned [TickerQuery "BTCUSDT"; AccountQuery] "BTCUSDT" "SELL" 25000
      25000 run
  /\ exists price base balance,
       GetCurrentPrice example_ParseFloat (ticker example_exchange "BTCUSDT")
       = Ok price
       /\ "BTCUSDT" = base ++ "USDT"
       /\ GetAssetBalance example_ParseFloat (account example_exchange) base
          = Ok balance
       /\ 25000%float = (balance * price)%float.
Proof.
  cbv zeta.
  assert (E : Buyer.main (fun s => s) example_ParseFloat
                (example_flags (-1) "sell") example_exchange
              = Returned [TickerQuery "BTCUSDT"; AccountQuery] "BTCUSDT" "SELL"
                  25000 25000
                  (Scheduler.schedule Scheduler.always_fills
                     (50 * Duration.Second)%Z 25000))
    by reflexivity.
  destruct (available_quote_by_side _ _ _ _ _ _ _ _ _ _ E)
    as (price & Hp & _ & Hs).
  destruct (Hs eq_refl) as (base & balance & H1 & H2 & H3).
  split; [exact E|]. exists price, base, balance. auto.
Defined.

End BuyerProperties.

Module RequestProperties.
Import FloatNotions Scheduler FloatFacts SchedulerProperties FloatExact.
Import RunProperties Url Requests RequestNotions.
Local Open Scope string_scope.

Lemma all_bytes_app p a b :
  Strings.all_bytes p (a ++ b)
  = Strings.all_bytes p a && Strings.all_bytes p b.
Proof.
  unfold Strings.all_bytes. induction a as [|c a IH]; simpl; [reflexivity|].
  now rewrite IH, andb_assoc.
Qed.

Lemma QueryEscape_unreserved s :
  Strings.all_bytes unreserved s = true -> QueryEscape s = s.
Proof.
  unfold Strings.all_bytes. induction s as [|c s IH]; simpl; [reflexivity|].
  intros H. apply andb_true_iff in H as [Hc Hs]. rewrite (IH Hs).
  unfold escape_byte. unfold unreserved in Hc.
  apply andb_true_iff in Hc as [H1 H2].
  apply negb_true_iff in H1, H2. now rewrite H1, H2.
Qed.

Ltac each_byte c :=
  destruct c as [[|] [|] [|] [|] [|] [|] [|] [|]]; reflexivity.

Lemma escape_byte_chars c :
  Strings.all_bytes escaped_char (escape_byte c) = true.
Proof. each_byte c. Qed.

Lemma QueryEscape_chars s :
  Strings.all_bytes escaped_char (QueryEscape s) = true.
Proof.
  induction s as [|c s IH]; simpl; [reflexivity|].
  now rewrite all_bytes_app, escape_byte_chars, IH.
Qed.

Lemma hex_byte_chars c :
  unreserved (nibble Hex.hextable (N_of_ascii c / 16)) = true
  /\ unreserved (nibble Hex.hextable (N_of_ascii c mod 16)) = true
  /\ Parser.mem_ascii (nibble Hex.hextable (N_of_ascii c / 16))
       Hex.hextable = true
  /\ Parser.mem_ascii (nibble Hex.hextable (N_of_ascii c mod 16))
       Hex.hextable = true.
Proof.
  destruct c as [[|] [|] [|] [|] [|] [|] [|] [|]]; repeat split; reflexivity.
Qed.

Lemma EncodeToString_chars src :
  Strings.all_bytes unreserved (Hex.EncodeToString src) = true
  /\ Strings.all_bytes (fun c => Parser.mem_ascii c Hex.hextable)
       (Hex.EncodeToString src) = true
  /\ String.length (Hex.EncodeToString src) = (2 * String.length src)%nat.
Proof.
  unfold Strings.all_bytes.
  induction src as [|c src (IH1 & IH2 & IH3)]; simpl; [auto|].
  destruct (hex_byte_chars c) as (H1 & H2 & H3 & H4).
  rewrite H1, H2, H3, H4, IH1, IH2, IH3. repeat split. lia.
Qed.

Lemma string_of_uint_chars u :
  Strings.all_bytes unreserved (NilEmpty.string_of_uint u) = true.
Proof.
  unfold Strings.all_bytes. induction u; simpl; auto.
Qed.

Lemma FormatInt_chars i :
  Strings.all_bytes unreserved (Strconv.FormatInt i) = true.
Proof.
  unfold Strconv.FormatInt, NilZero.string_of_int, NilZero.string_of_uint.
  destruct (Z.to_int i) as [u|u].
  - destruct u; try reflexivity; apply (string_of_uint_chars).
  - unfold Strings.all_bytes. cbn [list_ascii_of_string forallb].
    destruct u; try reflexivity; apply (string_of_uint_chars).
Qed.

Lemma count_app c a b : count c (a ++ b) = (count c a + count c b)%nat.
Proof. induction a as [|x a IH]; simpl; [reflexivity | rewrite IH; lia]. Qed.

Lemma count_absent p c s :
  Strings.all_bytes p s = true -> p c = false -> count c s = 0%nat.
Proof.
  unfold Strings.all_bytes. induction s as [|x s IH]; simpl; [reflexivity|].
  intros H Hc. apply andb_true_iff in H as [Hx Hs].
  rewrite (IH Hs Hc). destruct (Ascii.eqb_spec x c); [congruence|reflexivity].
Qed.

Lemma hex_byte_value c :
  (16 * hexval (nibble Hex.hextable (N_of_ascii c / 16))
   + hexval (nibble Hex.hextable (N_of_ascii c mod 16)))%N
  = N_of_ascii c.
Proof. each_byte c. Qed.

Lemma EncodeToString_inj a : forall b,
  Hex.EncodeToString a = Hex.EncodeToString b -> a = b.
Proof.
  induction a as [|x a IH]; intros [|y b] H; simpl in H;
    try reflexivity; try discriminate.
  injection H as H1 H2 H3. f_equal; [|now apply IH].
  rewrite <- (ascii_N_embedding x), <- (ascii_N_embedding y).
  rewrite <- (hex_byte_value x), <- (hex_byte_value y), H1, H2. reflexivity.
Qed.

(** *** The text of a quantity *)

Lemma digit_unreserved c : Parser.is_digit c = true -> unreserved c = true.
Proof.
  destruct c as [[|] [|] [|] [|] [|] [|] [|] [|]]; try discriminate;
    reflexivity.
Qed.

Lemma all_digits_unreserved s :
  Parser.all_digits s = true -> Strings.all_bytes unreserved s = true.
Proof.
  unfold Parser.all_digits, Strings.all_bytes.
  induction s as [|c s IH]; simpl; [reflexivity|].
  intros H. apply andb_true_iff in H as [Hc Hs].
  now rewrite (digit_unreserved c Hc), IH.
Qed.

Lemma all_digits_app a b :
  Parser.all_digits (a ++ b) = Parser.all_digits a && Parser.all_digits b.
Proof. apply (all_bytes_app Parser.is_digit). Qed.

Lemma digit_char_is_digit r :
  (0 <= r < 10)%Z -> Parser.is_digit (ascii_of_N (48 + Z.to_N r)) = true.
Proof.
  intros H.
  assert (E : (r = 0 \/ r = 1 \/ r = 2 \/ r = 3 \/ r = 4 \/ r = 5 \/ r = 6
               \/ r = 7 \/ r = 8 \/ r = 9)%Z) by lia.
  repeat (destruct E as [->|E]; [reflexivity|]). subst. reflexivity.
Qed.

Lemma fixed_digits_chars k : forall n,
  Parser.all_digits (Fmt.fixed_digits k n) = true
  /\ String.length (Fmt.fixed_digits k n) = k.
Proof.
  induction k as [|k IH]; intros n; cbn [Fmt.fixed_digits]; [auto|].
  destruct (IH (n / 10)) as [H1 H2].
  rewrite all_digits_app, H1, StringsProperties.length_append, H2.
  split; [|cbn [String.length]; lia].
  unfold Parser.all_digits. cbn [list_ascii_of_string forallb andb].
  rewrite digit_char_is_digit by (apply Z.mod_pos_bound; lia). reflexivity.
Qed.

Lemma string_of_uint_digits u :
  Parser.all_digits (NilEmpty.string_of_uint u) = true.
Proof. unfold Parser.all_digits. induction u; simpl; auto. Qed.

Lemma FormatInt_nonneg n :
  (0 <= n)%Z ->
  Parser.all_digits (Strconv.FormatInt n) = true
  /\ Strconv.FormatInt n <> EmptyString.
Proof.
  intros Hn. unfold Strconv.FormatInt, NilZero.string_of_int.
  destruct n as [|p|p]; [split; [reflexivity|discriminate]| |lia].
  cbn [Z.to_int]. unfold NilZero.string_of_uint.
  destruct (Pos.to_uint p) eqn:E;
    (split; [try reflexivity; apply (string_of_uint_digits (_ _)) |
             discriminate]).
Qed.

Lemma round_half_even_nonneg num den :
  (0 <= num -> 0 < den -> 0 <= Fmt.round_half_even num den)%Z.
Proof.
  intros Hn Hd. unfold Fmt.round_half_even.
  pose proof (Z.div_pos num den Hn Hd).
  destruct (_ || _); lia.
Qed.

Lemma Sprintf_8f_finite x :
  Float64.is_finite x = true ->
  exists whole frac,
    Fmt.Sprintf_8f x = (if sign_bit x then "-" else "") ++ whole ++ "." ++ frac
    /\ whole <> "" /\ Parser.all_digits whole = true
    /\ Parser.all_digits frac = true /\ String.length frac = 8%nat.
Proof.
  unfold Float64.is_finite, Fmt.Sprintf_8f, sign_bit.
  destruct (Prim2SF x) as [s|s| |s m e]; try discriminate; intros _.
  - exists "0", "00000000".
    split; [reflexivity|]. repeat split. discriminate.
  - set (n := if (0 <=? e)%Z then _ else _).
    assert (Hn : (0 <= n)%Z).
    { unfold n. destruct (0 <=? e)%Z eqn:He.
      - apply Z.leb_le in He. pose proof (Z.pow_nonneg 2 e). lia.
      - apply round_half_even_nonneg; [lia|].
        apply Z.pow_pos_nonneg; apply Z.leb_gt in He; lia. }
    clearbody n.
    destruct (FormatInt_nonneg (n / 10 ^ 8)%Z) as [H1 H2];
      [apply Z.div_pos; lia|].
    destruct (fixed_digits_chars 8 (n mod 10 ^ 8)%Z) as [H3 H4].
    exists (Strconv.FormatInt (n / 10 ^ 8)%Z),
      (Fmt.fixed_digits 8 (n mod 10 ^ 8)%Z).
    split; [reflexivity|]. auto.
Qed.

Section Signed.
Variable hmac_sha256 : string -> string -> string.
Variable unicodeUpper : string -> string.

Lemma Encode_order a b c d e f :
  Encode
    (Values_Set (Values_Set (Values_Set (Values_Set (Values_Set
       (Values_Set [] "symbol" a) "side" b) "type" c) "quoteOrderQty" d)
       "timestamp" e) "recvWindow" f)
  = "quoteOrderQty=" ++ QueryEscape d ++ "&recvWindow=" ++ QueryEscape f
    ++ "&side=" ++ QueryEscape b ++ "&symbol=" ++ QueryEscape a
    ++ "&timestamp=" ++ QueryEscape e ++ "&type=" ++ QueryEscape c.
Proof. reflexivity. Qed.

Lemma Encode_order_signed a b c d e f g :
  Encode
    (Values_Set (Values_Set (Values_Set (Values_Set (Values_Set (Values_Set
       (Values_Set [] "symbol" a) "side" b) "type" c) "quoteOrderQty" d)
       "timestamp" e) "recvWindow" f) "signature" g)
  = "quoteOrderQty=" ++ QueryEscape d ++ "&recvWindow=" ++ QueryEscape f
    ++ "&side=" ++ QueryEscape b ++ "&signature=" ++ QueryEscape g
    ++ "&symbol=" ++ QueryEscape a
    ++ "&timestamp=" ++ QueryEscape e ++ "&type=" ++ QueryEscape c.
Proof. reflexivity. Qed.

Lemma Encode_account e f :
  Encode (Values_Set (Values_Set [] "timestamp" e) "recvWindow" f)
  = "recvWindow=" ++ QueryEscape f ++ "&timestamp=" ++ QueryEscape e.
Proof. reflexivity. Qed.

Lemma Encode_account_signed e f g :
  Encode
    (Values_Set (Values_Set (Values_Set [] "timestamp" e) "recvWindow" f)
       "signature" g)
  = "recvWindow=" ++ QueryEscape f ++ "&signature=" ++ QueryEscape g
    ++ "&timestamp=" ++ QueryEscape e.
Proof. reflexivity. Qed.

Lemma QueryEscape_signature secretKey query :
  QueryEscape (generateSignature hmac_sha256 secretKey query)
  = generateSignature hmac_sha256 secretKey query.
Proof. apply QueryEscape_unreserved, EncodeToString_chars. Qed.

Lemma QueryEscape_timestamp now : QueryEscape (timestamp now) = timestamp now.
Proof. apply QueryEscape_unreserved, FormatInt_chars. Qed.

Lemma order_query_form secretKey symbol side quoteQuantity now :
  let upper := Strings.ToUpper unicodeUpper side in
  let quantity := Fmt.Sprintf_8f quoteQuantity in
  let payload :=
    "quoteOrderQty=" ++ QueryEscape quantity ++ "&recvWindow=5000&side="
    ++ QueryEscape upper ++ "&symbol=" ++ QueryEscape symbol
    ++ "&timestamp=" ++ timestamp now ++ "&type=MARKET" in
  Encode (order_params unicodeUpper symbol side quoteQuantity now) = payload
  /\ order_query hmac_sha256 unicodeUpper secretKey symbol side quoteQuantity now
     = "quoteOrderQty=" ++ QueryEscape quantity ++ "&recvWindow=5000&side="
       ++ QueryEscape upper
       ++ "&signature=" ++ generateSignature hmac_sha256 secretKey payload
       ++ "&symbol=" ++ QueryEscape symbol
       ++ "&timestamp=" ++ timestamp now ++ "&type=MARKET".
Proof.
  intros upper quantity payload.
  assert (Hp : Encode (order_params unicodeUpper symbol side quoteQuantity now)
               = payload).
  { unfold order_params. rewrite Encode_order, QueryEscape_timestamp.
    reflexivity. }
  split; [exact Hp|].
  unfold order_query. cbv zeta. rewrite Hp. unfold order_params.
  rewrite Encode_order_signed, QueryEscape_timestamp, QueryEscape_signature.
  reflexivity.
Qed.

Lemma account_query_form secretKey now :
  let payload := "recvWindow=5000&timestamp=" ++ timestamp now in
  Encode (account_params now) = payload
  /\ account_query hmac_sha256 secretKey now
     = "recvWindow=5000&signature="
       ++ generateSignature hmac_sha256 secretKey payload
       ++ "&timestamp=" ++ timestamp now.
Proof.
  intros payload.
  assert (Ha : Encode (account_params now) = payload).
  { unfold account_params. rewrite Encode_account, QueryEscape_timestamp.
    reflexivity. }
  split; [exact Ha|].
  unfold account_query. cbv zeta. rewrite Ha. unfold account_params.
  rewrite Encode_account_signed, QueryEscape_timestamp, QueryEscape_signature.
  reflexivity.
Qed.

(** X18: the text signed for an order is its six parameters in the order of
    their keys (quoteOrderQty, recvWindow, side, symbol, timestamp, type), and
    the query sent is the same parameters with the signature of exactly that
    text added as the parameter signature, between side and symbol; likewise
    the account request signs recvWindow and timestamp and sends them with the
    signature in between. *)
Theorem signature_covers_the_parameters :
  forall secretKey symbol side quoteQuantity now,
  let upper := Strings.ToUpper unicodeUpper side in
  let quantity := Fmt.Sprintf_8f quoteQuantity in
  let payload :=
    "quoteOrderQty=" ++ QueryEscape quantity ++ "&recvWindow=5000&side="
    ++ QueryEscape upper ++ "&symbol=" ++ QueryEscape symbol
    ++ "&timestamp=" ++ timestamp now ++ "&type=MARKET" in
  let account_payload := "recvWindow=5000&timestamp=" ++ timestamp now in
  Encode (order_params unicodeUpper symbol side quoteQuantity now) = payload
  /\ order_query hmac_sha256 unicodeUpper secretKey symbol side quoteQuantity now
     = "quoteOrderQty=" ++ QueryEscape quantity ++ "&recvWindow=5000&side="
       ++ QueryEscape upper
       ++ "&signature=" ++ generateSignature hmac_sha256 secretKey payload
       ++ "&symbol=" ++ QueryEscape symbol
       ++ "&timestamp=" ++ timestamp now ++ "&type=MARKET"
  /\ Encode (account_params now) = account_payload
  /\ account_query hmac_sha256 secretKey now
     = "recvWindow=5000&signature="
       ++ generateSignature hmac_sha256 secretKey account_payload
       ++ "&timestamp=" ++ timestamp now.
Proof.
  intros secretKey symbol side quoteQuantity now.
  destruct (order_query_form secretKey symbol side quoteQuantity now)
    as [H1 H2].
  destruct (account_query_form secretKey now) as [H3 H4].
  cbv zeta in *. auto.
Qed.

Lemma count_escaped c s :
  escaped_char c = false -> count c (QueryEscape s) = 0%nat.
Proof. apply count_absent, QueryEscape_chars. Qed.

Lemma count_unreserved c s :
  Strings.all_bytes unreserved s = true -> escaped_char c = false ->
  count c s = 0%nat.
Proof.
  intros Hs Hc. apply (count_absent unreserved); [exact Hs|].
  unfold escaped_char in Hc. apply orb_false_iff in Hc as [Hc _].
  now apply orb_false_iff in Hc as [Hc _].
Qed.

Lemma count_order_query c secretKey symbol side quoteQuantity now :
  escaped_char c = false ->
  count c (order_query hmac_sha256 unicodeUpper secretKey symbol side
             quoteQuantity now)
  = count c "quoteOrderQty=&recvWindow=5000&side=&signature=&symbol=&timestamp=&type=MARKET".
Proof.
  intros Hc.
  destruct (order_query_form secretKey symbol side quoteQuantity now)
    as [_ ->].
  rewrite !count_app, !(count_escaped c) by exact Hc.
  rewrite (count_unreserved c (generateSignature _ _ _))
    by (try exact Hc; apply EncodeToString_chars).
  rewrite (count_unreserved c (timestamp now))
    by (try exact Hc; apply FormatInt_chars).
  change "quoteOrderQty=&recvWindow=5000&side=&signature=&symbol=&timestamp=&type=MARKET"
    with ("quoteOrderQty=" ++ "&recvWindow=5000&side=" ++ "&signature="
          ++ "&symbol=" ++ "&timestamp=" ++ "&type=MARKET").
  rewrite !count_app. lia.
Qed.

(** X19: whatever the symbol, the side, the quantity and the key are, the
    query of an order has exactly seven parameters: six separators and seven
    equal signs, and no #, ? or space.  No character of an argument adds, ends
    or hides a parameter. *)
Theorem order_query_has_seven_parameters :
  forall secretKey symbol side quoteQuantity now,
  let query :=
    order_query hmac_sha256 unicodeUpper secretKey symbol side quoteQuantity
      now in
  count "&" query = 6%nat /\ count "=" query = 7%nat
  /\ count "#" query = 0%nat /\ count "?" query = 0%nat
  /\ count " " query = 0%nat.
Proof.
  intros secretKey symbol side quoteQuantity now query. subst query.
  rewrite !count_order_query by reflexivity. repeat split.
Qed.

(** X20: the signature is the MAC written in lower-case hexadecimal digits,
    two for each byte; escaping it for the query leaves it unchanged; and two
    signatures are equal exactly when the MACs are. *)
Theorem generateSignature_is_hex_of_the_mac : forall secretKey query,
  let signature := generateSignature hmac_sha256 secretKey query in
  String.length signature
  = (2 * String.length (hmac_sha256 secretKey query))%nat
  /\ Strings.all_bytes (fun c => Parser.mem_ascii c "0123456789abcdef")
       signature = true
  /\ QueryEscape signature = signature
  /\ forall secretKey' query',
       signature = generateSignature hmac_sha256 secretKey' query'
       <-> hmac_sha256 secretKey query = hmac_sha256 secretKey' query'.
Proof.
  intros secretKey query signature. subst signature.
  unfold generateSignature.
  destruct (EncodeToString_chars (hmac_sha256 secretKey query))
    as (H1 & H2 & H3).
  split; [exact H3|]. split; [exact H2|].
  split; [now apply QueryEscape_unreserved|].
  intros secretKey' query'. split.
  - apply EncodeToString_inj.
  - intros ->. reflexivity.
Qed.

End Signed.


Lemma leb_finite_nonneg q b :
  SF_nonneg (Prim2SF q) -> finite_nonneg b -> (q <=? b)%float = true ->
  Float64.is_finite q = true /\ sign_bit q = false.
Proof.
  unfold finite_nonneg, Float64.is_finite, sign_bit.
  rewrite FloatAxioms.leb_spec.
  destruct (Prim2SF q) as [s|s| |s m e]; simpl; try contradiction; auto.
  all: intros ->; destruct (Prim2SF b) as [sb|sb| |sb mb eb]; simpl;
    try contradiction; try discriminate.
  all: destruct sb; [contradiction | discriminate].
Qed.


Local Open Scope string_scope.

(** X21: from a finite amount that is not negative, the quantity of every
    order is written by the format %.8f as digits, a point and eight digits,
    without a sign, an exponent, NaN or Inf; escaping it for the query leaves
    it unchanged; in QUANTIZED mode it is 1.00000000. *)
Theorem order_quantities_are_plain_decimals :
  forall venue duration budget i q b ok b',
  (0 <=? budget)%float = true -> Float64.is_finite budget = true ->
  In (Dispatch i q b ok b') (events (schedule venue duration budget)) ->
  (exists whole frac,
     Fmt.Sprintf_8f q = whole ++ "." ++ frac
     /\ whole <> "" /\ Parser.all_digits whole = true
     /\ Parser.all_digits frac = true /\ String.length frac = 8%nat)
  /\ QueryEscape (Fmt.Sprintf_8f q) = Fmt.Sprintf_8f q
  /\ (planMode (buildPlan duration budget) = QUANTIZED ->
      Fmt.Sprintf_8f q = "1.00000000").
Proof.
  intros venue duration budget i q b ok b' H0 Hf.
  pose proof (finite_nonneg_intro _ H0 Hf) as Hb.
  destruct (buildPlan duration budget) as [m|m n q' iv] eqn:Hp.
  { rewrite (schedule_Empty _ _ _ _ Hp). intros []. }
  destruct (schedule_Slices venue _ _ _ _ _ _ Hp) as (evs & final & Hl & ->).
  cbn [events planMode]. intros Hin.
  destruct (Z.to_nat n) as [|todo] eqn:En.
  { simpl in Hl. injection Hl as <- _. destruct Hin. }
  assert (Hsign : SF_nonneg (Prim2SF q')).
  { destruct m.
    - apply buildPlan_quantized_size in Hp. subst q'. reflexivity.
    - apply (linear_size_sign _ _ _ _ _ Hb Hp). lia. }
  assert (Hq : (0 <=? q')%float = true).
  { rewrite FloatAxioms.leb_spec, Prim2SF_zero. now apply SF_nonneg_leb. }
  destruct (slice_loop_nonneg _ _ _ (nap_sleeps m n iv) Hq _ _ _ _ _ Hb Hl)
    as [_ Hd].
  destruct (Hd _ _ _ _ _ Hin) as [Hb1 _].
  destruct (slice_loop_dispatch _ _ _ (nap_sleeps m n iv) _ _ _ _ _ Hl
              _ _ _ _ _ Hin) as (-> & Hg & _).
  assert (Hle : (q' <=? b)%float = true).
  { apply not_ltb_leb; auto using leb_zero_refl, finite_nonneg_leb. }
  destruct (leb_finite_nonneg _ _ Hsign Hb1 Hle) as [Hfin Hpos].
  destruct (Sprintf_8f_finite q' Hfin) as (whole & frac & E & H1 & H2 & H3 & H4).
  rewrite Hpos in E. cbn [append] in E.
  split; [exists whole, frac; auto|]. split.
  - apply QueryEscape_unreserved. rewrite E.
    rewrite all_bytes_app, (all_digits_unreserved _ H2).
    change (Strings.all_bytes unreserved (String "." frac))
      with (unreserved "." && Strings.all_bytes unreserved frac).
    rewrite (all_digits_unreserved _ H3). reflexivity.
  - intros ->. apply buildPlan_quantized_size in Hp. subst q'. reflexivity.
Qed.

Lemma order_quantities_are_plain_decimals_witness :
  Fmt.Sprintf_8f (100 / 3)%float = "33.33333333"
  /\ QueryEscape (Fmt.Sprintf_8f (100 / 3)%float)
     = Fmt.Sprintf_8f (100 / 3)%float.
Proof.
  destruct (order_quantities_are_plain_decimals always_fills
              (3 * Duration.Second) 100 0 (100 / 3)%float 100
              true (100 - 100 / 3)%float eq_refl eq_refl
              (or_introl eq_refl)) as (_ & H & _).
  split; [reflexivity | exact H].
Defined.

End RequestProperties.
